(** * Realm core: the packed integer array (realm/array.hpp)

    A shallow embedding of the leaf array of the Realm storage engine:
    the representable bounds per element width, the [RefOrTagged]
    overlay, the width-dispatched element decoder [get_universal], the
    accessor operations that live in the header, and the conditional
    scan engine ([find_optimized], [compare_equality],
    [compare_relation] and their bit-trick helpers).

    Conventions.  Machine integers are modelled in [Z]: an [int64_t] is
    a [Z] in [-2^63, 2^63), a [uint64_t] or [size_t] a [Z] in
    [0, 2^64); every conversion and wrap-around of the source is
    written out with [to_u64] / [to_i64].  The payload of an array is a
    [list byte]; multi-byte loads are little-endian, as on the targets
    this header is built for (arm64, x86_64, i386). *)

From Stdlib Require Import ZArith List Lia Bool Sorted.
From coqutil Require Import Byte Z.bitblast Word.LittleEndianList.
Import ListNotations.
Local Open Scope Z_scope.

(** ** Fixed-width integers *)

(** Conversion to [uint64_t] / [size_t]: reduction modulo 2^64. *)
Definition to_u64 (x : Z) : Z := x mod 2 ^ 64.

(** Conversion of a bit pattern to a signed [w]-bit integer. *)
Definition sext (w : Z) (x : Z) : Z := (x + 2 ^ (w - 1)) mod 2 ^ w - 2 ^ (w - 1).

(** Conversion to [int64_t] (two's complement). *)
Definition to_i64 (x : Z) : Z := sext 64 x.

(** [npos], [not_found] : [size_t(-1)]. *)
Definition npos : Z := 2 ^ 64 - 1.
Definition not_found : Z := npos.

(** [template <class T> T no0(T v)] *)
Definition no0 (v : Z) : Z := if v =? 0 then 1 else v.

(** The element widths an array can have. *)
Definition supported_widths : list Z := [0; 1; 2; 4; 8; 16; 32; 64].

Definition supported_width (w : Z) : Prop := In w supported_widths.

(** ** Representable bounds: [Array::lbound_for_width], [Array::ubound_for_width]

    [REALM_UNREACHABLE()] terminates the program; it is [None] here. *)

Definition lbound_for_width (width : Z) : option Z :=
  if width =? 32 then Some (- 0x80000000)
  else if width =? 16 then Some (- 0x8000)
  else if width <? 8 then Some 0
  else if width =? 8 then Some (- 0x80)
  else if width =? 64 then Some (- 0x8000000000000000)
  else None.

Definition ubound_for_width (width : Z) : option Z :=
  if width =? 32 then Some 0x7FFFFFFF
  else if width =? 16 then Some 0x7FFF
  else if width =? 0 then Some 0
  else if width =? 1 then Some 1
  else if width =? 2 then Some 3
  else if width =? 4 then Some 15
  else if width =? 8 then Some 0x7F
  else if width =? 64 then Some 0x7FFFFFFFFFFFFFFF
  else None.

(** ** The reference / tagged-integer overlay *)

Module RefOrTagged.

(** Modelled from the spec: [to_ref] and [from_ref] are defined in
    realm/alloc.hpp, which is not part of the sources at hand.  A
    reference is a [size_t]; the two functions convert between the
    [int_fast64_t] slot and the [size_t] reference without changing
    the bit pattern. *)
Definition to_ref (v : Z) : Z := to_u64 v.
Definition from_ref (r : Z) : Z := to_i64 r.

(** [class RefOrTagged { int_fast64_t m_value; }] *)
Record t := mk { m_value : Z }.

Definition is_ref (x : t) : bool := Z.land (m_value x) 1 =? 0.

Definition is_tagged (x : t) : bool := negb (is_ref x).

Definition get_as_ref (x : t) : Z := to_ref (m_value x).

Definition get_as_int (x : t) : Z :=
  Z.shiftr (Z.land (to_u64 (m_value x)) 0xFFFFFFFFFFFFFFFF) 1.

Definition make_ref (ref : Z) : t := mk (from_ref ref).

(** [REALM_ASSERT(i < (1ULL << 63))] aborts when it fails: [None]. *)
Definition make_tagged (i : Z) : option t :=
  if i <? Z.shiftl 1 63
  then Some (mk (to_i64 (Z.lor (to_u64 (Z.shiftl i 1)) 1)))
  else None.

End RefOrTagged.

(** ** Reading the payload *)

(** The byte at offset [off] of a buffer.  Reading past the end of the
    buffer is undefined in the source; the model reads zero there, and
    no property below depends on such a read. *)
Definition byte_at (data : list byte) (off : Z) : byte :=
  nth (Z.to_nat off) data Byte.x00.

(** [data[off]] read through a [const char*]: a signed octet, promoted
    to [int]. *)
Definition char_at (data : list byte) (off : Z) : Z :=
  sext 8 (byte.unsigned (byte_at data off)).

(** The [n] bytes starting at [off]. *)
Fixpoint bytes_from (data : list byte) (off : Z) (n : nat) : list byte :=
  match n with
  | O => []
  | S n' => byte_at data off :: bytes_from data (off + 1) n'
  end.

(** An aligned or unaligned little-endian load of [n] bytes, as an
    unsigned number. *)
Definition load_le (data : list byte) (off : Z) (n : nat) : Z :=
  le_combine (bytes_from data off n).

(** [template <size_t w> int64_t Array::get_universal(const char* data, size_t ndx)] *)
Definition get_universal (w : Z) (data : list byte) (ndx : Z) : Z :=
  if w =? 0 then 0
  else if w =? 1 then
    let offset := Z.shiftr ndx 3 in
    Z.land (Z.shiftr (char_at data offset) (Z.land ndx 7)) 0x01
  else if w =? 2 then
    let offset := Z.shiftr ndx 2 in
    Z.land (Z.shiftr (char_at data offset) (Z.shiftl (Z.land ndx 3) 1)) 0x03
  else if w =? 4 then
    let offset := Z.shiftr ndx 1 in
    Z.land (Z.shiftr (char_at data offset) (Z.shiftl (Z.land ndx 1) 2)) 0x0F
  else if w =? 8 then
    sext 8 (load_le data ndx 1)
  else if w =? 16 then
    let offset := ndx * 2 in
    sext 16 (load_le data offset 2)
  else if w =? 32 then
    let offset := ndx * 4 in
    sext 32 (load_le data offset 4)
  else if w =? 64 then
    let offset := ndx * 8 in
    sext 64 (load_le data offset 8)
  else -1.

(** ** The array accessor *)

(** The header that precedes the payload in memory (realm/node_header.hpp
    is not among the sources; the fields are those the accessor caches). *)
Record NodeHeader := mkNodeHeader {
  hdr_is_inner_bptree_node : bool;
  hdr_has_refs : bool;
  hdr_context_flag : bool;
  hdr_width : Z;
  hdr_size : Z
}.

(** The memory a non-null [m_data] points into: the header just before
    it and the payload from it on. *)
Record MemBlock := mkMemBlock {
  header : NodeHeader;
  payload : list byte
}.

(** [class Array : public Node, public ArrayParent].  [m_data] is
    [nullptr] in the unattached state. *)
Record Array := mkArray {
  m_ref : Z;
  m_data : option MemBlock;
  m_size : Z;
  m_width : Z;
  m_lbound : Z;
  m_ubound : Z;
  m_is_inner_bptree_node : bool;
  m_has_refs : bool;
  m_context_flag : bool
}.

(** [Node::is_attached]: [m_data != nullptr]. *)
Definition is_attached (a : Array) : bool :=
  match m_data a with Some _ => true | None => false end.

(** The bytes [m_data] points to (none behind a null pointer). *)
Definition data_of (a : Array) : list byte :=
  match m_data a with Some b => payload b | None => [] end.

(** [template <size_t w> int64_t Array::get(size_t ndx)] *)
Definition get_w (w : Z) (a : Array) (ndx : Z) : Z :=
  get_universal w (data_of a) ndx.

(** [int64_t Array::get(size_t ndx)]: the getter cached for the current
    width ([m_getter] is [&Array::get<m_width>]). *)
Definition get (a : Array) (ndx : Z) : Z := get_w (m_width a) a ndx.

(** The allocator the accessor talks to ([class Allocator], an abstract
    interface in realm/alloc.hpp): its state and the calls the header
    makes. *)
Class Allocator (A : Type) := {
  is_read_only : A -> Z -> bool;
  alloc_ : Z -> A -> option (Z * A);
  free_ : Z -> A -> A
}.

Section Lifecycle.
Context {A : Type} `{Allocator A}.

(** [Array::destroy_children] is defined in array.cpp; it walks the
    elements and frees the subtrees through the allocator. *)
Variable destroy_children : Array -> A -> A.

(** [void Array::destroy_deep() noexcept] *)
Definition destroy_deep (s : Array * A) : Array * A :=
  let (a, al) := s in
  if negb (is_attached a) then (a, al)
  else
    let al1 := if m_has_refs a then destroy_children a al else al in
    let al2 := free_ (m_ref a) al1 in
    (mkArray (m_ref a) None (m_size a) (m_width a) (m_lbound a) (m_ubound a)
             (m_is_inner_bptree_node a) (m_has_refs a) (m_context_flag a),
     al2).

(** The output stream of [write] ([_impl::ArrayWriterBase]) and the two
    writers of array.cpp, [do_write_shallow] and [do_write_deep]; each
    returns the reference of the written copy. *)
Context {Writer : Type}.
Variable do_write_shallow : Array -> Writer -> Z * Writer.
Variable do_write_deep : Array -> bool -> Writer -> Z * Writer.

(** [ref_type Array::write(_impl::ArrayWriterBase& out, bool deep,
    bool only_if_modified) const].  [REALM_ASSERT(is_attached())]
    aborts on an unattached accessor: [None]. *)
Definition write (a : Array) (al : A) (out : Writer)
           (deep only_if_modified : bool) : option (Z * Writer) :=
  if negb (is_attached a) then None
  else if only_if_modified && is_read_only al (m_ref a) then Some (m_ref a, out)
  else if negb deep || negb (m_has_refs a) then Some (do_write_shallow a out)
  else Some (do_write_deep a only_if_modified out).

(** [Array::move(begin, end, dest_begin)] and [Node::set_header_size]
    are defined outside the header; each may fail (copy-on-write
    allocates). *)
Variable move : Z -> Z -> Z -> Array * A -> option (Array * A).
Variable set_header_size : Z -> Array * A -> option (Array * A).

Definition with_size (n : Z) (s : Array * A) : Array * A :=
  let (a, al) := s in
  (mkArray (m_ref a) (m_data a) n (m_width a) (m_lbound a) (m_ubound a)
           (m_is_inner_bptree_node a) (m_has_refs a) (m_context_flag a), al).

(** [void Array::erase(size_t begin, size_t end)] *)
Definition erase (begin end_ : Z) (s : Array * A) : option (Array * A) :=
  if negb (begin =? end_) then
    match move end_ (m_size (fst s)) begin s with
    | Some s1 =>
        let n := to_u64 (m_size (fst s1) - (end_ - begin)) in
        set_header_size n (with_size n s1)
    | None => None
    end
  else Some s.

End Lifecycle.

(** ** Writing elements

    [Array::set], the per-width setters, [do_ensure_minimum_width],
    [bit_width] and [copy_on_write] are defined in array.cpp and
    realm/array_direct.hpp, outside the sources at hand. *)

(** Replace the element at position [n] of a list (nothing happens past
    the end). *)
Fixpoint upd {T : Type} (l : list T) (n : nat) (x : T) : list T :=
  match l, n with
  | [], _ => []
  | _ :: t, O => x :: t
  | h :: t, S n' => h :: upd t n' x
  end.

Definition store_byte (data : list byte) (off : Z) (b : byte) : list byte :=
  if off <? 0 then data else upd data (Z.to_nat off) b.

Fixpoint store_bytes (data : list byte) (off : Z) (bs : list byte) : list byte :=
  match bs with
  | [] => data
  | b :: rest => store_bytes (store_byte data off b) (off + 1) rest
  end.

(** Modelled from the spec: the setter for width [w] (array_direct.hpp
    is missing).  "Byte/bit addressing for a given width is: offset =
    index * width / 8 bytes, with sub-byte widths (1,2,4) packed
    low-bit-first within a byte.  Widths {8,16,32,64} map directly onto
    native signed integer reads at the computed byte offset." *)
Definition set_direct (w : Z) (data : list byte) (ndx value : Z) : list byte :=
  if (w =? 1) || (w =? 2) || (w =? 4) then
    let offset := ndx * w / 8 in
    let bit := (ndx * w) mod 8 in
    let lanemask := Z.ones w in
    let old := byte.unsigned (byte_at data offset) in
    let new := Z.lor (Z.land old (Z.lnot (Z.shiftl lanemask bit)))
                     (Z.shiftl (Z.land value lanemask) bit) in
    store_byte data offset (byte.of_Z new)
  else if (w =? 8) || (w =? 16) || (w =? 32) || (w =? 64) then
    let n := Z.to_nat (w / 8) in
    store_bytes data (ndx * (w / 8)) (le_split n value)
  else data.

(** Whether [v] is representable at width [w]. *)
Definition fits (w v : Z) : bool :=
  match lbound_for_width w, ubound_for_width w with
  | Some l, Some u => (l <=? v) && (v <=? u)
  | _, _ => false
  end.

(** Modelled from the spec: [Array::bit_width], documented in the header
    as "the minimum number of bits needed to fit the value ... rounded
    up to nearest log2.  Possible results {0, 1, 2, 4, 8, 16, 32, 64}". *)
Definition bit_width (v : Z) : option Z :=
  List.find (fun w => fits w v) supported_widths.

(** Modelled from the spec: the payload size in bytes of [size] elements
    of [width] bits, "rounded to a multiple of 8 bytes". *)
Definition payload_bytes (size width : Z) : Z :=
  ((size * width + 63) / 64) * 8.

Definition set_block (a : Array) (w : Z) (lb ub : Z) (b : MemBlock) : Array :=
  mkArray (m_ref a) (Some b) (m_size a) w lb ub
          (m_is_inner_bptree_node a) (m_has_refs a) (m_context_flag a).

(** Write the values [vs] at the indices [i, i+1, ...] with the setter
    of width [w]. *)
Fixpoint set_all (w : Z) (data : list byte) (i : Z) (vs : list Z) : list byte :=
  match vs with
  | [] => data
  | v :: rest => set_all w (set_direct w data i v) (i + 1) rest
  end.

(** The indices [i, i+1, ..., i+n-1]. *)
Fixpoint zrange (i : Z) (n : nat) : list Z :=
  match n with
  | O => []
  | S n' => i :: zrange (i + 1) n'
  end.

(** Modelled from the spec: [Array::do_ensure_minimum_width] (array.cpp
    is missing): it "re-encodes the whole array at the smallest width
    that fits both the existing bounds and the new value".  No supported
    width can fail to exist for a 64-bit value; [None] stands for that
    impossible case. *)
Definition do_ensure_minimum_width (value : Z) (a : Array) : option Array :=
  match List.find (fun w => fits w (m_lbound a) && fits w (m_ubound a) && fits w value)
             supported_widths with
  | Some w =>
      match lbound_for_width w, ubound_for_width w, m_data a with
      | Some lb, Some ub, Some blk =>
          let elems := map (get a) (zrange 0 (Z.to_nat (m_size a))) in
          let fresh := repeat Byte.x00 (Z.to_nat (payload_bytes (m_size a) w)) in
          let hdr := header blk in
          let hdr' := mkNodeHeader (hdr_is_inner_bptree_node hdr) (hdr_has_refs hdr)
                                   (hdr_context_flag hdr) w (hdr_size hdr) in
          Some (set_block a w lb ub (mkMemBlock hdr' (set_all w fresh 0 elems)))
      | _, _, _ => None
      end
  | None => None
  end.

(** An attached accessor whose cache agrees with its buffer, as
    [init_from_mem] leaves it: the width is a supported one, the cached
    bounds are those of the width, and the payload holds [m_size]
    elements. *)
Definition coherent (a : Array) : Prop :=
  is_attached a = true /\
  supported_width (m_width a) /\
  lbound_for_width (m_width a) = Some (m_lbound a) /\
  ubound_for_width (m_width a) = Some (m_ubound a) /\
  0 <= m_size a /\
  m_size a * m_width a <= 8 * Z.of_nat (length (data_of a)).

(** [void Array::ensure_minimum_width(int_fast64_t value)] *)
Definition ensure_minimum_width (value : Z) (a : Array) : option Array :=
  if (value >=? m_lbound a) && (value <=? m_ubound a) then Some a
  else do_ensure_minimum_width value a.

Section Mutation.
Context {A : Type} `{Allocator A}.

(** Modelled from the spec: copy-on-write.  "Any mutating operation
    first checks whether the buffer is part of a read-only snapshot;
    if so, it allocates a fresh writable copy, updates the accessor's
    reference ... before proceeding with the mutation." *)
Definition copy_on_write (s : Array * A) : option (Array * A) :=
  let (a, al) := s in
  if is_read_only al (m_ref a) then
    match alloc_ (8 + payload_bytes (m_size a) (m_width a)) al with
    | Some (r, al') =>
        Some (mkArray r (m_data a) (m_size a) (m_width a) (m_lbound a) (m_ubound a)
                      (m_is_inner_bptree_node a) (m_has_refs a) (m_context_flag a), al')
    | None => None
    end
  else Some s.

(** Modelled from the spec: [void Array::set(size_t ndx, int64_t value)].
    Element access on an unattached accessor and an out-of-range index
    are precondition violations ([None]); a read-only buffer is copied
    first; a value that does not fit forces a width upgrade before the
    write; then the setter of the current width stores the value. *)
Definition set (ndx value : Z) (s : Array * A) : option (Array * A) :=
  if negb (is_attached (fst s)) then None
  else if negb ((0 <=? ndx) && (ndx <? m_size (fst s))) then None
  else
    match copy_on_write s with
    | Some (a1, al1) =>
        match ensure_minimum_width value a1 with
        | Some a2 =>
            match m_data a2 with
            | Some blk =>
                let data' := set_direct (m_width a2) (payload blk) ndx value in
                Some (set_block a2 (m_width a2) (m_lbound a2) (m_ubound a2)
                                (mkMemBlock (header blk) data'), al1)
            | None => None
            end
        | None => None
        end
    | None => None
    end.

End Mutation.

(** ** Query conditions and the aggregate sink *)

(** [Equal], [NotEqual], [Greater], [Less] of realm/query_conditions.hpp. *)
Inductive Cond := Equal | NotEqual | Greater | Less.

(** [cond::operator()(v1, v2)] *)
Definition cond_holds (c : Cond) (v1 v2 : Z) : bool :=
  match c with
  | Equal => v1 =? v2
  | NotEqual => negb (v1 =? v2)
  | Greater => v1 >? v2
  | Less => v1 <? v2
  end.

(** Modelled from the spec: [cond::can_match] (query_conditions.hpp is
    missing) tells "whether the predicate can match any value
    representable at the current bounds". *)
Definition can_match (c : Cond) (v lbound ubound : Z) : bool :=
  match c with
  | Equal => (v >=? lbound) && (v <=? ubound)
  | NotEqual => negb ((v =? lbound) && (v =? ubound))
  | Greater => ubound >? v
  | Less => lbound <? v
  end.

(** Modelled from the spec: [cond::will_match] tells "whether it must
    match every value" representable at the current bounds. *)
Definition will_match (c : Cond) (v lbound ubound : Z) : bool :=
  match c with
  | Equal => (v =? lbound) && (v =? ubound)
  | NotEqual => (v >? ubound) || (v <? lbound)
  | Greater => lbound >? v
  | Less => ubound <? v
  end.

(** The aggregate sink ([class QueryStateBase]) as an interface over its
    state: [match(index, value)] tells whether the scan goes on,
    [match_pattern] is the coarse per-chunk callback. *)
Class QueryStateBase (St : Type) := {
  match_ : Z -> Z -> St -> bool * St;
  match_pattern : Z -> Z -> St -> bool * St;
  match_count : St -> Z;
  limit : St -> Z
}.

(** [class QueryStateFindFirst : public QueryStateBase] *)
Record QueryStateFindFirst := mkFindFirst {
  m_state : Z;
  m_match_count : Z;
  m_limit : Z
}.

(** [QueryStateFindFirst() : QueryStateBase(1)], [m_state = not_found]. *)
Definition QueryStateFindFirst_init : QueryStateFindFirst :=
  mkFindFirst not_found 0 1.

(** [bool QueryStateFindFirst::match(size_t index, Mixed) noexcept] *)
Definition QueryStateFindFirst_match (index : Z) (value : Z)
           (s : QueryStateFindFirst) : bool * QueryStateFindFirst :=
  (false, mkFindFirst index (to_u64 (m_match_count s + 1)) (m_limit s)).

#[export] Instance FindFirst_state : QueryStateBase QueryStateFindFirst := {
  match_ := QueryStateFindFirst_match;
  match_pattern := fun _ _ s => (false, s);
  match_count := m_match_count;
  limit := m_limit
}.

(** ** Bit tricks on 64-bit chunks *)

(** [template <size_t width> int64_t Array::lower_bits()] *)
Definition lower_bits (width : Z) : Z :=
  if width =? 1 then to_i64 0xFFFFFFFFFFFFFFFF
  else if width =? 2 then to_i64 0x5555555555555555
  else if width =? 4 then to_i64 0x1111111111111111
  else if width =? 8 then to_i64 0x0101010101010101
  else if width =? 16 then to_i64 0x0001000100010001
  else if width =? 32 then to_i64 0x0000000100000001
  else if width =? 64 then to_i64 0x0000000000000001
  else -1.

(** [(width == 64 ? ~0ULL : ((1ULL << (width == 64 ? 0 : width)) - 1ULL))] *)
Definition width_mask (width : Z) : Z :=
  if width =? 64 then Z.ones 64
  else to_u64 (to_u64 (Z.shiftl 1 (if width =? 64 then 0 else width)) - 1).

(** [template <size_t width> bool Array::test_zero(uint64_t value)] *)
Definition test_zero (width : Z) (value : Z) : bool :=
  let lower := to_u64 (lower_bits width) in
  let upper := to_u64 (Z.shiftl (to_u64 (lower_bits width) * 1)
                                (if width =? 0 then 0 else width - 1)) in
  let hasZeroByte :=
    Z.land (Z.land (to_u64 (value - lower)) (to_u64 (Z.lnot value))) upper in
  negb (hasZeroByte =? 0).

(** [template <size_t width, bool zero> uint64_t Array::cascade(uint64_t a)] *)
Definition cascade (width : Z) (zero : bool) (a : Z) : Z :=
  let all1 := Z.ones 64 in
  let m1 := 0x5555555555555555 in
  let fin (a m : Z) := let a := Z.land a m in if zero then Z.lxor a m else a in
  let step (a k c : Z) := Z.lor a (Z.land (Z.shiftr a k) c) in
  if width =? 1 then (if zero then to_u64 (Z.lnot a) else a)
  else if width =? 2 then
    let c1 := all1 / 0x3 * 0x1 in
    fin (step a 1 c1) m1
  else if width =? 4 then
    let m := all1 / 0xF * 0x1 in
    let c1 := all1 / 0xF * 0x7 in
    let c2 := all1 / 0xF * 0x3 in
    fin (step (step a 1 c1) 2 c2) m
  else if width =? 8 then
    let m := all1 / 0xFF * 0x1 in
    let c1 := all1 / 0xFF * 0x7F in
    let c2 := all1 / 0xFF * 0x3F in
    let c3 := all1 / 0xFF * 0x0F in
    fin (step (step (step a 1 c1) 2 c2) 4 c3) m
  else if width =? 16 then
    let m := all1 / 0xFFFF * 0x1 in
    let c1 := all1 / 0xFFFF * 0x7FFF in
    let c2 := all1 / 0xFFFF * 0x3FFF in
    let c3 := all1 / 0xFFFF * 0x0FFF in
    let c4 := all1 / 0xFFFF * 0x00FF in
    fin (step (step (step (step a 1 c1) 2 c2) 4 c3) 8 c4) m
  else if width =? 32 then
    let m := all1 / 0xFFFFFFFF * 0x1 in
    let c1 := all1 / 0xFFFFFFFF * 0x7FFFFFFF in
    let c2 := all1 / 0xFFFFFFFF * 0x3FFFFFFF in
    let c3 := all1 / 0xFFFFFFFF * 0x0FFFFFFF in
    let c4 := all1 / 0xFFFFFFFF * 0x00FFFFFF in
    let c5 := all1 / 0xFFFFFFFF * 0x0000FFFF in
    fin (step (step (step (step (step a 1 c1) 2 c2) 4 c3) 8 c4) 16 c5) m
  else if width =? 64 then
    (if Bool.eqb (a =? 0) zero then 1 else 0)
  else Z.ones 64.

(** [template <bool gt, size_t width> int64_t Array::find_gtlt_magic(int64_t v)] *)
Definition find_gtlt_magic (gt : bool) (width : Z) (v : Z) : Z :=
  let mask1 := width_mask width in
  let mask2 := Z.shiftr mask1 1 in
  let magic :=
    if gt then to_u64 (Z.ones 64 / no0 mask1 * to_u64 (mask2 - v))
    else to_u64 (Z.ones 64 / no0 mask1 * to_u64 v) in
  to_i64 magic.

(** Modelled from the spec: [first_set_bit64] (realm/utilities.hpp is
    missing) gives the position of "the lowest set bit" of a 64-bit
    word. *)
Fixpoint first_set_from (n : nat) (i : Z) (v : Z) : Z :=
  match n with
  | O => i
  | S n' => if Z.testbit v i then i else first_set_from n' (i + 1) v
  end.

Definition first_set_bit64 (v : Z) : Z := first_set_from 64 0 (to_u64 v).

(** Modelled from the spec: [round_up(p, align)] (realm/utilities.hpp is
    missing) is the next multiple of [align] at or after [p]. *)
Definition round_up (p align : Z) : Z :=
  let r := if p mod align =? 0 then 0 else align - p mod align in
  p + r.

(** ** The conditional scan engine *)

Section Scan.
Context {St : Type} `{QueryStateBase St}.

(** The optional per-match callback ([Callback]); [None] is
    [std::nullptr_t].  It runs in the same world as the sink. *)
Variable callback : option (Z -> St -> bool * St).

(** A right shift of a [uint64_t] by 64 or more is undefined in C++;
    [shr_oversize x n] is whatever value the machine produces then. *)
Variable shr_oversize : Z -> Z -> Z.

Definition shr64 (x n : Z) : Z :=
  if n <? 64 then Z.shiftr x n else shr_oversize x n.

(** Computations that thread the sink's state and may abort (a failed
    [REALM_ASSERT], or a loop of the model running out of fuel). *)
Definition M (T : Type) : Type := St -> option (T * St).

Definition ret {T : Type} (x : T) : M T := fun s => Some (x, s).

Definition fail {T : Type} : M T := fun _ => None.

Definition bind {T U : Type} (m : M T) (k : T -> M U) : M U :=
  fun s => match m s with
           | Some (x, s') => k x s'
           | None => None
           end.

Notation "x <- m ;; k" := (bind m (fun x => k))
  (at level 61, m at next level, right associativity).

(** [Array::find_action]: with a callback, [callback(index)]; without
    one, [state->match(index, value)]. *)
Definition find_action (index value : Z) : M bool :=
  fun s => match callback with
           | Some cb => Some (cb index s)
           | None => Some (match_ index value s)
           end.

(** [bool Array::find_action_pattern(size_t index, uint64_t pattern,
    QueryStateBase* st) const] *)
Definition find_action_pattern (index pattern : Z) (st : St) : bool := false.

Definition pattern_consumed (index pattern : Z) : M bool :=
  fun s => Some (find_action_pattern index pattern s, s).

(** The element loops of the engine,
    [for (; start < end; ++start) if (test(get<w>(start)))
       if (!find_action(start + baseindex, get<w>(start), ...)) return false;],
    run for [n] iterations from [start]; the result tells whether the
    scan goes on. *)
Fixpoint scan_elems (test : Z -> bool) (w : Z) (a : Array) (baseindex : Z)
         (n : nat) (start : Z) : M bool :=
  match n with
  | O => ret true
  | S n' =>
      c <- (if test (get_w w a start)
            then find_action (start + baseindex) (get_w w a start)
            else ret true) ;;
      if c then scan_elems test w a baseindex n' (start + 1) else ret false
  end.

(** [Array::find_all_will_match<bitwidth, Callback>] *)
Definition find_all_will_match (bitwidth : Z) (a : Array)
           (start2 end_ baseindex : Z) : M bool :=
  fun s =>
    let end2 :=
      match callback with
      | Some _ => end_
      | None =>
          let process := to_u64 (limit s - match_count s) in
          if to_u64 (end_ - start2) >? process then to_u64 (start2 + process) else end_
      end in
    scan_elems (fun _ => true) bitwidth a baseindex (Z.to_nat (end2 - start2)) start2 s.

(** The scanning loop at the end of [Array::find_zero]; the
    [REALM_ASSERT_3(start, <=, 8 * sizeof(v))] in its body aborts it
    after 65 rounds at the latest. *)
Fixpoint find_zero_loop (fuel : nat) (eq : bool) (width mask v start : Z) : option Z :=
  if Bool.eqb eq (negb (Z.land (shr64 v (width * start)) mask =? 0)) then
    match fuel with
    | O => None
    | S fuel' =>
        if start <=? 64 then find_zero_loop fuel' eq width mask v (start + 1)
        else None
    end
  else Some start.

(** [template <bool eq, size_t width> size_t Array::find_zero(uint64_t v)] *)
Definition find_zero (eq : bool) (width : Z) (v : Z) : option Z :=
  let start := 0 in
  let mask := width_mask width in
  if Bool.eqb eq (Z.land (shr64 v (width * start)) mask =? 0) then Some 0
  else
    let start :=
      if width <=? 8 then
        let hasZeroByte := test_zero width (Z.lor v 0xffffffff00000000) in
        if (if eq then negb hasZeroByte else Z.land v 0x00000000ffffffff =? 0) then
          let start := start + 64 / no0 width / 2 in
          if width <=? 4 then
            let hasZeroByte := test_zero width (Z.lor v 0xffff000000000000) in
            if (if eq then negb hasZeroByte else Z.land v 0x0000ffffffffffff =? 0)
            then start + 64 / no0 width / 4
            else start
          else start
        else
          if width <=? 4 then
            let hasZeroByte := test_zero width (Z.lor v 0xffffffffffff0000) in
            if (if eq then negb hasZeroByte else Z.land v 0x000000000000ffff =? 0)
            then start + 64 / no0 width / 4
            else start
          else start
      else start in
    find_zero_loop 66 eq width mask v start.

(** The [while (m)] loop of [Array::find_gtlt_fast]. *)
Fixpoint find_gtlt_fast_loop (fuel : nat) (width mask1 chunk baseindex m p : Z) : M bool :=
  if m =? 0 then ret true
  else
    match fuel with
    | O => fail
    | S fuel' =>
        consumed <- pattern_consumed baseindex (shr64 m (no0 width - 1)) ;;
        if consumed then ret true
        else
          let t := first_set_bit64 m / no0 width in
          let p := p + t in
          c <- find_action (p + baseindex) (Z.land (shr64 chunk (p * width)) mask1) ;;
          if negb c then ret false
          else
            let m := if (t + 1) * width =? 64 then 0 else shr64 m ((t + 1) * width) in
            find_gtlt_fast_loop fuel' width mask1 chunk baseindex m (p + 1)
    end.

(** [template <bool gt, size_t width, class Callback>
    bool Array::find_gtlt_fast(uint64_t chunk, uint64_t magic, ...)] *)
Definition find_gtlt_fast (gt : bool) (width : Z) (chunk magic baseindex : Z) : M bool :=
  let mask1 := width_mask width in
  let mask2 := Z.shiftr mask1 1 in
  let high := to_u64 (Z.ones 64 / no0 mask1 * to_u64 (mask2 + 1)) in
  let m :=
    if gt then Z.land (Z.lor (to_u64 (chunk + magic)) chunk) high
    else Z.land (Z.land (to_u64 (chunk - magic)) (to_u64 (Z.lnot chunk))) high in
  find_gtlt_fast_loop 65 width mask1 chunk baseindex m 0.

(** One of the unrolled lane loops of [Array::find_gtlt]: [n] lanes of
    [width] bits, extracted with [lanemask] and converted with [conv]. *)
Fixpoint find_gtlt_lanes (gt : bool) (v : Z) (width lanemask : Z) (conv : Z -> Z)
         (n : nat) (i chunk baseindex : Z) : M bool :=
  match n with
  | O => ret true
  | S n' =>
      let v2 := conv (Z.land chunk lanemask) in
      c <- (if (if gt then v2 >? v else v2 <? v)
            then find_action (i + baseindex) v2
            else ret true) ;;
      if negb c then ret false
      else find_gtlt_lanes gt v width lanemask conv n' (i + 1) (Z.shiftr chunk width) baseindex
  end.

(** [template <bool gt, size_t width, class Callback>
    bool Array::find_gtlt(int64_t v, uint64_t chunk, ...)] *)
Definition find_gtlt (gt : bool) (width : Z) (v chunk baseindex : Z) : M bool :=
  if width =? 1 then find_gtlt_lanes gt v 1 0x1 (fun x => x) 64 0 chunk baseindex
  else if width =? 2 then find_gtlt_lanes gt v 2 0x3 (fun x => x) 32 0 chunk baseindex
  else if width =? 4 then find_gtlt_lanes gt v 4 0xf (fun x => x) 16 0 chunk baseindex
  else if width =? 8 then find_gtlt_lanes gt v 8 0xff (sext 8) 8 0 chunk baseindex
  else if width =? 16 then find_gtlt_lanes gt v 16 0xffff (sext 16) 4 0 chunk baseindex
  else if width =? 32 then find_gtlt_lanes gt v 32 0xffffffff (sext 32) 2 0 chunk baseindex
  else if width =? 64 then
    let v2 := to_i64 chunk in
    if (if gt then v2 >? v else v2 <? v) then find_action baseindex v2 else ret true
  else ret true.

(** A loop [while (p < e) { body(p); ++p; }] over 64-bit chunks; [p]
    and [e] are byte offsets from [m_data].  The result carries the
    final [p]. *)
Fixpoint chunk_loop (fuel : nat) (body : Z -> M bool) (p e : Z) : M (bool * Z) :=
  if p <? e then
    match fuel with
    | O => fail
    | S fuel' =>
        c <- body p ;;
        if negb c then ret (false, p) else chunk_loop fuel' body (p + 8) e
    end
  else ret (true, p).

(** The inner [while (eq ? test_zero<width>(v2) : v2)] loop of
    [Array::compare_equality]; [true] means the chunk is done. *)
Fixpoint equality_chunk (fuel : nat) (eq : bool) (width : Z) (arr : Array)
         (start baseindex v2 a : Z) : M bool :=
  if (if eq then test_zero width v2 else negb (v2 =? 0)) then
    match fuel with
    | O => fail
    | S fuel' =>
        consumed <- pattern_consumed (start + baseindex) (cascade width eq v2) ;;
        if consumed then ret true
        else
          match find_zero eq width v2 with
          | None => fail
          | Some t =>
              let a := a + t in
              if a >=? 64 / no0 width then ret true
              else
                c <- find_action (a + start + baseindex) (get_w width arr (start + a)) ;;
                if negb c then ret false
                else equality_chunk fuel' eq width arr start baseindex
                                    (shr64 v2 ((t + 1) * width)) (a + 1)
          end
    end
  else ret true.

(** [template <bool eq, size_t width, class Callback>
    bool Array::compare_equality(int64_t value, size_t start, size_t end, ...)] *)
Definition compare_equality (eq : bool) (width : Z) (arr : Array)
           (value start end_ baseindex : Z) : M bool :=
  let test := fun x => if eq then x =? value else negb (x =? value) in
  let ee := round_up start (64 / no0 width) in
  let ee := if ee >? end_ then end_ else ee in
  c <- scan_elems test width arr baseindex (Z.to_nat (ee - start)) start ;;
  if negb c then ret false
  else
    let start := Z.max start ee in
    if start >=? end_ then ret true
    else
      r <- (if negb (width =? 32) && negb (width =? 64) then
              let p := start * width / 8 in
              let e := end_ * width / 8 - 8 in
              let mask := width_mask width in
              let valuemask := to_u64 (Z.ones 64 / no0 mask * Z.land (to_u64 value) mask) in
              r <- chunk_loop (Z.to_nat (e - p))
                     (fun p =>
                        let chunk := load_le (data_of arr) p 8 in
                        let v2 := Z.lxor chunk valuemask in
                        let start := p / 8 * 8 * 8 / no0 width in
                        equality_chunk 66 eq width arr start baseindex v2 0)
                     p e ;;
              ret (fst r, snd r / 8 * 8 * 8 / no0 width)
            else ret (true, start)) ;;
      if negb (fst r) then ret false
      else
        let start := snd r in
        scan_elems test width arr baseindex (Z.to_nat (end_ - start)) start.

(** [template <bool gt, size_t bitwidth, class Callback>
    bool Array::compare_relation(int64_t value, size_t start, size_t end, ...)].
    The [REALM_ASSERT] on the range is active in every build. *)
Definition compare_relation (gt : bool) (bitwidth : Z) (arr : Array)
           (value start end_ baseindex : Z) : M bool :=
  if negb ((start <=? m_size arr) && ((end_ <=? m_size arr) || (end_ =? npos))
           && (start <=? end_)) then fail
  else
  let test := fun x => if gt then x >? value else x <? value in
  let mask := width_mask bitwidth in
  let ee := round_up start (64 / no0 bitwidth) in
  let ee := if ee >? end_ then end_ else ee in
  c <- scan_elems test bitwidth arr baseindex (Z.to_nat (ee - start)) start ;;
  if negb c then ret false
  else
    let start := Z.max start ee in
    if start >=? end_ then ret true
    else
      let p := start * bitwidth / 8 in
      let e := end_ * bitwidth / 8 - 8 in
      r <- (if (bitwidth =? 1) || (bitwidth =? 2) || (bitwidth =? 4)
               || (bitwidth =? 8) || (bitwidth =? 16) then
              let magic := to_u64 (find_gtlt_magic gt bitwidth value) in
              let base := fun p => p / 8 * 8 * 8 / no0 bitwidth + baseindex in
              r <- (if negb (value =? to_i64 (Z.land magic mask)) && (value >=? 0)
                       && (bitwidth >=? 2)
                       && (value <=? to_i64 (Z.shiftr mask 1 - (if gt then 1 else 0))) then
                      chunk_loop (Z.to_nat (e - p))
                        (fun p =>
                           let upper := to_u64 (Z.shiftl (to_u64 (lower_bits bitwidth))
                                                         (no0 bitwidth - 1)) in
                           let v := to_i64 (load_le (data_of arr) p 8) in
                           let upper := Z.land upper (to_u64 v) in
                           if upper =? 0
                           then find_gtlt_fast gt bitwidth (to_u64 v) magic (base p)
                           else find_gtlt gt bitwidth value (to_u64 v) (base p))
                        p e
                    else
                      chunk_loop (Z.to_nat (e - p))
                        (fun p =>
                           let v := to_i64 (load_le (data_of arr) p 8) in
                           find_gtlt gt bitwidth value (to_u64 v) (base p))
                        p e) ;;
              ret (fst r, snd r / 8 * 8 * 8 / no0 bitwidth)
            else ret (true, start)) ;;
      if negb (fst r) then ret false
      else
        let start := snd r in
        scan_elems test bitwidth arr baseindex (Z.to_nat (end_ - start)) start.

(** [template <class cond, size_t bitwidth, class Callback> bool Array::compare] *)
Definition compare (c : Cond) (bitwidth : Z) (arr : Array)
           (value start end_ baseindex : Z) : M bool :=
  match c with
  | Equal => compare_equality true bitwidth arr value start end_ baseindex
  | NotEqual => compare_equality false bitwidth arr value start end_ baseindex
  | Greater => compare_relation true bitwidth arr value start end_ baseindex
  | Less => compare_relation false bitwidth arr value start end_ baseindex
  end.

(** [template <class cond, size_t bitwidth, class Callback>
    bool Array::find_optimized(int64_t value, size_t start, size_t end,
    size_t baseindex, QueryStateBase* state, Callback callback) const],
    in the build without [REALM_COMPILER_SSE].  The bounds are
    [constexpr]: a width outside the supported set does not
    instantiate ([None]). *)
Definition find_optimized (c : Cond) (bitwidth : Z) (arr : Array)
           (value start end_ baseindex : Z) : M bool :=
  let start2 := start in
  let end_ := if end_ =? npos then m_size arr else end_ in
  if negb ((m_size arr >? start2) && (start2 <? end_)) then ret true
  else
    match lbound_for_width bitwidth, ubound_for_width bitwidth with
    | Some lbound, Some ubound =>
        if negb (can_match c value lbound ubound) then ret true
        else if will_match c value lbound ubound then
          find_all_will_match bitwidth arr start2 end_ baseindex
        else if m_width arr =? 0 then fail
        else compare c bitwidth arr value start2 end_ baseindex
    | _, _ => fail
    end.

(** [template <class cond, class Callback> bool Array::find]: the
    [REALM_TEMPEX3] switch on [m_width]. *)
Definition find (c : Cond) (arr : Array) (value start end_ baseindex : Z) : M bool :=
  if existsb (Z.eqb (m_width arr)) supported_widths
  then find_optimized c (m_width arr) arr value start end_ baseindex
  else fail.

End Scan.

(** [template <class cond, size_t bitwidth> bool Array::find_vtable]:
    [find_optimized] without a callback. *)
Definition find_vtable {St : Type} `{QueryStateBase St} (shr_oversize : Z -> Z -> Z)
           (c : Cond) (bitwidth : Z) (arr : Array) (value start end_ baseindex : Z)
  : St -> option (bool * St) :=
  find_optimized None shr_oversize c bitwidth arr value start end_ baseindex.

(** [template <class cond> size_t Array::find_first(int64_t value,
    size_t start, size_t end) const].  The finder is the entry of the
    table of the current width, [find_vtable<cond, m_width>]. *)
Definition find_first (shr_oversize : Z -> Z -> Z) (c : Cond) (arr : Array)
           (value start end_ : Z) : option Z :=
  if negb ((start <=? m_size arr) && ((end_ <=? m_size arr) || (end_ =? npos))
           && (start <=? end_)) then None
  else
    match find_vtable shr_oversize c (m_width arr) arr value start end_ 0
                      QueryStateFindFirst_init with
    | Some (_, state) => Some (m_state state)
    | None => None
    end.

(** ** The reference scan

    The naive evaluation the engine is compared with: visit the indices
    of the range in order, test each element, report each match, stop
    when the report says so. *)
Fixpoint naive_scan {St : Type} (report : Z -> Z -> St -> bool * St)
         (c : Cond) (value : Z) (elem : Z -> Z) (baseindex : Z)
         (indices : list Z) (s : St) : bool * St :=
  match indices with
  | [] => (true, s)
  | i :: rest =>
      if cond_holds c (elem i) value then
        let (go_on, s') := report (i + baseindex) (elem i) s in
        if go_on then naive_scan report c value elem baseindex rest s'
        else (false, s')
      else naive_scan report c value elem baseindex rest s
  end.

(** What a match is reported to: the callback when there is one, the
    sink otherwise. *)
Definition report_to {St : Type} `{QueryStateBase St}
           (callback : option (Z -> St -> bool * St)) : Z -> Z -> St -> bool * St :=
  fun index value s =>
    match callback with
    | Some cb => cb index s
    | None => match_ index value s
    end.

(** The indices [start, ..., end - 1]. *)
Definition index_range (start end_ : Z) : list Z :=
  zrange start (Z.to_nat (end_ - start)).

(** ** Notions used by the proofs *)

(** Deliver a list of (index, value) matches in order, until the
    receiver says stop. *)
Fixpoint run_matches {St : Type} (report : Z -> Z -> St -> bool * St)
         (ms : list (Z * Z)) (s : St) : bool * St :=
  match ms with
  | [] => (true, s)
  | (i, v) :: rest =>
      let (go_on, s') := report i v s in
      if go_on then run_matches report rest s' else (false, s')
  end.

(** The matches among the given indices: the elements that pass [test],
    each with its index shifted by [baseindex]. *)
Definition matches (test : Z -> bool) (elem : Z -> Z) (baseindex : Z)
           (indices : list Z) : list (Z * Z) :=
  map (fun i => (i + baseindex, elem i)) (filter (fun i => test (elem i)) indices).

(** A sink that still accepts matches: its count is below its limit
    (both are [size_t]). *)
Definition sink_ready {St : Type} `{QueryStateBase St} (s : St) : Prop :=
  0 <= match_count s < limit s /\ limit s <= npos.

(** What the aggregate sinks of the engine guarantee: on a sink that
    still accepts matches, [match] counts the match, keeps the limit,
    and asks for more only while the count stays below the limit. *)
Definition sink_contract (St : Type) `{QueryStateBase St} : Prop :=
  forall i v s,
    sink_ready s ->
    limit (snd (match_ i v s)) = limit s /\
    match_count (snd (match_ i v s)) = match_count s + 1 /\
    (fst (match_ i v s) = true -> match_count (snd (match_ i v s)) < limit s).

(** Lane [k] of a word cut into lanes of [w] bits. *)
Definition lane (w v k : Z) : Z := Z.land (Z.shiftr v (w * k)) (Z.ones w).

(** The value a getter makes of the [w] bits of an element: as they are
    below 8 bits, sign-extended from 8 bits on. *)
Definition decode (w x : Z) : Z := if w <? 8 then x else sext w x.

(** The word whose [n] lanes of [w] bits all hold [c]. *)
Fixpoint rep (w : Z) (n : nat) (c : Z) : Z :=
  match n with
  | O => 0
  | S n' => c + 2 ^ w * rep w n' c
  end.

(** The zero-lane probe of [test_zero] on a word of [n] lanes of [w]
    bits: [(v - lower) & ~v & upper]. *)
Definition zero_probe (w : Z) (n : nat) (v : Z) : Z :=
  Z.land (Z.land ((v - rep w n 1) mod (2 ^ w) ^ Z.of_nat n)
                 (Z.lnot v mod (2 ^ w) ^ Z.of_nat n))
         (rep w n (2 ^ (w - 1))).

(** The widths that go through the chunk loops, and the number of lanes
    of a 64-bit chunk. *)
Definition lane_width (w : Z) : Prop :=
  w = 1 \/ w = 2 \/ w = 4 \/ w = 8 \/ w = 16 \/ w = 32 \/ w = 64.

Definition lanes_of (w : Z) : nat := Z.to_nat (64 / w).

(** Whether a lane of the equality scan marks a match: a zero lane when
    scanning for equal elements, a non-zero lane otherwise. *)
Definition lane_hit (eq : bool) (x : Z) : bool :=
  if eq then x =? 0 else negb (x =? 0).

(** ** Sample data

    A sink that records every report, unlimited but for the range of
    [size_t]. *)
Definition Recorder : Type := list (Z * Z).

#[export] Instance Recorder_state : QueryStateBase Recorder := {
  match_ := fun index value s => (Z.of_nat (length s) + 1 <? npos, s ++ [(index, value)]);
  match_pattern := fun _ _ s => (false, s);
  match_count := fun s => Z.of_nat (length s);
  limit := fun _ => npos
}.

(** What the arm64 and x86-64 shift instructions make of a count of 64
    or more: they use the count modulo 64. *)
Definition shr_hardware (x n : Z) : Z := to_u64 (Z.shiftr x (Z.land n 63)).

(** An allocator for the examples: the references below the baseline
    belong to the read-only snapshot, allocation hands out the next free
    reference, and [free_] is logged. *)
Record SampleAlloc := mkSampleAlloc {
  baseline : Z;
  next_ref : Z;
  freed : list Z
}.

#[export] Instance SampleAlloc_allocator : Allocator SampleAlloc := {
  is_read_only := fun al ref => ref <? baseline al;
  alloc_ := fun size al =>
              Some (next_ref al, mkSampleAlloc (baseline al) (next_ref al + size) (freed al));
  free_ := fun ref al => mkSampleAlloc (baseline al) (next_ref al) (ref :: freed al)
}.

(** An array of eight 16-bit elements, written with the setter. *)
Definition sample_values : list Z := [3; -2; 7; 7; 100; -5; 7; 0].

Definition sample_array : Array :=
  mkArray 4096
          (Some (mkMemBlock (mkNodeHeader false false false 16 8)
                            (set_all 16 (repeat Byte.x00 16) 0 sample_values)))
          8 16 (- 0x8000) 0x7FFF false false false.

(** A writer for the examples: the stream is the list of bytes written
    so far, a reference is the position in the stream. *)
Definition sample_write_shallow (a : Array) (out : list byte) : Z * list byte :=
  (Z.of_nat (length out), out ++ data_of a).

Definition sample_write_deep (a : Array) (only_if_modified : bool) (out : list byte)
  : Z * list byte :=
  sample_write_shallow a out.

(** * More of the header *)

(** ** Comparing two leaves

    [Array::compare_leafs] and its two helpers, in the build without
    [REALM_COMPILER_SSE]. *)

(** The naive evaluation [compare_leafs] is compared with: visit the
    indices in order, compare the two elements at each index, report
    each match with the element of the first array, stop when the report
    says so. *)
Fixpoint naive_compare_leafs {St : Type} (report : Z -> Z -> St -> bool * St)
         (c : Cond) (elem felem : Z -> Z) (baseindex : Z)
         (indices : list Z) (s : St) : bool * St :=
  match indices with
  | [] => (true, s)
  | i :: rest =>
      if cond_holds c (elem i) (felem i) then
        let (go_on, s') := report (i + baseindex) (elem i) s in
        if go_on then naive_compare_leafs report c elem felem baseindex rest s'
        else (false, s')
      else naive_compare_leafs report c elem felem baseindex rest s
  end.

(** The matches of the comparison among the given indices: the indices
    at which the two elements stand in the relation, each shifted by
    [baseindex] and paired with the element of the first array. *)
Definition leaf_matches (c : Cond) (elem felem : Z -> Z) (baseindex : Z)
           (indices : list Z) : list (Z * Z) :=
  map (fun i => (i + baseindex, elem i))
      (filter (fun i => cond_holds c (elem i) (felem i)) indices).

Section CompareLeafs.
Context {St : Type} `{QueryStateBase St}.
Variable callback : option (Z -> St -> bool * St).

Local Notation "x <- m ;; k" := (bind m (fun x => k))
  (at level 61, m at next level, right associativity).

(** [if (c(v, fv)) if (!find_action(index, v, state, callback))
    return false;]: the result tells whether the comparison goes on. *)
Definition compare_leafs_elem (c : Cond) (v fv index : Z) : M bool :=
  if cond_holds c v fv then find_action callback index v else ret true.

(** [while (start < end) { if (!find_action(start + baseindex, 0, ...))
    return false; start++; }], run for [n] iterations. *)
Fixpoint compare_leafs_zeros (baseindex : Z) (n : nat) (start : Z) : M bool :=
  match n with
  | O => ret true
  | S n' =>
      r <- find_action callback (start + baseindex) 0 ;;
      if negb r then ret false
      else compare_leafs_zeros baseindex n' (start + 1)
  end.

(** The closing loop of [compare_leafs_4],
    [while (start < end) { v = get_universal<width>(m_data, start);
       fv = get_universal<foreign_width>(foreign_m_data, start); ...; start++; }],
    run for [n] iterations. *)
Fixpoint compare_leafs_loop (c : Cond) (width foreign_width : Z) (a foreign : Array)
         (baseindex : Z) (n : nat) (start : Z) : M bool :=
  match n with
  | O => ret true
  | S n' =>
      r <- compare_leafs_elem c (get_universal width (data_of a) start)
                              (get_universal foreign_width (data_of foreign) start)
                              (start + baseindex) ;;
      if negb r then ret false
      else compare_leafs_loop c width foreign_width a foreign baseindex n' (start + 1)
  end.

(** [template <class cond, size_t width, class Callback, size_t foreign_width>
    bool Array::compare_leafs_4(const Array* foreign, size_t start, size_t end,
    size_t baseindex, QueryStateBase* state, Callback callback) const].
    After the loop over two arrays of width 0 the function falls
    through to the closing loop, with [start] where that loop left
    it. *)
Definition compare_leafs_4 (c : Cond) (width foreign_width : Z) (a foreign : Array)
           (start end_ baseindex : Z) : M bool :=
  if (width =? 0) && (foreign_width =? 0) then
    if cond_holds c 0 0 then
      r <- compare_leafs_zeros baseindex (Z.to_nat (end_ - start)) start ;;
      if negb r then ret false
      else
        let start := Z.max start end_ in
        compare_leafs_loop c width foreign_width a foreign baseindex
                           (Z.to_nat (end_ - start)) start
    else ret true
  else
    compare_leafs_loop c width foreign_width a foreign baseindex
                       (Z.to_nat (end_ - start)) start.

(** [template <class cond, size_t width, class Callback>
    bool Array::compare_leafs(const Array* foreign, ...)]: the
    [REALM_TEMPEX4] switch on the width of the foreign array. *)
Definition compare_leafs_width (c : Cond) (width : Z) (a foreign : Array)
           (start end_ baseindex : Z) : M bool :=
  let fw := m_width foreign in
  if existsb (Z.eqb fw) supported_widths
  then compare_leafs_4 c width fw a foreign start end_ baseindex
  else fail.

(** [template <class cond, class Callback>
    bool Array::compare_leafs(const Array* foreign, size_t start, size_t end,
    size_t baseindex, QueryStateBase* state, Callback callback) const].
    [REALM_ASSERT_3(start, <=, end)] is active in every build; the
    arithmetic on [start] is that of [size_t]. *)
Definition compare_leafs (c : Cond) (a foreign : Array)
           (start end_ baseindex : Z) : M bool :=
  if negb (start <=? end_) then fail
  else if start =? end_ then ret true
  else
    r <- compare_leafs_elem c (get a start) (get foreign start) (start + baseindex) ;;
    if negb r then ret false
    else
      let start := to_u64 (start + 1) in
      let rest := fun start =>
        if existsb (Z.eqb (m_width a)) supported_widths
        then compare_leafs_width c (m_width a) a foreign start end_ baseindex
        else fail in
      if to_u64 (start + 3) <? end_ then
        r <- compare_leafs_elem c (get a start) (get foreign start)
                                (start + baseindex) ;;
        if negb r then ret false
        else
          r <- compare_leafs_elem c (get a (to_u64 (start + 1)))
                                  (get foreign (to_u64 (start + 1)))
                                  (start + 1 + baseindex) ;;
          if negb r then ret false
          else
            r <- compare_leafs_elem c (get a (to_u64 (start + 2)))
                                    (get foreign (to_u64 (start + 2)))
                                    (start + 2 + baseindex) ;;
            if negb r then ret false
            else rest (to_u64 (start + 3))
      else if start =? end_ then ret true
      else rest start.

End CompareLeafs.

(** ** More of the accessor's life cycle *)

(** [class MemRef] (realm/alloc.hpp): the address of a node and its
    reference. *)
Record MemRef := mkMemRef {
  get_addr : MemBlock;
  get_ref : Z
}.

Section Statics.
Context {A : Type} `{Allocator A}.

Variable move : Z -> Z -> Z -> Array * A -> option (Array * A).
Variable set_header_size : Z -> Array * A -> option (Array * A).

(** [void Array::erase(size_t ndx)] *)
Definition erase_ndx (ndx : Z) (s : Array * A) : option (Array * A) :=
  match move (to_u64 (ndx + 1)) (m_size (fst s)) ndx s with
  | Some s1 =>
      let n := to_u64 (m_size (fst s1) - 1) in
      set_header_size n (with_size n s1)
  | None => None
  end.

(** [Array::init_from_mem] is defined in array.cpp; it attaches a
    fresh accessor to the node. *)
Variable init_from_mem : MemRef -> Array.
Variable destroy_children : Array -> A -> A.

(** [static void Array::destroy_deep(MemRef mem, Allocator& alloc) noexcept];
    [get_hasrefs_from_header] reads the flag of the header. *)
Definition destroy_deep_mem (mem : MemRef) (al : A) : A :=
  if negb (hdr_has_refs (header (get_addr mem))) then free_ (get_ref mem) al
  else snd (destroy_deep destroy_children (init_from_mem mem, al)).

(** [Array::init_from_ref] translates the reference and calls
    [init_from_mem]. *)
Variable init_from_ref : Z -> A -> Array.
Context {Writer : Type}.
Variable do_write_shallow : Array -> Writer -> Z * Writer.
Variable do_write_deep : Array -> bool -> Writer -> Z * Writer.

(** [static ref_type Array::write(ref_type ref, Allocator& alloc,
    _impl::ArrayWriterBase& out, bool only_if_modified)] *)
Definition write_ref (ref : Z) (al : A) (out : Writer) (only_if_modified : bool)
  : Z * Writer :=
  if only_if_modified && is_read_only al ref then (ref, out)
  else
    let array := init_from_ref ref al in
    if negb (m_has_refs array) then do_write_shallow array out
    else do_write_deep array only_if_modified out.

End Statics.

Section Flags.
Context {A : Type} `{Allocator A}.

(** [NodeHeader::set_hasrefs_in_header] and
    [NodeHeader::set_context_flag_in_header] (realm/node_header.hpp)
    and [Node::copy_on_write] are defined outside the header. *)
Variable set_hasrefs_in_header : bool -> MemBlock -> MemBlock.
Variable set_context_flag_in_header : bool -> MemBlock -> MemBlock.
Variable do_copy_on_write : Array * A -> option (Array * A).

(** [void Array::set_has_refs(bool value) noexcept].
    [REALM_ASSERT(!is_read_only())] asks the allocator about the
    array's reference; writing the header of an unattached accessor
    goes through a null pointer ([None]). *)
Definition set_has_refs (value : bool) (s : Array * A) : option (Array * A) :=
  let (a, al) := s in
  if negb (Bool.eqb (m_has_refs a) value) then
    if is_read_only al (m_ref a) then None
    else
      match m_data a with
      | Some blk =>
          Some (mkArray (m_ref a) (Some (set_hasrefs_in_header value blk))
                        (m_size a) (m_width a) (m_lbound a) (m_ubound a)
                        (m_is_inner_bptree_node a) value (m_context_flag a), al)
      | None => None
      end
  else Some s.

(** [void Array::set_context_flag(bool value) noexcept] *)
Definition set_context_flag (value : bool) (s : Array * A) : option (Array * A) :=
  if negb (Bool.eqb (m_context_flag (fst s)) value) then
    match do_copy_on_write s with
    | Some (a, al) =>
        match m_data a with
        | Some blk =>
            Some (mkArray (m_ref a) (Some (set_context_flag_in_header value blk))
                          (m_size a) (m_width a) (m_lbound a) (m_ubound a)
                          (m_is_inner_bptree_node a) (m_has_refs a) value, al)
        | None => None
        end
    | None => None
    end
  else Some s.

End Flags.

Section Adjust.
Context {A : Type} `{Allocator A}.

(** [Array::set(size_t, int64_t)] is defined in array.cpp. *)
Variable set_ : Z -> Z -> Array * A -> option (Array * A).

(** [void Array::adjust(size_t ndx, int_fast64_t diff)].  The sum
    [v + diff] is undefined in C++ when it overflows; it wraps here. *)
Definition adjust (ndx diff : Z) (s : Array * A) : option (Array * A) :=
  if negb (ndx <=? m_size (fst s)) then None
  else if negb (diff =? 0) then
    let v := get (fst s) ndx in
    set_ ndx (to_i64 (v + diff)) s
  else Some s.

(** [for (size_t i = begin; i != end; ++i) adjust(i, diff);], run for
    [n] iterations. *)
Fixpoint adjust_loop (n : nat) (i diff : Z) (s : Array * A) : option (Array * A) :=
  match n with
  | O => Some s
  | S n' =>
      match adjust i diff s with
      | Some s' => adjust_loop n' (to_u64 (i + 1)) diff s'
      | None => None
      end
  end.

(** [void Array::adjust(size_t begin, size_t end, int_fast64_t diff)]:
    the loop ends when [i] meets [end], after [end - begin] steps
    counted modulo 2^64. *)
Definition adjust_range (begin end_ diff : Z) (s : Array * A) : option (Array * A) :=
  if negb (diff =? 0) then
    adjust_loop (Z.to_nat (to_u64 (end_ - begin))) begin diff s
  else Some s.

End Adjust.

(** ** More sample data *)

(** An array of sixteen 4-bit elements, all below 8. *)
Definition sample_nibbles : Array :=
  mkArray 4160
          (Some (mkMemBlock (mkNodeHeader false false false 4 16)
                            (set_all 4 (repeat Byte.x00 8) 0
                                     [1; 7; 3; 0; 5; 2; 6; 4; 1; 0; 7; 3; 2; 2; 5; 6])))
          16 4 0 15 false false false.

(** A second array of eight elements, of 8 bits each. *)
Definition sample_bytes : Array :=
  mkArray 4224
          (Some (mkMemBlock (mkNodeHeader false false false 8 8)
                            (set_all 8 (repeat Byte.x00 8) 0
                                     [3; 5; -7; 7; 99; -5; 8; 0])))
          8 8 (- 0x80) 0x7F false false false.

(** An attachment for the examples: the caches are filled from the
    header of the node. *)
Definition sample_init_from_mem (mem : MemRef) : Array :=
  let h := header (get_addr mem) in
  mkArray (get_ref mem) (Some (get_addr mem)) (hdr_size h) (hdr_width h)
          (match lbound_for_width (hdr_width h) with Some l => l | None => 0 end)
          (match ubound_for_width (hdr_width h) with Some u => u | None => 0 end)
          (hdr_is_inner_bptree_node h) (hdr_has_refs h) (hdr_context_flag h).

(** A node of two references and the memory of the examples, which
    holds that node at every reference. *)
Definition sample_node : MemBlock :=
  mkMemBlock (mkNodeHeader false true false 16 2)
             (set_all 16 (repeat Byte.x00 8) 0 [4096; 4224]).

Definition sample_init_from_ref (ref : Z) (al : SampleAlloc) : Array :=
  sample_init_from_mem (mkMemRef sample_node ref).

(** Header setters for the examples. *)
Definition sample_set_hasrefs_in_header (value : bool) (blk : MemBlock) : MemBlock :=
  let h := header blk in
  mkMemBlock (mkNodeHeader (hdr_is_inner_bptree_node h) value (hdr_context_flag h)
                           (hdr_width h) (hdr_size h))
             (payload blk).

Definition sample_set_context_flag_in_header (value : bool) (blk : MemBlock) : MemBlock :=
  let h := header blk in
  mkMemBlock (mkNodeHeader (hdr_is_inner_bptree_node h) (hdr_has_refs h) value
                           (hdr_width h) (hdr_size h))
             (payload blk).

(** An array of four 64-bit elements. *)
Definition sample_wide : Array :=
  mkArray 4288
          (Some (mkMemBlock (mkNodeHeader false false false 64 4)
                            (set_all 64 (repeat Byte.x00 32) 0
                                     [10; -20; 0x100000000; -7])))
          4 64 (- 0x8000000000000000) 0x7FFFFFFFFFFFFFFF false false false.

(** * Properties *)

(** * Properties *)

(** ** Fixed-width arithmetic *)

Lemma sext_mod (w x : Z) : 0 < w -> sext w x mod 2 ^ w = x mod 2 ^ w.
Proof.
  intros Hw. unfold sext.
  assert (Hp : 2 ^ w = 2 * 2 ^ (w - 1)).
  { rewrite <- Z.pow_succ_r by lia. f_equal. lia. }
  assert (0 < 2 ^ (w - 1)) by (apply Z.pow_pos_nonneg; lia).
  rewrite Zminus_mod, Zmod_mod, <- Zminus_mod.
  f_equal. lia.
Qed.

Lemma sext_range (w x : Z) : 0 < w -> - 2 ^ (w - 1) <= sext w x < 2 ^ (w - 1).
Proof.
  intros Hw. unfold sext.
  assert (Hp : 2 ^ w = 2 * 2 ^ (w - 1)).
  { rewrite <- Z.pow_succ_r by lia. f_equal. lia. }
  assert (0 < 2 ^ (w - 1)) by (apply Z.pow_pos_nonneg; lia).
  pose proof (Z.mod_pos_bound (x + 2 ^ (w - 1)) (2 ^ w)). lia.
Qed.

Lemma sext_small (w x : Z) :
  0 < w -> - 2 ^ (w - 1) <= x < 2 ^ (w - 1) -> sext w x = x.
Proof.
  intros Hw Hx. unfold sext.
  assert (Hp : 2 ^ w = 2 * 2 ^ (w - 1)).
  { rewrite <- Z.pow_succ_r by lia. f_equal. lia. }
  rewrite Z.mod_small by lia. lia.
Qed.

Lemma to_u64_range (x : Z) : 0 <= to_u64 x < 2 ^ 64.
Proof. unfold to_u64. apply Z.mod_pos_bound. reflexivity. Qed.

Lemma to_u64_small (x : Z) : 0 <= x < 2 ^ 64 -> to_u64 x = x.
Proof. intros. unfold to_u64. apply Z.mod_small. assumption. Qed.

Lemma to_u64_to_i64 (x : Z) : to_u64 (to_i64 x) = to_u64 x.
Proof. unfold to_u64, to_i64. apply sext_mod. lia. Qed.

Lemma to_i64_range (x : Z) : - 2 ^ 63 <= to_i64 x < 2 ^ 63.
Proof. unfold to_i64. apply (sext_range 64 x). lia. Qed.

Lemma to_i64_small (x : Z) : - 2 ^ 63 <= x < 2 ^ 63 -> to_i64 x = x.
Proof. intros. unfold to_i64. apply sext_small; [lia | assumption]. Qed.

Lemma land_1_mod (x : Z) : Z.land x 1 = x mod 2.
Proof. change 1 with (Z.ones 1). rewrite Z.land_ones by lia. reflexivity. Qed.

Lemma to_i64_parity (x : Z) : to_i64 x mod 2 = x mod 2.
Proof.
  pose proof (to_u64_to_i64 x) as E. unfold to_u64 in E.
  assert (forall y, y mod 2 = (y mod 2 ^ 64) mod 2) as P.
  { intros y. symmetry. apply Z.mod_mod_divide.
    exists (2 ^ 63). reflexivity. }
  rewrite (P (to_i64 x)), (P x), E. reflexivity.
Qed.

(** C3.  A tagged integer below 2^63 round-trips through [make_tagged]
    and reads back as tagged; [make_tagged] fails from 2^63 on; a
    reference (an even [size_t]) round-trips through [make_ref] and
    reads back as a reference; the least-significant bit of the slot is
    the discriminant: clear for a reference, set for a tagged integer. *)
Theorem RefOrTagged_round_trip (i r : Z) :
  0 <= i < 2 ^ 64 ->
  0 <= r < 2 ^ 64 ->
  Z.even r = true ->
  (i < 2 ^ 63 ->
   exists x, RefOrTagged.make_tagged i = Some x /\
             RefOrTagged.is_tagged x = true /\
             RefOrTagged.is_ref x = false /\
             RefOrTagged.get_as_int x = i) /\
  (2 ^ 63 <= i -> RefOrTagged.make_tagged i = None) /\
  RefOrTagged.is_ref (RefOrTagged.make_ref r) = true /\
  RefOrTagged.is_tagged (RefOrTagged.make_ref r) = false /\
  RefOrTagged.get_as_ref (RefOrTagged.make_ref r) = r /\
  (forall x, RefOrTagged.is_ref x = negb (Z.testbit (RefOrTagged.m_value x) 0) /\
             RefOrTagged.is_tagged x = Z.testbit (RefOrTagged.m_value x) 0).
Proof.
  intros Hi Hr Heven.
  assert (Hdisc : forall x, RefOrTagged.is_ref x = negb (Z.testbit (RefOrTagged.m_value x) 0)).
  { intros x. unfold RefOrTagged.is_ref.
    rewrite land_1_mod, Zmod_even, Z.bit0_odd, <- Z.negb_even.
    destruct (Z.even (RefOrTagged.m_value x)); reflexivity. }
  repeat split.
  - intros Hlt. unfold RefOrTagged.make_tagged.
    change (Z.shiftl 1 63) with (2 ^ 63).
    destruct (Z.ltb_spec i (2 ^ 63)) as [_ | ?]; [| lia].
    eexists; split; [reflexivity |].
    assert (Hv : Z.lor (to_u64 (Z.shiftl i 1)) 1 = 2 * i + 1).
    { rewrite Z.shiftl_mul_pow2 by lia. rewrite to_u64_small by lia.
      change (2 ^ 1) with 2. rewrite Z.mul_comm.
      rewrite Z.or_to_plus; [reflexivity |].
      rewrite land_1_mod. rewrite Z.mul_comm, Z.mod_mul by lia. reflexivity. }
    assert (Hd : RefOrTagged.is_ref {| RefOrTagged.m_value := to_i64 (Z.lor (to_u64 (Z.shiftl i 1)) 1) |} = false).
    { unfold RefOrTagged.is_ref; cbn [RefOrTagged.m_value].
      rewrite land_1_mod, to_i64_parity, Hv.
      rewrite Z.add_comm, Z.mul_comm, Z.mod_add by lia. reflexivity. }
    repeat split.
    + unfold RefOrTagged.is_tagged. rewrite Hd. reflexivity.
    + exact Hd.
    + unfold RefOrTagged.get_as_int; cbn [RefOrTagged.m_value].
      rewrite to_u64_to_i64, Hv, to_u64_small by lia.
      change 0xFFFFFFFFFFFFFFFF with (Z.ones 64).
      rewrite Z.land_ones, Z.mod_small by lia.
      rewrite Z.shiftr_div_pow2 by lia. change (2 ^ 1) with 2.
      rewrite Z.add_comm, Z.mul_comm, Z.div_add by lia. reflexivity.
  - intros Hge. unfold RefOrTagged.make_tagged.
    change (Z.shiftl 1 63) with (2 ^ 63).
    destruct (Z.ltb_spec i (2 ^ 63)); [lia | reflexivity].
  - unfold RefOrTagged.is_ref, RefOrTagged.make_ref, RefOrTagged.from_ref;
      cbn [RefOrTagged.m_value].
    rewrite land_1_mod, to_i64_parity.
    rewrite Zmod_even, Heven. reflexivity.
  - unfold RefOrTagged.is_tagged, RefOrTagged.is_ref, RefOrTagged.make_ref,
      RefOrTagged.from_ref; cbn [RefOrTagged.m_value].
    rewrite land_1_mod, to_i64_parity.
    rewrite Zmod_even, Heven. reflexivity.
  - unfold RefOrTagged.get_as_ref, RefOrTagged.make_ref, RefOrTagged.from_ref,
      RefOrTagged.to_ref; cbn [RefOrTagged.m_value].
    rewrite to_u64_to_i64. apply to_u64_small. assumption.
  - apply Hdisc.
  - unfold RefOrTagged.is_tagged. rewrite Hdisc, negb_involutive. reflexivity.
Qed.

Lemma RefOrTagged_round_trip_witness :
  (exists x, RefOrTagged.make_tagged 5 = Some x /\
             RefOrTagged.is_tagged x = true /\
             RefOrTagged.is_ref x = false /\
             RefOrTagged.get_as_int x = 5) /\
  RefOrTagged.get_as_ref (RefOrTagged.make_ref 4096) = 4096.
Proof.
  pose proof (RefOrTagged_round_trip 5 4096 ltac:(lia) ltac:(lia) eq_refl) as P.
  split.
  - apply (proj1 P). lia.
  - apply (proj1 (proj2 (proj2 (proj2 (proj2 P))))).
Defined.

(** ** Decoded elements stay within the bounds of their width *)

Lemma land_ones_range (x n : Z) : 0 <= n -> 0 <= Z.land x (Z.ones n) < 2 ^ n.
Proof.
  intros Hn. rewrite Z.land_ones by assumption.
  apply Z.mod_pos_bound. apply Z.pow_pos_nonneg; lia.
Qed.

Lemma get_universal_bounded (w : Z) (data : list byte) (ndx : Z) :
  supported_width w ->
  exists lb ub,
    lbound_for_width w = Some lb /\
    ubound_for_width w = Some ub /\
    lb <= get_universal w data ndx <= ub /\
    (w < 8 -> lb = 0 /\ 0 <= get_universal w data ndx).
Proof.
  unfold supported_width, supported_widths. cbn [In].
  intros [E | [E | [E | [E | [E | [E | [E | [E | []]]]]]]]]; subst w;
    do 2 eexists; (split; [reflexivity |]); (split; [reflexivity |]);
    unfold get_universal; cbn [Z.eqb Pos.eqb].
  - lia.
  - pose proof (land_ones_range (Z.shiftr (char_at data (Z.shiftr ndx 3)) (Z.land ndx 7)) 1).
    change (Z.ones 1) with 1 in *. change (2 ^ 1) with 2 in *. lia.
  - pose proof (land_ones_range
                  (Z.shiftr (char_at data (Z.shiftr ndx 2)) (Z.shiftl (Z.land ndx 3) 1)) 2).
    change (Z.ones 2) with 3 in *. change (2 ^ 2) with 4 in *. lia.
  - pose proof (land_ones_range
                  (Z.shiftr (char_at data (Z.shiftr ndx 1)) (Z.shiftl (Z.land ndx 1) 2)) 4).
    change (Z.ones 4) with 15 in *. change (2 ^ 4) with 16 in *. lia.
  - pose proof (sext_range 8 (load_le data ndx 1)).
    change (2 ^ (8 - 1)) with 128 in *. lia.
  - pose proof (sext_range 16 (load_le data (ndx * 2) 2)).
    change (2 ^ (16 - 1)) with 32768 in *. lia.
  - pose proof (sext_range 32 (load_le data (ndx * 4) 4)).
    change (2 ^ (32 - 1)) with 2147483648 in *. lia.
  - pose proof (sext_range 64 (load_le data (ndx * 8) 8)).
    change (2 ^ (64 - 1)) with 9223372036854775808 in *. lia.
Qed.

(** C4.  At every supported width the decoder [get_universal] returns a
    value between [lbound_for_width] and [ubound_for_width]; below 8
    bits the lower bound is 0 and the value is never negative. *)
Theorem get_universal_within_bounds (w : Z) (data : list byte) (ndx : Z) :
  supported_width w ->
  exists lb ub,
    lbound_for_width w = Some lb /\
    ubound_for_width w = Some ub /\
    lb <= get_universal w data ndx <= ub /\
    (w < 8 -> lb = 0 /\ 0 <= get_universal w data ndx).
Proof.
  apply get_universal_bounded.
Qed.

Lemma get_universal_within_bounds_witness :
  exists lb ub,
    lbound_for_width 4 = Some lb /\
    ubound_for_width 4 = Some ub /\
    lb <= get_universal 4 [Byte.xa7] 1 <= ub /\
    (4 < 8 -> lb = 0 /\ 0 <= get_universal 4 [Byte.xa7] 1).
Proof.
  apply (get_universal_within_bounds 4 [Byte.xa7] 1).
  unfold supported_width, supported_widths. cbn [In]. tauto.
Defined.

(** ** Accessor life cycle *)

(** C7.  With [only_if_modified] set and the array's reference
    read-only, [write] on an attached array leaves the output stream as
    it is and returns the existing reference, whatever [deep] is and
    whatever the two writers would do. *)
Theorem write_unmodified_returns_ref
        {A : Type} `{Allocator A} {Writer : Type}
        (do_write_shallow : Array -> Writer -> Z * Writer)
        (do_write_deep : Array -> bool -> Writer -> Z * Writer)
        (a : Array) (al : A) (out : Writer) (deep : bool) :
  is_attached a = true ->
  is_read_only al (m_ref a) = true ->
  write do_write_shallow do_write_deep a al out deep true = Some (m_ref a, out).
Proof.
  intros Hatt Hro. unfold write. rewrite Hatt, Hro. reflexivity.
Qed.

Lemma write_unmodified_returns_ref_witness :
  write sample_write_shallow sample_write_deep sample_array
        (mkSampleAlloc 8192 8192 []) [Byte.x01] true true
  = Some (m_ref sample_array, [Byte.x01]).
Proof.
  apply (write_unmodified_returns_ref sample_write_shallow sample_write_deep
                                      sample_array (mkSampleAlloc 8192 8192 [])
                                      [Byte.x01] true);
    reflexivity.
Defined.

(** C8.  [destroy_deep] on an unattached accessor changes neither the
    accessor nor the allocator; after [destroy_deep] the accessor is
    unattached (its data pointer is cleared), so a second call changes
    nothing and frees nothing again; the one call on an attached
    accessor frees its reference once. *)
Theorem destroy_deep_idempotent
        {A : Type} `{Allocator A} (destroy_children : Array -> A -> A)
        (a : Array) (al : A) :
  (is_attached a = false -> destroy_deep destroy_children (a, al) = (a, al)) /\
  is_attached (fst (destroy_deep destroy_children (a, al))) = false /\
  m_data (fst (destroy_deep destroy_children (a, al))) = None /\
  destroy_deep destroy_children (destroy_deep destroy_children (a, al))
  = destroy_deep destroy_children (a, al) /\
  (is_attached a = true ->
   snd (destroy_deep destroy_children (a, al))
   = free_ (m_ref a) (if m_has_refs a then destroy_children a al else al)).
Proof.
  unfold destroy_deep, is_attached.
  destruct a as [r d sz w lb ub inner refs ctx]; cbn [m_data m_ref m_has_refs].
  destruct d as [blk |]; cbn; repeat split; congruence.
Qed.

Lemma destroy_deep_idempotent_witness :
  destroy_deep (fun _ al => al)
               (mkArray 4096 None 8 16 (- 0x8000) 0x7FFF false false false,
                mkSampleAlloc 1024 8192 [])
  = (mkArray 4096 None 8 16 (- 0x8000) 0x7FFF false false false,
     mkSampleAlloc 1024 8192 []) /\
  snd (destroy_deep (fun _ al => al) (sample_array, mkSampleAlloc 1024 8192 []))
  = mkSampleAlloc 1024 8192 [4096].
Proof.
  split.
  - apply (proj1 (destroy_deep_idempotent
                    (fun _ al => al)
                    (mkArray 4096 None 8 16 (- 0x8000) 0x7FFF false false false)
                    (mkSampleAlloc 1024 8192 []))).
    reflexivity.
  - rewrite (proj2 (proj2 (proj2 (proj2 (destroy_deep_idempotent
                                           (fun _ al => al) sample_array
                                           (mkSampleAlloc 1024 8192 []))))) eq_refl).
    reflexivity.
Defined.

(** C10.  The ranged [erase] with an empty range returns without
    touching the accessor, the buffer (elements and header) or the
    allocator, whatever [move] and [set_header_size] would do. *)
Theorem erase_empty_range
        {A : Type} `{Allocator A}
        (move : Z -> Z -> Z -> Array * A -> option (Array * A))
        (set_header_size : Z -> Array * A -> option (Array * A))
        (b : Z) (s : Array * A) :
  erase move set_header_size b b s = Some s.
Proof.
  unfold erase. rewrite Z.eqb_refl. reflexivity.
Qed.

(** ** Stores and loads on the payload *)

Lemma upd_length {T : Type} (l : list T) (n : nat) (x : T) :
  length (upd l n x) = length l.
Proof.
  revert n; induction l as [| h t IH]; intros [| n]; cbn; auto.
Qed.

Lemma nth_upd_same {T : Type} (l : list T) (n : nat) (x d : T) :
  (n < length l)%nat -> nth n (upd l n x) d = x.
Proof.
  revert n; induction l as [| h t IH]; intros [| n] Hn; cbn in *; try lia; auto.
  apply IH. lia.
Qed.

Lemma nth_upd_other {T : Type} (l : list T) (n m : nat) (x d : T) :
  n <> m -> nth m (upd l n x) d = nth m l d.
Proof.
  revert n m; induction l as [| h t IH]; intros [| n] [| m] Hn; cbn; auto; try lia.
Qed.

Lemma store_byte_length (data : list byte) (off : Z) (b : byte) :
  length (store_byte data off b) = length data.
Proof.
  unfold store_byte. destruct (off <? 0); [reflexivity | apply upd_length].
Qed.

Lemma byte_at_store_same (data : list byte) (off : Z) (b : byte) :
  0 <= off < Z.of_nat (length data) ->
  byte_at (store_byte data off b) off = b.
Proof.
  intros Hoff. unfold byte_at, store_byte.
  destruct (Z.ltb_spec off 0); [lia |].
  apply nth_upd_same. lia.
Qed.

Lemma byte_at_store_other (data : list byte) (off off' : Z) (b : byte) :
  0 <= off' -> off <> off' ->
  byte_at (store_byte data off b) off' = byte_at data off'.
Proof.
  intros Hoff' Hne. unfold byte_at, store_byte.
  destruct (Z.ltb_spec off 0); [reflexivity |].
  apply nth_upd_other. lia.
Qed.

Lemma store_bytes_length (bs data : list byte) (off : Z) :
  length (store_bytes data off bs) = length data.
Proof.
  revert data off; induction bs as [| b rest IH]; intros; cbn; [reflexivity |].
  rewrite IH. apply store_byte_length.
Qed.

Lemma byte_at_store_bytes_other (bs data : list byte) (off k : Z) :
  0 <= k -> (k < off \/ off + Z.of_nat (length bs) <= k) ->
  byte_at (store_bytes data off bs) k = byte_at data k.
Proof.
  revert data off; induction bs as [| b rest IH]; intros data off Hk Hout; cbn [store_bytes];
    [reflexivity |].
  cbn [length] in Hout.
  rewrite IH by lia. apply byte_at_store_other; lia.
Qed.

Lemma bytes_from_store_bytes_same (bs data : list byte) (off : Z) :
  0 <= off -> off + Z.of_nat (length bs) <= Z.of_nat (length data) ->
  bytes_from (store_bytes data off bs) off (length bs) = bs.
Proof.
  revert data off; induction bs as [| b rest IH]; intros data off Hoff Hlen;
    cbn [store_bytes bytes_from length]; [reflexivity |].
  cbn [length] in Hlen. f_equal.
  - rewrite byte_at_store_bytes_other by lia.
    apply byte_at_store_same. lia.
  - apply IH; [lia |]. rewrite store_byte_length. lia.
Qed.

Lemma bytes_from_ext (d1 d2 : list byte) (n : nat) (off : Z) :
  (forall k, off <= k < off + Z.of_nat n -> byte_at d1 k = byte_at d2 k) ->
  bytes_from d1 off n = bytes_from d2 off n.
Proof.
  revert off; induction n as [| n IH]; intros off Hext; cbn [bytes_from]; [reflexivity |].
  f_equal.
  - apply Hext. lia.
  - apply IH. intros k Hk. apply Hext. lia.
Qed.

(** ** The setter of a width is inverted by its getter *)

Lemma lane_mod (y n b w : Z) :
  0 <= b -> 0 <= w -> b + w <= n ->
  Z.land (Z.shiftr (y mod 2 ^ n) b) (Z.ones w) = Z.land (Z.shiftr y b) (Z.ones w).
Proof.
  intros Hb Hw Hn. rewrite <- (Z.land_ones y n) by lia.
  Z.bitblast.
Qed.

Lemma lane_sext (y n b w : Z) :
  0 <= b -> 0 <= w -> b + w <= n ->
  Z.land (Z.shiftr (sext n y) b) (Z.ones w) = Z.land (Z.shiftr y b) (Z.ones w).
Proof.
  intros Hb Hw Hn.
  destruct (Z.eq_dec n 0) as [-> | Hn0].
  - assert (b = 0) by lia. assert (w = 0) by lia. subst.
    change (Z.ones 0) with 0. rewrite !Z.land_0_r. reflexivity.
  - rewrite <- (lane_mod (sext n y) n) by assumption.
    rewrite sext_mod by lia. apply lane_mod; assumption.
Qed.

Lemma sub_byte_index (w ndx : Z) :
  0 <= ndx ->
  (w = 1 -> Z.shiftr ndx 3 = ndx * w / 8 /\ Z.land ndx 7 = (ndx * w) mod 8) /\
  (w = 2 -> Z.shiftr ndx 2 = ndx * w / 8 /\ Z.shiftl (Z.land ndx 3) 1 = (ndx * w) mod 8) /\
  (w = 4 -> Z.shiftr ndx 1 = ndx * w / 8 /\ Z.shiftl (Z.land ndx 1) 2 = (ndx * w) mod 8).
Proof.
  intros Hn. split; [| split]; intros ->; split.
  - rewrite Z.shiftr_div_pow2 by lia. rewrite Z.mul_1_r. reflexivity.
  - change 7 with (Z.ones 3). rewrite Z.land_ones by lia. rewrite Z.mul_1_r. reflexivity.
  - rewrite Z.shiftr_div_pow2 by lia. change (2 ^ 2) with 4.
    Z.div_mod_to_equations. lia.
  - change 3 with (Z.ones 2). rewrite Z.land_ones, Z.shiftl_mul_pow2 by lia.
    change (2 ^ 2) with 4. change (2 ^ 1) with 2.
    Z.div_mod_to_equations. lia.
  - rewrite Z.shiftr_div_pow2 by lia. change (2 ^ 1) with 2.
    Z.div_mod_to_equations. lia.
  - change 1 with (Z.ones 1) at 1. rewrite Z.land_ones, Z.shiftl_mul_pow2 by lia.
    change (2 ^ 2) with 4. change (2 ^ 1) with 2.
    Z.div_mod_to_equations. lia.
Qed.

(** The sub-byte getters, in the terms of the setter: the lane of
    [w] bits at bit [(ndx * w) mod 8] of byte [ndx * w / 8]. *)
Lemma get_universal_sub_byte (w : Z) (data : list byte) (ndx : Z) :
  w = 1 \/ w = 2 \/ w = 4 -> 0 <= ndx ->
  get_universal w data ndx =
  Z.land (Z.shiftr (byte.unsigned (byte_at data (ndx * w / 8))) ((ndx * w) mod 8)) (Z.ones w).
Proof.
  intros Hw Hn.
  pose proof (sub_byte_index w ndx Hn) as (I1 & I2 & I4).
  assert (Hbit : 0 <= (ndx * w) mod 8 /\ (ndx * w) mod 8 + w <= 8).
  { destruct Hw as [-> | [-> | ->]]; Z.div_mod_to_equations; lia. }
  unfold get_universal, char_at.
  destruct Hw as [-> | [-> | ->]]; cbn [Z.eqb Pos.eqb].
  - destruct (I1 eq_refl) as [-> ->]. change 1 with (Z.ones 1) at 3.
    apply lane_sext; lia.
  - destruct (I2 eq_refl) as [-> ->]. change 3 with (Z.ones 2).
    apply lane_sext; lia.
  - destruct (I4 eq_refl) as [-> ->]. change 15 with (Z.ones 4).
    apply lane_sext; lia.
Qed.

(** The byte-aligned getters: a little-endian load of [w / 8] bytes,
    sign-extended. *)
Lemma get_universal_bytes (w : Z) (data : list byte) (ndx : Z) :
  w = 8 \/ w = 16 \/ w = 32 \/ w = 64 ->
  get_universal w data ndx = sext w (load_le data (ndx * (w / 8)) (Z.to_nat (w / 8))).
Proof.
  intros [-> | [-> | [-> | ->]]]; unfold get_universal; cbn [Z.eqb Pos.eqb];
    repeat f_equal; change (8 / 8) with 1; lia.
Qed.

Lemma insert_lane_same (old v b w : Z) :
  0 <= b -> 0 <= w ->
  Z.land (Z.shiftr (Z.lor (Z.land old (Z.lnot (Z.shiftl (Z.ones w) b)))
                          (Z.shiftl (Z.land v (Z.ones w)) b)) b) (Z.ones w)
  = Z.land v (Z.ones w).
Proof.
  intros Hb Hw. Z.bitblast.
Qed.

Lemma insert_lane_other (old v b b' w : Z) :
  0 <= b -> 0 <= b' -> 0 <= w -> b' + w <= b \/ b + w <= b' ->
  Z.land (Z.shiftr (Z.lor (Z.land old (Z.lnot (Z.shiftl (Z.ones w) b)))
                          (Z.shiftl (Z.land v (Z.ones w)) b)) b') (Z.ones w)
  = Z.land (Z.shiftr old b') (Z.ones w).
Proof.
  intros Hb Hb' Hw Hd. Z.bitblast.
Qed.

Lemma byte_lane (x b w : Z) :
  0 <= b -> 0 <= w -> b + w <= 8 ->
  Z.land (Z.shiftr (byte.unsigned (byte.of_Z x)) b) (Z.ones w)
  = Z.land (Z.shiftr x b) (Z.ones w).
Proof.
  intros. rewrite byte.unsigned_of_Z. unfold byte.wrap. apply lane_mod; assumption.
Qed.

Lemma fits_bounds (w v : Z) :
  supported_width w -> fits w v = true ->
  (w < 8 -> 0 <= v < 2 ^ w) /\ (8 <= w -> - 2 ^ (w - 1) <= v < 2 ^ (w - 1)).
Proof.
  unfold supported_width, supported_widths, fits. cbn [In].
  intros [E | [E | [E | [E | [E | [E | [E | [E | []]]]]]]]]; subst w;
    cbn [lbound_for_width ubound_for_width Z.eqb Z.ltb Z.compare Pos.eqb Pos.compare
         Pos.compare_cont];
    rewrite andb_true_iff, !Z.leb_le; intros [? ?]; split; intros; try lia.
Qed.

(** Reading back the slot that was just written. *)
Lemma get_universal_set_direct_same (w : Z) (data : list byte) (ndx v : Z) :
  supported_width w -> fits w v = true ->
  0 <= ndx -> (ndx + 1) * w <= 8 * Z.of_nat (length data) ->
  get_universal w (set_direct w data ndx v) ndx = v.
Proof.
  intros Hw Hfit Hn Hlen.
  destruct (fits_bounds w v Hw Hfit) as [Hlo Hhi].
  unfold supported_width, supported_widths in Hw. cbn [In] in Hw.
  assert (Hcase : w = 0 \/ (w = 1 \/ w = 2 \/ w = 4) \/ (w = 8 \/ w = 16 \/ w = 32 \/ w = 64))
    by intuition lia.
  clear Hw. destruct Hcase as [-> | [Hsub | Hbytes]].
  - cbn. cbn in Hlo. lia.
  - rewrite get_universal_sub_byte by assumption.
    assert (Hbit : 0 <= (ndx * w) mod 8 /\ (ndx * w) mod 8 + w <= 8).
    { destruct Hsub as [-> | [-> | ->]]; Z.div_mod_to_equations; lia. }
    assert (Hoff : 0 <= ndx * w / 8 < Z.of_nat (length data)).
    { destruct Hsub as [-> | [-> | ->]]; Z.div_mod_to_equations; lia. }
    unfold set_direct.
    replace ((w =? 1) || (w =? 2) || (w =? 4)) with true
      by (destruct Hsub as [-> | [-> | ->]]; reflexivity).
    rewrite byte_at_store_same by assumption.
    rewrite byte_lane by lia.
    rewrite insert_lane_same by lia.
    rewrite Z.land_ones by lia. apply Z.mod_small. apply Hlo. lia.
  - rewrite get_universal_bytes by assumption.
    unfold set_direct.
    replace ((w =? 1) || (w =? 2) || (w =? 4)) with false
      by (destruct Hbytes as [-> | [-> | [-> | ->]]]; reflexivity).
    replace ((w =? 8) || (w =? 16) || (w =? 32) || (w =? 64)) with true
      by (destruct Hbytes as [-> | [-> | [-> | ->]]]; reflexivity).
    unfold load_le.
    assert (Hbw : 0 < w / 8 /\ w = 8 * (w / 8))
      by (destruct Hbytes as [-> | [-> | [-> | ->]]]; cbv; split; reflexivity).
    set (n := Z.to_nat (w / 8)) in *.
    pose proof (bytes_from_store_bytes_same (le_split n v) data (ndx * (w / 8))) as Hsame.
    rewrite length_le_split in Hsame.
    rewrite Hsame by nia.
    rewrite le_combine_split.
    replace (Z.of_nat n * 8) with w by lia.
    unfold sext. rewrite Zplus_mod_idemp_l.
    assert (Hp : 2 ^ w = 2 * 2 ^ (w - 1)).
    { rewrite <- Z.pow_succ_r by lia. f_equal. lia. }
    rewrite Z.mod_small by lia. lia.
Qed.

(** Writing a slot leaves every other slot as it was. *)
Lemma get_universal_set_direct_other (w : Z) (data : list byte) (i j v : Z) :
  supported_width w -> 0 <= i -> 0 <= j -> i <> j ->
  get_universal w (set_direct w data j v) i = get_universal w data i.
Proof.
  intros Hw Hi Hj Hne.
  unfold supported_width, supported_widths in Hw. cbn [In] in Hw.
  assert (Hcase : w = 0 \/ (w = 1 \/ w = 2 \/ w = 4) \/ (w = 8 \/ w = 16 \/ w = 32 \/ w = 64))
    by intuition lia.
  clear Hw. destruct Hcase as [-> | [Hsub | Hbytes]].
  - reflexivity.
  - rewrite !get_universal_sub_byte by assumption.
    assert (Hbi : 0 <= (i * w) mod 8 /\ (i * w) mod 8 + w <= 8).
    { destruct Hsub as [-> | [-> | ->]]; Z.div_mod_to_equations; lia. }
    assert (Hbj : 0 <= (j * w) mod 8 /\ (j * w) mod 8 + w <= 8).
    { destruct Hsub as [-> | [-> | ->]]; Z.div_mod_to_equations; lia. }
    assert (Hoi : 0 <= i * w / 8) by (destruct Hsub as [-> | [-> | ->]]; Z.div_mod_to_equations; lia).
    unfold set_direct.
    replace ((w =? 1) || (w =? 2) || (w =? 4)) with true
      by (destruct Hsub as [-> | [-> | ->]]; reflexivity).
    destruct (Z.eq_dec (j * w / 8) (i * w / 8)) as [Eoff | Noff].
    + destruct (Z_lt_dec (j * w / 8) (Z.of_nat (length data))) as [Hin | Hout].
      * rewrite Eoff in *. rewrite byte_at_store_same by lia.
        rewrite byte_lane by lia.
        apply insert_lane_other; try lia.
        destruct Hsub as [-> | [-> | ->]]; Z.div_mod_to_equations; lia.
      * unfold store_byte. destruct (j * w / 8 <? 0); [reflexivity |].
        f_equal. f_equal. f_equal. unfold byte_at.
        destruct (Nat.eq_dec (Z.to_nat (j * w / 8)) (Z.to_nat (i * w / 8))) as [E | E].
        -- rewrite !nth_overflow; rewrite ?upd_length; try lia. reflexivity.
        -- apply nth_upd_other. assumption.
    + rewrite byte_at_store_other by lia. reflexivity.
  - rewrite !get_universal_bytes by assumption.
    unfold set_direct.
    replace ((w =? 1) || (w =? 2) || (w =? 4)) with false
      by (destruct Hbytes as [-> | [-> | [-> | ->]]]; reflexivity).
    replace ((w =? 8) || (w =? 16) || (w =? 32) || (w =? 64)) with true
      by (destruct Hbytes as [-> | [-> | [-> | ->]]]; reflexivity).
    assert (Hbw : 0 < w / 8)
      by (destruct Hbytes as [-> | [-> | [-> | ->]]]; cbv; reflexivity).
    unfold load_le. f_equal. f_equal.
    apply bytes_from_ext. intros k Hk.
    apply byte_at_store_bytes_other; [nia |].
    rewrite length_le_split. nia.
Qed.

Lemma set_direct_length (w : Z) (data : list byte) (ndx v : Z) :
  length (set_direct w data ndx v) = length data.
Proof.
  unfold set_direct.
  destruct ((w =? 1) || (w =? 2) || (w =? 4)); [apply store_byte_length |].
  destruct ((w =? 8) || (w =? 16) || (w =? 32) || (w =? 64)); [apply store_bytes_length |].
  reflexivity.
Qed.

(** ** [set] followed by [get] *)

Lemma fits_of_bounds (w lb ub v : Z) :
  lbound_for_width w = Some lb -> ubound_for_width w = Some ub ->
  fits w v = ((lb <=? v) && (v <=? ub)).
Proof. intros El Eu. unfold fits. rewrite El, Eu. reflexivity. Qed.

(** C2.  On an attached, writable array whose cache is coherent, for a
    valid index and a value within the bounds of the current width,
    [set] succeeds without changing the width, and [get] at the same
    index then returns the value. *)
Theorem set_then_get {A : Type} `{Allocator A} (a : Array) (al : A) (i v : Z) :
  coherent a ->
  is_read_only al (m_ref a) = false ->
  m_lbound a <= v <= m_ubound a ->
  0 <= i < m_size a ->
  exists a', set i v (a, al) = Some (a', al) /\
             m_width a' = m_width a /\
             get a' i = v.
Proof.
  intros (Hatt & Hw & Hlb & Hub & Hsz & Hlen) Hro Hv Hi.
  unfold set. cbn [fst]. rewrite Hatt. cbn [negb].
  destruct (Z.leb_spec 0 i); [| lia]. destruct (Z.ltb_spec i (m_size a)); [| lia].
  cbn [andb negb]. unfold copy_on_write. rewrite Hro.
  unfold ensure_minimum_width.
  destruct (Z.geb_spec v (m_lbound a)); [| lia].
  destruct (Z.leb_spec v (m_ubound a)); [| lia]. cbn [andb].
  unfold is_attached in Hatt. unfold data_of in Hlen.
  destruct (m_data a) as [blk |] eqn:Hd; [| discriminate].
  eexists. split; [reflexivity |]. split; [reflexivity |].
  unfold get, get_w, data_of, set_block; cbn [m_width m_data payload].
  apply get_universal_set_direct_same; try assumption; try lia.
  - rewrite (fits_of_bounds _ _ _ _ Hlb Hub).
    apply andb_true_iff. rewrite !Z.leb_le. lia.
  - assert (0 <= m_width a).
    { unfold supported_width, supported_widths in Hw. cbn [In] in Hw. intuition lia. }
    nia.
Qed.

Lemma sample_array_coherent : coherent sample_array.
Proof.
  unfold coherent.
  split; [reflexivity |]. split; [vm_compute; tauto |].
  split; [reflexivity |]. split; [reflexivity |].
  split; vm_compute; discriminate.
Qed.

Lemma set_then_get_witness :
  exists a', set 3 (-1234) (sample_array, mkSampleAlloc 1024 8192 [])
             = Some (a', mkSampleAlloc 1024 8192 []) /\
             m_width a' = m_width sample_array /\
             get a' 3 = -1234.
Proof.
  apply (set_then_get sample_array (mkSampleAlloc 1024 8192 []) 3 (-1234)).
  - exact sample_array_coherent.
  - reflexivity.
  - vm_compute. split; discriminate.
  - vm_compute. split; [discriminate | reflexivity].
Defined.

(** ** Width upgrade *)

Lemma find_sorted_least (f : Z -> bool) (l : list Z) (x : Z) :
  StronglySorted Z.le l -> List.find f l = Some x ->
  In x l /\ f x = true /\ forall y, In y l -> f y = true -> x <= y.
Proof.
  induction 1 as [| h t Hs IH Hall]; cbn [List.find]; [discriminate |].
  destruct (f h) eqn:Efh.
  - intros [= <-]. split; [left; reflexivity |]. split; [assumption |].
    intros y [<- | Hy] _; [lia |].
    rewrite Forall_forall in Hall. apply Hall. assumption.
  - intros Hfind. destruct (IH Hfind) as (Hin & Hfx & Hleast).
    split; [right; assumption |]. split; [assumption |].
    intros y [<- | Hy] Hfy; [congruence |]. apply Hleast; assumption.
Qed.

Lemma supported_widths_sorted : StronglySorted Z.le supported_widths.
Proof.
  unfold supported_widths.
  repeat (constructor; [| repeat (constructor; try lia)]). constructor.
Qed.

Lemma find_exists (f : Z -> bool) (l : list Z) (y : Z) :
  In y l -> f y = true -> exists x, List.find f l = Some x.
Proof.
  intros Hin Hf. destruct (List.find f l) eqn:E; [eauto |].
  pose proof (find_none f l E y Hin). congruence.
Qed.

Lemma fits_64 (v : Z) : - 2 ^ 63 <= v < 2 ^ 63 -> fits 64 v = true.
Proof.
  intros Hv. unfold fits. cbn [lbound_for_width ubound_for_width Z.eqb Z.ltb Z.compare Pos.eqb Pos.compare Pos.compare_cont].
  apply andb_true_iff. rewrite !Z.leb_le. lia.
Qed.

Lemma bounds_in_int64 (w lb ub : Z) :
  lbound_for_width w = Some lb -> ubound_for_width w = Some ub ->
  - 2 ^ 63 <= lb /\ lb <= 0 /\ 0 <= ub /\ ub < 2 ^ 63.
Proof.
  unfold lbound_for_width, ubound_for_width.
  repeat match goal with
         | |- context [if ?c then _ else _] => destruct c
         end; intros [= <-] [= <-]; lia.
Qed.

Lemma fits_between (w lo hi v : Z) :
  fits w lo = true -> fits w hi = true -> lo <= v <= hi -> fits w v = true.
Proof.
  unfold fits. destruct (lbound_for_width w), (ubound_for_width w); try discriminate.
  rewrite !andb_true_iff, !Z.leb_le. lia.
Qed.

Lemma zrange_length (i : Z) (n : nat) : length (zrange i n) = n.
Proof. revert i; induction n; intros; cbn; auto. Qed.

Lemma nth_zrange (i : Z) (n k : nat) (d : Z) :
  (k < n)%nat -> nth k (zrange i n) d = i + Z.of_nat k.
Proof.
  revert i k; induction n as [| n IH]; intros i [| k] Hk; cbn [zrange nth]; try lia.
  rewrite IH by lia. lia.
Qed.

Lemma set_all_length (w : Z) (vs : list Z) (data : list byte) (k : Z) :
  length (set_all w data k vs) = length data.
Proof.
  revert data k; induction vs as [| v rest IH]; intros; cbn [set_all]; [reflexivity |].
  rewrite IH. apply set_direct_length.
Qed.

Lemma set_all_below (w : Z) (vs : list Z) (data : list byte) (k i : Z) :
  supported_width w -> 0 <= i < k ->
  get_universal w (set_all w data k vs) i = get_universal w data i.
Proof.
  intros Hw. revert data k; induction vs as [| v rest IH]; intros data k Hi; cbn [set_all];
    [reflexivity |].
  rewrite IH by lia. apply get_universal_set_direct_other; try assumption; lia.
Qed.

Lemma set_all_get (w : Z) (vs : list Z) (data : list byte) (k i : Z) :
  supported_width w -> Forall (fun v => fits w v = true) vs ->
  0 <= k -> (k + Z.of_nat (length vs)) * w <= 8 * Z.of_nat (length data) ->
  k <= i < k + Z.of_nat (length vs) ->
  get_universal w (set_all w data k vs) i = nth (Z.to_nat (i - k)) vs 0.
Proof.
  intros Hw Hfit. revert data k.
  assert (H0w : 0 <= w).
  { unfold supported_width, supported_widths in Hw. cbn [In] in Hw. intuition lia. }
  induction Hfit as [| v rest Hv Hrest IH]; intros data k Hk Hlen Hi; cbn [length] in *;
    [lia |].
  cbn [set_all].
  destruct (Z.eq_dec i k) as [-> | Hne].
  - rewrite set_all_below by (try assumption; lia).
    rewrite Z.sub_diag. cbn [Z.to_nat nth].
    apply get_universal_set_direct_same; try assumption. nia.
  - rewrite IH; rewrite ?set_direct_length; try lia.
    replace (Z.to_nat (i - k)) with (S (Z.to_nat (i - (k + 1)))) by lia.
    reflexivity.
Qed.

Lemma fits_mono (w w' v : Z) :
  supported_width w -> supported_width w' -> w <= w' ->
  fits w v = true -> fits w' v = true.
Proof.
  unfold supported_width, supported_widths, fits. cbn [In].
  intros [E | [E | [E | [E | [E | [E | [E | [E | []]]]]]]]]
         [E' | [E' | [E' | [E' | [E' | [E' | [E' | [E' | []]]]]]]]]; subst w w';
    intros Hle; try lia;
    cbn [lbound_for_width ubound_for_width Z.eqb Z.ltb Z.compare Pos.eqb Pos.compare
         Pos.compare_cont];
    rewrite !andb_true_iff, !Z.leb_le; lia.
Qed.

Lemma nth_map_zrange (f : Z -> Z) (n : nat) (k : Z) :
  0 <= k < Z.of_nat n -> nth (Z.to_nat k) (map f (zrange 0 n)) 0 = f k.
Proof.
  intros Hk. rewrite (nth_indep _ 0 (f 0)) by (rewrite length_map, zrange_length; lia).
  rewrite map_nth. rewrite nth_zrange by lia. f_equal. lia.
Qed.

Lemma payload_bytes_enough (n w : Z) : 0 <= n * w -> n * w <= 8 * payload_bytes n w.
Proof. intros. unfold payload_bytes. Z.div_mod_to_equations. lia. Qed.

Lemma get_fits (a : Array) (w' i : Z) :
  coherent a ->
  fits w' (m_lbound a) = true -> fits w' (m_ubound a) = true ->
  fits w' (get a i) = true.
Proof.
  intros (_ & Hw & Hlb & Hub & _) Fl Fu.
  destruct (get_universal_bounded (m_width a) (data_of a) i Hw) as (lb & ub & El & Eu & Hr & _).
  apply (fits_between w' (m_lbound a) (m_ubound a)); try assumption.
  unfold get, get_w. rewrite Hlb in El. rewrite Hub in Eu.
  injection El as <-. injection Eu as <-. exact Hr.
Qed.

(** C5.  [ensure_minimum_width] returns the accessor (and with it the
    buffer) unchanged when the value lies within the cached bounds;
    otherwise the array is re-encoded at the least supported width that
    holds the old bounds and the value -- which is [bit_width] of the
    value -- with the same number of elements and the same element at
    every index. *)
Theorem ensure_minimum_width_spec (a : Array) (value : Z) :
  coherent a ->
  - 2 ^ 63 <= value < 2 ^ 63 ->
  (m_lbound a <= value <= m_ubound a -> ensure_minimum_width value a = Some a) /\
  (~ (m_lbound a <= value <= m_ubound a) ->
   exists a',
     ensure_minimum_width value a = Some a' /\
     supported_width (m_width a') /\
     fits (m_width a') (m_lbound a) = true /\
     fits (m_width a') (m_ubound a) = true /\
     fits (m_width a') value = true /\
     (forall w, supported_width w ->
                fits w (m_lbound a) = true -> fits w (m_ubound a) = true ->
                fits w value = true -> m_width a' <= w) /\
     bit_width value = Some (m_width a') /\
     coherent a' /\
     m_size a' = m_size a /\
     (forall i, 0 <= i < m_size a -> get a' i = get a i)).
Proof.
  intros Hc Hval. pose proof Hc as (Hatt & Hw & Hlb & Hub & Hsz & Hlen).
  unfold ensure_minimum_width. split.
  - intros Hin.
    destruct (Z.geb_spec value (m_lbound a)); [| lia].
    destruct (Z.leb_spec value (m_ubound a)); [| lia]. reflexivity.
  - intros Hout.
    replace ((value >=? m_lbound a) && (value <=? m_ubound a)) with false
      by (destruct (Z.geb_spec value (m_lbound a)), (Z.leb_spec value (m_ubound a));
          cbn; try reflexivity; lia).
    unfold do_ensure_minimum_width.
    set (f := fun w => fits w (m_lbound a) && fits w (m_ubound a) && fits w value).
    destruct (bounds_in_int64 _ _ _ Hlb Hub) as (B1 & B2 & B3 & B4).
    assert (H64 : In 64 supported_widths) by (cbv; tauto).
    destruct (find_exists f supported_widths 64 H64) as [w Hfind].
    { unfold f. rewrite !fits_64 by lia. reflexivity. }
    rewrite Hfind.
    destruct (find_sorted_least f _ w supported_widths_sorted Hfind) as (Hin & Hfw & Hleast).
    unfold f in Hfw. apply andb_true_iff in Hfw as [Hfw Hfv].
    apply andb_true_iff in Hfw as [Hfl Hfu].
    assert (Hbd : exists lb' ub', lbound_for_width w = Some lb' /\ ubound_for_width w = Some ub').
    { unfold fits in Hfv.
      destruct (lbound_for_width w), (ubound_for_width w); try discriminate; eauto. }
    destruct Hbd as (lb' & ub' & El' & Eu'). rewrite El', Eu'.
    unfold is_attached in Hatt. unfold data_of in Hlen.
    destruct (m_data a) as [blk |] eqn:Hd; [| discriminate].
    assert (H0w : 0 <= w).
    { unfold supported_widths in Hin. cbn [In] in Hin. intuition lia. }
    eexists. split; [reflexivity |].
    unfold set_block; cbn [m_width m_size m_data].
    split; [exact Hin |]. split; [exact Hfl |]. split; [exact Hfu |].
    split; [exact Hfv |].
    split.
    { intros w' Hw' F1 F2 F3. apply Hleast; [exact Hw' |].
      unfold f. rewrite F1, F2, F3. reflexivity. }
    split.
    { unfold bit_width.
      destruct (find_exists (fun w => fits w value) supported_widths 64 H64 (fits_64 _ Hval))
        as [w1 Hfind1].
      rewrite Hfind1. f_equal.
      destruct (find_sorted_least _ _ w1 supported_widths_sorted Hfind1)
        as (Hin1 & Hf1 & Hleast1).
      assert (Hgt : m_width a < w1).
      { destruct (Z_lt_dec (m_width a) w1) as [? | Hge]; [assumption |].
        exfalso. apply Hout.
        pose proof (fits_mono w1 (m_width a) value Hin1 Hw ltac:(lia) Hf1) as Hcur.
        rewrite (fits_of_bounds _ _ _ _ Hlb Hub) in Hcur.
        apply andb_true_iff in Hcur. rewrite !Z.leb_le in Hcur. exact Hcur. }
      assert (Hself : forall x, m_lbound a <= x <= m_ubound a -> fits (m_width a) x = true).
      { intros x Hx. rewrite (fits_of_bounds _ _ _ _ Hlb Hub).
        apply andb_true_iff. rewrite !Z.leb_le. exact Hx. }
      assert (f w1 = true) as Hfw1.
      { unfold f.
        rewrite (fits_mono (m_width a) w1 (m_lbound a))
          by (try assumption; try lia; apply Hself; lia).
        rewrite (fits_mono (m_width a) w1 (m_ubound a))
          by (try assumption; try lia; apply Hself; lia).
        rewrite Hf1. reflexivity. }
      pose proof (Hleast w1 Hin1 Hfw1). pose proof (Hleast1 w Hin Hfv). lia. }
    assert (Hroom : m_size a * w
                    <= 8 * Z.of_nat (length (repeat Byte.x00
                                               (Z.to_nat (payload_bytes (m_size a) w))))).
    { rewrite repeat_length.
      pose proof (payload_bytes_enough (m_size a) w ltac:(nia)).
      unfold payload_bytes in *. lia. }
    split.
    { unfold coherent; cbn [is_attached data_of m_data m_width m_lbound m_ubound m_size payload].
      rewrite set_all_length. auto 10. }
    split; [reflexivity |].
    intros i Hi. unfold get at 1, get_w, data_of; cbn [m_width m_data payload].
    rewrite set_all_get; try assumption.
    + rewrite Z.sub_0_r. apply nth_map_zrange. lia.
    + apply Forall_forall. intros x Hx. apply in_map_iff in Hx as (k & <- & _).
      apply get_fits; assumption.
    + lia.
    + rewrite length_map, zrange_length. lia.
    + rewrite length_map, zrange_length. lia.
Qed.

Lemma ensure_minimum_width_spec_witness :
  ensure_minimum_width 5 sample_array = Some sample_array /\
  exists a',
    ensure_minimum_width 100000 sample_array = Some a' /\
    supported_width (m_width a') /\
    fits (m_width a') (m_lbound sample_array) = true /\
    fits (m_width a') (m_ubound sample_array) = true /\
    fits (m_width a') 100000 = true /\
    (forall w, supported_width w ->
               fits w (m_lbound sample_array) = true ->
               fits w (m_ubound sample_array) = true ->
               fits w 100000 = true -> m_width a' <= w) /\
    bit_width 100000 = Some (m_width a') /\
    coherent a' /\
    m_size a' = m_size sample_array /\
    (forall i, 0 <= i < m_size sample_array -> get a' i = get sample_array i).
Proof.
  split.
  - apply (proj1 (ensure_minimum_width_spec sample_array 5 sample_array_coherent
                                            ltac:(lia))).
    vm_compute. split; discriminate.
  - apply (proj2 (ensure_minimum_width_spec sample_array 100000 sample_array_coherent
                                            ltac:(lia))).
    intros [_ Hub]. vm_compute in Hub. apply Hub. reflexivity.
Defined.

(** ** The payload as one little-endian number

    Every read of the payload is a bit field of [le_combine data]:
    this puts the getters and the 64-bit chunk loads of the scan engine
    on a common footing. *)

(** Bit-level goals: compare bit by bit, discard bits at negative
    positions, and let the propositional solver finish. *)
Ltac blast_bits :=
  Z.bitblast;
  repeat match goal with
         | |- context [Z.testbit ?a ?i] =>
             rewrite (Z.testbit_neg_r a i) by lia
         end;
  try Z.bitblast_core.

Lemma byte_unsigned_land (b : byte) :
  byte.unsigned b = Z.land (byte.unsigned b) (Z.ones 8).
Proof.
  rewrite Z.land_ones by lia. symmetry. apply Z.mod_small. apply byte.unsigned_range.
Qed.

Lemma byte_at_cons (b : byte) (rest : list byte) (off : Z) :
  0 < off -> byte_at (b :: rest) off = byte_at rest (off - 1).
Proof.
  intros Hoff. unfold byte_at.
  replace (Z.to_nat off) with (S (Z.to_nat (off - 1))) by lia. reflexivity.
Qed.

Lemma byte_at_bits (data : list byte) (off : Z) :
  0 <= off ->
  byte.unsigned (byte_at data off) = Z.land (Z.shiftr (le_combine data) (8 * off)) (Z.ones 8).
Proof.
  revert off. induction data as [| b rest IH]; intros off Hoff.
  - unfold byte_at. cbn [le_combine]. rewrite Z.shiftr_0_l, Z.land_0_l.
    destruct (Z.to_nat off); reflexivity.
  - change (le_combine (b :: rest))
      with (Z.lor (byte.unsigned b) (Z.shiftl (le_combine rest) 8)).
    destruct (Z.eq_dec off 0) as [-> | Hne].
    + unfold byte_at. cbn [Z.to_nat nth]. rewrite (byte_unsigned_land b).
      blast_bits.
    + rewrite byte_at_cons by lia. rewrite IH by lia.
      rewrite (byte_unsigned_land b).
      blast_bits.
Qed.

Lemma load_le_bits (data : list byte) (n : nat) (off : Z) :
  0 <= off ->
  load_le data off n
  = Z.land (Z.shiftr (le_combine data) (8 * off)) (Z.ones (8 * Z.of_nat n)).
Proof.
  unfold load_le. revert off. induction n as [| n IH]; intros off Hoff.
  - cbn [bytes_from le_combine]. change (Z.ones (8 * Z.of_nat 0)) with 0.
    rewrite Z.land_0_r. reflexivity.
  - cbn [bytes_from].
    change (le_combine (byte_at data off :: bytes_from data (off + 1) n))
      with (Z.lor (byte.unsigned (byte_at data off))
                  (Z.shiftl (le_combine (bytes_from data (off + 1) n)) 8)).
    rewrite IH by lia. rewrite byte_at_bits by lia.
    rewrite Nat2Z.inj_succ.
    blast_bits.
Qed.

Lemma width_cases (w : Z) :
  supported_width w ->
  w = 0 \/ (w = 1 \/ w = 2 \/ w = 4) \/ (w = 8 \/ w = 16 \/ w = 32 \/ w = 64).
Proof.
  unfold supported_width, supported_widths. cbn [In]. intuition lia.
Qed.

(** An element is the bit field of [w] bits at bit [ndx * w], decoded. *)
Lemma get_universal_bits (w : Z) (data : list byte) (ndx : Z) :
  supported_width w -> 0 < w -> 0 <= ndx ->
  get_universal w data ndx
  = decode w (Z.land (Z.shiftr (le_combine data) (ndx * w)) (Z.ones w)).
Proof.
  intros Hw Hpos Hn.
  destruct (width_cases w Hw) as [-> | [Hsub | Hbytes]]; [lia | |].
  - rewrite get_universal_sub_byte by assumption.
    replace (decode w) with (fun x : Z => x)
      by (destruct Hsub as [-> | [-> | ->]]; reflexivity).
    assert (Hoff : 0 <= ndx * w / 8)
      by (destruct Hsub as [-> | [-> | ->]]; Z.div_mod_to_equations; lia).
    rewrite byte_at_bits by assumption.
    assert (Hbit : 0 <= (ndx * w) mod 8 /\ (ndx * w) mod 8 + w <= 8)
      by (destruct Hsub as [-> | [-> | ->]]; Z.div_mod_to_equations; lia).
    assert (Hsplit : ndx * w = 8 * (ndx * w / 8) + (ndx * w) mod 8)
      by (apply Z.div_mod; lia).
    rewrite Hsplit at 3.
    generalize dependent ((ndx * w) mod 8). generalize dependent (ndx * w / 8).
    intros q Hq r Hr _.
    blast_bits.
  - rewrite get_universal_bytes by assumption.
    replace (decode w) with (sext w)
      by (destruct Hbytes as [-> | [-> | [-> | ->]]]; reflexivity).
    assert (Hbw : 0 < w / 8 /\ w = 8 * (w / 8))
      by (destruct Hbytes as [-> | [-> | [-> | ->]]]; cbv; split; reflexivity).
    rewrite load_le_bits by nia.
    replace (8 * (ndx * (w / 8))) with (ndx * w) by nia.
    replace (8 * Z.of_nat (Z.to_nat (w / 8))) with w by lia.
    reflexivity.
Qed.

(** Lane [k] of the chunk loaded at byte offset [p] is the bit field of
    the element it overlays. *)
Lemma chunk_lane (w : Z) (data : list byte) (p k : Z) :
  0 < w -> 0 <= p -> 0 <= k -> w * k + w <= 64 ->
  lane w (load_le data p 8) k
  = Z.land (Z.shiftr (le_combine data) (8 * p + w * k)) (Z.ones w).
Proof.
  intros Hw Hp Hk Hin. unfold lane. rewrite load_le_bits by assumption.
  change (8 * Z.of_nat 8) with 64.
  assert (Hwk : 0 <= w * k) by nia.
  generalize dependent (w * k). intros wk Hin Hwk.
  blast_bits.
Qed.

Lemma get_w_chunk_lane (w : Z) (arr : Array) (p s k : Z) :
  supported_width w -> 0 < w -> 0 <= p -> 0 <= s -> 8 * p = s * w ->
  0 <= k -> w * k + w <= 64 ->
  get_w w arr (s + k) = decode w (lane w (load_le (data_of arr) p 8) k).
Proof.
  intros Hw Hpos Hp Hs Hal Hk Hin. unfold get_w.
  rewrite get_universal_bits by (try assumption; lia).
  rewrite chunk_lane by assumption.
  do 3 f_equal. lia.
Qed.

(** ** Match lists *)

Lemma zrange_app (i : Z) (n m : nat) :
  zrange i (n + m) = zrange i n ++ zrange (i + Z.of_nat n) m.
Proof.
  revert i; induction n as [| n IH]; intros i.
  - cbn. f_equal. lia.
  - cbn [Nat.add zrange app]. f_equal. rewrite IH. do 2 f_equal. lia.
Qed.

Lemma zrange_in (i : Z) (n : nat) (x : Z) :
  In x (zrange i n) <-> i <= x < i + Z.of_nat n.
Proof.
  revert i; induction n as [| n IH]; intros i; cbn [zrange In].
  - lia.
  - rewrite IH. lia.
Qed.

Lemma zrange_shift (s i : Z) (n : nat) :
  zrange (s + i) n = map (Z.add s) (zrange i n).
Proof.
  revert i; induction n as [| n IH]; intros i; cbn [zrange map]; [reflexivity |].
  f_equal. rewrite <- IH. f_equal. lia.
Qed.

Lemma matches_app (test : Z -> bool) (elem : Z -> Z) (base : Z) (l1 l2 : list Z) :
  matches test elem base (l1 ++ l2) = matches test elem base l1 ++ matches test elem base l2.
Proof. unfold matches. rewrite filter_app, map_app. reflexivity. Qed.

Lemma matches_ext (test test' : Z -> bool) (elem elem' : Z -> Z) (base : Z) (l : list Z) :
  (forall i, In i l -> elem i = elem' i) ->
  (forall i, In i l -> test (elem i) = test' (elem i)) ->
  matches test elem base l = matches test' elem' base l.
Proof.
  unfold matches. induction l as [| i rest IH]; intros He Ht; [reflexivity |].
  cbn [filter].
  assert (E1 : elem i = elem' i) by (apply He; left; reflexivity).
  assert (E2 : test (elem i) = test' (elem' i))
    by (rewrite <- E1; apply Ht; left; reflexivity).
  rewrite <- E2.
  destruct (test (elem i)); cbn [map]; rewrite IH by auto using in_cons;
    rewrite ?E1; reflexivity.
Qed.

Lemma matches_none (test : Z -> bool) (elem : Z -> Z) (base : Z) (l : list Z) :
  (forall i, In i l -> test (elem i) = false) -> matches test elem base l = [].
Proof.
  unfold matches. induction l as [| i rest IH]; intros Hn; [reflexivity |].
  cbn [filter]. rewrite Hn by (left; reflexivity). apply IH. auto using in_cons.
Qed.

Lemma matches_cons (test : Z -> bool) (elem : Z -> Z) (base : Z) (i : Z) (l : list Z) :
  matches test elem base (i :: l)
  = (if test (elem i) then [(i + base, elem i)] else []) ++ matches test elem base l.
Proof. unfold matches. cbn [filter]. destruct (test (elem i)); reflexivity. Qed.

(** Matches counted from the start of a chunk are the matches of the
    elements it overlays. *)
Lemma matches_shift (test : Z -> bool) (f g : Z -> Z) (s base i : Z) (n : nat) :
  (forall k, i <= k < i + Z.of_nat n -> f k = g (s + k)) ->
  matches test f (s + base) (zrange i n) = matches test g base (zrange (s + i) n).
Proof.
  revert i; induction n as [| n IH]; intros i Hfg; [reflexivity |].
  cbn [zrange]. rewrite !matches_cons. rewrite (Hfg i) by lia.
  replace (s + i + 1) with (s + (i + 1)) by lia.
  rewrite IH by (intros; apply Hfg; lia).
  replace (i + (s + base)) with (s + i + base) by lia. reflexivity.
Qed.

Section ScanFacts.
Context {St : Type} `{QueryStateBase St}.
Variable callback : option (Z -> St -> bool * St).
Variable shr_oversize : Z -> Z -> Z.

Local Abbreviation R := (report_to callback).

Lemma run_matches_app (l1 l2 : list (Z * Z)) (s : St) :
  run_matches R (l1 ++ l2) s
  = (let (c, s') := run_matches R l1 s in
     if c then run_matches R l2 s' else (false, s')).
Proof.
  revert s; induction l1 as [| [i v] rest IH]; intros s; cbn [app run_matches].
  - reflexivity.
  - destruct (R i v s) as [c s']. destruct c; [apply IH | reflexivity].
Qed.

Lemma naive_scan_run (c : Cond) (value : Z) (elem : Z -> Z) (base : Z)
      (l : list Z) (s : St) :
  naive_scan R c value elem base l s
  = run_matches R (matches (fun x => cond_holds c x value) elem base l) s.
Proof.
  revert s; induction l as [| i rest IH]; intros s; [reflexivity |].
  cbn [naive_scan]. rewrite matches_cons.
  destruct (cond_holds c (elem i) value); cbn [app run_matches].
  - destruct (R (i + base) (elem i) s) as [go s']. destruct go; [apply IH | reflexivity].
  - apply IH.
Qed.

Lemma find_action_report (index value : Z) (s : St) :
  find_action callback index value s = Some (R index value s).
Proof. unfold find_action, report_to. destruct callback; reflexivity. Qed.

Lemma find_action_single (index value : Z) (s : St) :
  find_action callback index value s = Some (run_matches R [(index, value)] s).
Proof.
  rewrite find_action_report. cbn [run_matches].
  destruct (R index value s) as [c s']. destruct c; reflexivity.
Qed.

(** Sequencing: a stage that delivers [l1] followed, unless stopped,
    by a stage that delivers [l2], delivers [l1 ++ l2]. *)
Lemma then_matches (m1 : M bool) (k : bool -> M bool) (l1 l2 : list (Z * Z)) (s : St) :
  m1 s = Some (run_matches R l1 s) ->
  (forall s', k false s' = Some (false, s')) ->
  (forall s', k true s' = Some (run_matches R l2 s')) ->
  bind m1 k s = Some (run_matches R (l1 ++ l2) s).
Proof.
  intros H1 Hf Ht. unfold bind. rewrite H1, run_matches_app.
  destruct (run_matches R l1 s) as [c s']. destruct c; [apply Ht | apply Hf].
Qed.

Lemma scan_elems_matches (test : Z -> bool) (w : Z) (arr : Array) (base : Z)
      (n : nat) (start : Z) (s : St) :
  scan_elems callback test w arr base n start s
  = Some (run_matches R (matches test (get_w w arr) base (zrange start n)) s).
Proof.
  revert start s; induction n as [| n IH]; intros start s; [reflexivity |].
  cbn [scan_elems zrange]. rewrite matches_cons.
  apply then_matches.
  - destruct (test (get_w w arr start)); [apply find_action_single | reflexivity].
  - reflexivity.
  - intros s'. apply IH.
Qed.

(** The unrolled lane loops of [find_gtlt]. *)
Lemma find_gtlt_lanes_matches (gt : bool) (v w : Z) (conv : Z -> Z) (chunk0 base : Z)
      (n : nat) (i chunk : Z) (s : St) :
  0 <= w -> 0 <= i -> chunk = Z.shiftr chunk0 (w * i) ->
  find_gtlt_lanes callback gt v w (Z.ones w) conv n i chunk base s
  = Some (run_matches R
            (matches (fun x => if gt then x >? v else x <? v)
                     (fun k => conv (lane w chunk0 k)) base (zrange i n)) s).
Proof.
  intros Hw. revert i chunk s; induction n as [| n IH]; intros i chunk s Hi ->;
    [reflexivity |].
  cbn [find_gtlt_lanes zrange]. rewrite matches_cons. fold (lane w chunk0 i).
  apply then_matches.
  - destruct (if gt then _ else _); [apply find_action_single | reflexivity].
  - reflexivity.
  - intros s'. apply IH; [lia |].
    rewrite Z.shiftr_shiftr by nia. f_equal. lia.
Qed.

End ScanFacts.

(** ** Words as sequences of lanes *)

Section Lanes.
Variable w : Z.
Hypothesis Hw : 0 < w.

Local Abbreviation B := (2 ^ w).

Lemma B_pos : 0 < B.
Proof. apply Z.pow_pos_nonneg; lia. Qed.

Lemma B_half : B = 2 * 2 ^ (w - 1).
Proof. rewrite <- Z.pow_succ_r by lia. f_equal. lia. Qed.

Lemma lane_div_mod (v k : Z) : 0 <= k -> lane w v k = (v / 2 ^ (w * k)) mod B.
Proof.
  intros Hk. unfold lane. rewrite Z.land_ones, Z.shiftr_div_pow2 by nia. reflexivity.
Qed.

Lemma lane_range (v k : Z) : 0 <= lane w v k < B.
Proof.
  unfold lane. rewrite Z.land_ones by lia. apply Z.mod_pos_bound. apply B_pos.
Qed.

Lemma lane_low (a y : Z) : 0 <= a < B -> lane w (a + B * y) 0 = a.
Proof.
  intros Ha. rewrite lane_div_mod by lia. rewrite Z.mul_0_r, Z.pow_0_r, Z.div_1_r.
  replace (a + B * y) with (a + y * B) by lia.
  rewrite Z.mod_add by lia. apply Z.mod_small. assumption.
Qed.

Lemma lane_next (a y k : Z) :
  0 <= a < B -> 0 <= k -> lane w (a + B * y) (k + 1) = lane w y k.
Proof.
  intros Ha Hk. rewrite !lane_div_mod by lia.
  replace (w * (k + 1)) with (w + w * k) by lia.
  rewrite Z.pow_add_r by nia.
  rewrite <- Z.div_div by (try apply Z.pow_pos_nonneg; nia).
  replace (a + B * y) with (a + y * B) by lia.
  rewrite Z.div_add by lia.
  rewrite (Z.div_small a) by assumption. rewrite Z.add_0_l. reflexivity.
Qed.

Lemma split_low (v : Z) : v = v mod B + B * (v / B).
Proof. pose proof (Z.div_mod v B). lia. Qed.

Lemma add_shift_lor (a y : Z) : 0 <= a < B -> a + B * y = Z.lor a (Z.shiftl y w).
Proof.
  intros Ha. rewrite Z.shiftl_mul_pow2 by lia. rewrite (Z.mul_comm B).
  symmetry. apply Z.or_to_plus.
  rewrite <- (Z.mod_small a B) by assumption.
  rewrite <- Z.land_ones, <- Z.shiftl_mul_pow2 by lia.
  blast_bits.
Qed.

Lemma land_in_lane (a b : Z) : 0 <= a < B -> 0 <= b < B -> 0 <= Z.land a b < B.
Proof.
  intros Ha Hb.
  assert (E : Z.land a b = Z.land a b mod B).
  { rewrite <- Z.land_ones by lia. rewrite <- Z.land_assoc.
    rewrite (Z.land_ones b), (Z.mod_small b) by lia. reflexivity. }
  rewrite E. apply Z.mod_pos_bound. apply B_pos.
Qed.

Lemma lor_in_lane (a b : Z) : 0 <= a < B -> 0 <= b < B -> 0 <= Z.lor a b < B.
Proof.
  intros Ha Hb.
  assert (E : Z.lor a b = Z.lor a b mod B).
  { rewrite <- Z.land_ones by lia. rewrite Z.land_lor_distr_l.
    rewrite !Z.land_ones, !Z.mod_small by lia. reflexivity. }
  rewrite E. apply Z.mod_pos_bound. apply B_pos.
Qed.

Lemma land_split (a a' b b' : Z) :
  0 <= a < B -> 0 <= b < B ->
  Z.land (a + B * a') (b + B * b') = Z.land a b + B * Z.land a' b'.
Proof.
  intros Ha Hb.
  rewrite !add_shift_lor by (try assumption; apply land_in_lane; assumption).
  rewrite <- (Z.mod_small a B), <- (Z.mod_small b B) by assumption.
  rewrite <- !Z.land_ones by lia.
  blast_bits.
Qed.

Lemma lor_split (a a' b b' : Z) :
  0 <= a < B -> 0 <= b < B ->
  Z.lor (a + B * a') (b + B * b') = Z.lor a b + B * Z.lor a' b'.
Proof.
  intros Ha Hb.
  rewrite !add_shift_lor by (try assumption; apply lor_in_lane; assumption).
  rewrite <- (Z.mod_small a B), <- (Z.mod_small b B) by assumption.
  rewrite <- !Z.land_ones by lia.
  blast_bits.
Qed.

Lemma pow_lanes_succ (n : nat) : B ^ Z.of_nat (S n) = B * B ^ Z.of_nat n.
Proof. rewrite Nat2Z.inj_succ, Z.pow_succ_r by lia. reflexivity. Qed.

Lemma pow_lanes_pos (n : nat) : 0 < B ^ Z.of_nat n.
Proof. apply Z.pow_pos_nonneg; [apply B_pos | lia]. Qed.

Lemma rep_range (n : nat) (c : Z) : 0 <= c < B -> 0 <= rep w n c < B ^ Z.of_nat n.
Proof.
  intros Hc. induction n as [| n IH].
  - cbn. lia.
  - cbn [rep]. rewrite pow_lanes_succ. pose proof B_pos. nia.
Qed.

Lemma lane_rep (n : nat) (c k : Z) :
  0 <= c < B -> 0 <= k < Z.of_nat n -> lane w (rep w n c) k = c.
Proof.
  intros Hc. revert k. induction n as [| n IH]; intros k Hk; [lia |].
  cbn [rep]. destruct (Z.eq_dec k 0) as [-> | Hne].
  - apply lane_low. assumption.
  - replace k with (k - 1 + 1) by lia. rewrite lane_next by lia. apply IH. lia.
Qed.

(** The top bit of a lane tells whether it is in the upper half. *)
Lemma land_top_bit (y : Z) :
  0 <= y < B -> Z.land y (2 ^ (w - 1)) = if y >=? 2 ^ (w - 1) then 2 ^ (w - 1) else 0.
Proof.
  intros Hy. pose proof B_half as Hh.
  assert (Hp : 0 < 2 ^ (w - 1)) by (apply Z.pow_pos_nonneg; lia).
  apply Z.bits_inj'. intros i Hi.
  rewrite Z.land_spec, Z.pow2_bits_eqb by lia.
  destruct (Z.eqb_spec (w - 1) i) as [<- | Hne].
  - rewrite andb_true_r.
    rewrite Z.testbit_eqb by lia.
    destruct (Z.geb_spec y (2 ^ (w - 1))).
    + rewrite Z.pow2_bits_true by lia.
      assert (y / 2 ^ (w - 1) = 1) by (Z.div_mod_to_equations; nia).
      replace (y / 2 ^ (w - 1)) with 1. reflexivity.
    + rewrite Z.bits_0. rewrite Z.div_small by lia. reflexivity.
  - rewrite andb_false_r.
    destruct (y >=? 2 ^ (w - 1)); [| rewrite Z.bits_0; reflexivity].
    rewrite Z.pow2_bits_false by lia. reflexivity.
Qed.

End Lanes.

(** ** The bit tricks, lane by lane *)

Section LaneTricks.
Variable w : Z.
Hypothesis Hw : 0 < w.

Local Abbreviation B := (2 ^ w).
Local Abbreviation Hf := (2 ^ (w - 1)).

Lemma half_pos : 0 < Hf.
Proof. apply Z.pow_pos_nonneg; lia. Qed.

Lemma mod_split (a y M : Z) :
  0 <= a < B -> 0 < M -> (a + B * y) mod (B * M) = a + B * (y mod M).
Proof.
  intros Ha HM. pose proof (B_pos w Hw).
  rewrite Z.rem_mul_r by lia.
  replace (a + B * y) with (a + y * B) by lia.
  rewrite Z.mod_add, Z.div_add by lia.
  rewrite Z.mod_small, Z.div_small by lia. reflexivity.
Qed.

Lemma split_range (c : Z) (n : nat) :
  0 <= c < B ^ Z.of_nat (S n) ->
  0 <= c mod B < B /\ 0 <= c / B < B ^ Z.of_nat n.
Proof.
  intros Hc. rewrite pow_lanes_succ in Hc. pose proof (B_pos w Hw).
  pose proof (pow_lanes_pos w Hw n).
  split; [apply Z.mod_pos_bound; lia |].
  split; [apply Z.div_pos; lia | apply Z.div_lt_upper_bound; lia].
Qed.

Lemma lane_of_split (c k : Z) :
  0 <= k -> lane w c (k + 1) = lane w (c / B) k.
Proof.
  intros Hk. pose proof (B_pos w Hw).
  rewrite (split_low w Hw c) at 1. apply lane_next; [assumption | | lia].
  apply Z.mod_pos_bound. lia.
Qed.

Lemma lane_zero_of_split (c : Z) : lane w c 0 = c mod B.
Proof.
  pose proof (B_pos w Hw).
  rewrite (split_low w Hw c) at 1. apply lane_low; [assumption |].
  apply Z.mod_pos_bound. lia.
Qed.

(** *** Greater-than by a carry into the top bit *)

Section Greater.
Variable v : Z.
Hypothesis Hv : 0 <= v <= Hf - 2.

Local Abbreviation g := (Hf - 1 - v).

Lemma gt_low_lane (x : Z) :
  0 <= x < Hf ->
  Z.land (Z.lor (x + g) x) Hf = if x >? v then Hf else 0.
Proof.
  intros Hx. pose proof (B_half w Hw). pose proof half_pos.
  rewrite Z.land_lor_distr_l.
  rewrite !(land_top_bit w Hw) by lia.
  destruct (Z.geb_spec x Hf); [lia |].
  rewrite Z.lor_0_r.
  destruct (Z.geb_spec (x + g) Hf), (Z.gtb_spec x v); try reflexivity; lia.
Qed.

Lemma gt_mask_lanes (n : nat) (c : Z) :
  0 <= c < B ^ Z.of_nat n ->
  (forall k, 0 <= k < Z.of_nat n -> lane w c k < Hf) ->
  c + rep w n g < B ^ Z.of_nat n /\
  0 <= Z.land (Z.lor (c + rep w n g) c) (rep w n Hf) < B ^ Z.of_nat n /\
  forall k, 0 <= k < Z.of_nat n ->
            lane w (Z.land (Z.lor (c + rep w n g) c) (rep w n Hf)) k
            = if lane w c k >? v then Hf else 0.
Proof.
  pose proof (B_half w Hw) as HB. pose proof half_pos as Hp.
  pose proof (B_pos w Hw) as HBp.
  revert c. induction n as [| n IH]; intros c Hc Hlanes.
  - cbn [rep]. change (Z.of_nat 0) with 0 in *. rewrite Z.pow_0_r in *.
    assert (c = 0) by lia. subst c. cbn. repeat split; try lia.
  - destruct (split_range c n Hc) as [Hx Hc'].
    set (x := c mod B) in *. set (c' := c / B) in *.
    assert (Ec : c = x + B * c') by apply (split_low w Hw).
    assert (Hxh : x < Hf).
    { unfold x. rewrite <- lane_zero_of_split. apply Hlanes. lia. }
    assert (Hl' : forall k, 0 <= k < Z.of_nat n -> lane w c' k < Hf).
    { intros k Hk. unfold c'. rewrite <- lane_of_split by lia. apply Hlanes. lia. }
    destruct (IH c' Hc' Hl') as (Hsum & Hm & Hlm).
    cbn [rep]. rewrite pow_lanes_succ.
    set (r := rep w n g) in *. set (h := rep w n Hf) in *.
    set (m' := Z.land (Z.lor (c' + r) c') h) in *.
    assert (Em : Z.land (Z.lor (c + (g + B * r)) c) (Hf + B * h)
                 = (if x >? v then Hf else 0) + B * m').
    { rewrite Ec at 1 2.
      replace (x + B * c' + (g + B * r)) with ((x + g) + B * (c' + r)) by lia.
      rewrite (lor_split w Hw) by lia.
      rewrite (land_split w Hw) by (try lia; apply (lor_in_lane w Hw); lia).
      rewrite gt_low_lane by lia. reflexivity. }
    rewrite Em.
    assert (Hlow : 0 <= (if x >? v then Hf else 0) < B)
      by (destruct (x >? v); lia).
    split; [nia |]. split; [nia |].
    intros k Hk. destruct (Z.eq_dec k 0) as [-> | Hne].
    + rewrite (lane_low w Hw) by assumption.
      rewrite lane_zero_of_split. reflexivity.
    + replace k with (k - 1 + 1) by lia.
      rewrite (lane_next w Hw) by lia.
      rewrite lane_of_split by lia. apply Hlm. lia.
Qed.

End Greater.

(** *** Detecting a zero lane *)

Lemma zero_probe_nonneg (n : nat) (v : Z) : 0 <= zero_probe w n v.
Proof.
  unfold zero_probe. apply Z.land_nonneg. right.
  pose proof (B_half w Hw). pose proof half_pos.
  apply (rep_range w Hw). lia.
Qed.

Lemma land3_top (a b : Z) :
  0 <= a < B -> 0 <= b < B ->
  Z.land (Z.land a b) Hf
  = if (a >=? Hf) && (b >=? Hf) then Hf else 0.
Proof.
  intros Ha Hb.
  replace (Z.land (Z.land a b) Hf) with (Z.land (Z.land a Hf) (Z.land b Hf)).
  - rewrite !(land_top_bit w Hw) by assumption.
    destruct (a >=? Hf), (b >=? Hf); cbn [andb];
      rewrite ?Z.land_0_l, ?Z.land_0_r, ?Z.land_diag; reflexivity.
  - rewrite <- (Z.land_diag Hf) at 3. 
    rewrite !Z.land_assoc. f_equal.
    rewrite <- !Z.land_assoc. f_equal. apply Z.land_comm.
Qed.

Lemma zero_probe_step (n : nat) (v : Z) :
  0 <= v < B ^ Z.of_nat (S n) ->
  (v mod B <> 0 -> zero_probe w (S n) v = B * zero_probe w n (v / B)) /\
  (v mod B = 0 -> Hf <= zero_probe w (S n) v).
Proof.
  intros Hv. pose proof (B_half w Hw) as HB. pose proof half_pos as Hp.
  pose proof (B_pos w Hw) as HBp. pose proof (pow_lanes_pos w Hw n) as HM.
  destruct (split_range v n Hv) as [Hx Hv'].
  set (x := v mod B) in *. set (v' := v / B) in *.
  assert (Ev : v = x + B * v') by apply (split_low w Hw).
  assert (Elnot : Z.lnot v = (B - 1 - x) + B * Z.lnot v').
  { unfold Z.lnot. rewrite Ev at 1. rewrite <- !Z.sub_1_r. lia. }
  unfold zero_probe. cbn [rep]. rewrite pow_lanes_succ.
  rewrite Elnot. rewrite (mod_split (B - 1 - x)) by lia.
  split; intros Hx0.
  - replace (v - (1 + B * rep w n 1)) with ((x - 1) + B * (v' - rep w n 1)) by lia.
    rewrite mod_split by lia.
    rewrite !(land_split w Hw) by (try lia; apply (land_in_lane w Hw); lia).
    rewrite land3_top by lia.
    destruct (Z.geb_spec (x - 1) Hf), (Z.geb_spec (B - 1 - x) Hf); cbn [andb]; lia.
  - replace (v - (1 + B * rep w n 1)) with ((B - 1) + B * (v' - rep w n 1 - 1)) by lia.
    rewrite mod_split by lia.
    rewrite !(land_split w Hw) by (try lia; apply (land_in_lane w Hw); lia).
    rewrite land3_top by lia. rewrite Hx0.
    destruct (Z.geb_spec (B - 1) Hf), (Z.geb_spec (B - 1 - 0) Hf); cbn [andb]; try lia.
    assert (0 <= Z.land (Z.land ((v' - rep w n 1 - 1) mod B ^ Z.of_nat n)
                                (Z.lnot v' mod B ^ Z.of_nat n)) (rep w n Hf)).
    { apply Z.land_nonneg. right. apply (rep_range w Hw). lia. }
    nia.
Qed.

Lemma zero_probe_lanes (n : nat) (v : Z) :
  0 <= v < B ^ Z.of_nat n ->
  (zero_probe w n v <> 0 <-> exists k, 0 <= k < Z.of_nat n /\ lane w v k = 0).
Proof.
  pose proof (B_pos w Hw) as HBp. pose proof half_pos as Hp.
  revert v. induction n as [| n IH]; intros v Hv.
  - split.
    + intros Hne. exfalso. apply Hne. unfold zero_probe. cbn [rep].
      apply Z.land_0_r.
    + intros (k & Hk & _). lia.
  - destruct (zero_probe_step n v Hv) as [Hnz Hz].
    destruct (split_range v n Hv) as [Hx Hv'].
    destruct (Z.eq_dec (v mod B) 0) as [E0 | N0].
    + split.
      * intros _. exists 0. split; [lia |]. rewrite lane_zero_of_split. exact E0.
      * intros _. specialize (Hz E0). lia.
    + rewrite (Hnz N0). specialize (IH (v / B) Hv').
      split.
      * intros Hne. assert (zero_probe w n (v / B) <> 0) as Hne' by lia.
        apply IH in Hne' as (k & Hk & Hl).
        exists (k + 1). split; [lia |]. rewrite lane_of_split by lia. exact Hl.
      * intros (k & Hk & Hl).
        destruct (Z.eq_dec k 0) as [-> | Hk0].
        { rewrite lane_zero_of_split in Hl. contradiction. }
        assert (zero_probe w n (v / B) <> 0) as Hne'; [| lia].
        apply IH. exists (k - 1). split; [lia |].
        rewrite <- lane_of_split by lia. replace (k - 1 + 1) with k by lia. exact Hl.
Qed.

End LaneTricks.

(** ** The constants of the engine, per width *)

Ltac each_lane_width H :=
  destruct H as [-> | [-> | [-> | [-> | [-> | [-> | ->]]]]]].

Lemma lane_width_pos (w : Z) : lane_width w -> 0 < w.
Proof. intros H. each_lane_width H; lia. Qed.

Lemma lane_width_lanes (w : Z) :
  lane_width w -> w * (64 / w) = 64 /\ 0 < 64 / w /\ Z.of_nat (lanes_of w) = 64 / w.
Proof. intros H. each_lane_width H; cbv; intuition congruence. Qed.

Lemma lane_width_pow (w : Z) : lane_width w -> (2 ^ w) ^ Z.of_nat (lanes_of w) = 2 ^ 64.
Proof. intros H. each_lane_width H; reflexivity. Qed.

Lemma lower_bits_rep (w : Z) :
  lane_width w -> to_u64 (lower_bits w) = rep w (lanes_of w) 1.
Proof. intros H. each_lane_width H; vm_compute; reflexivity. Qed.

Lemma upper_bits_rep (w : Z) :
  lane_width w ->
  to_u64 (Z.shiftl (to_u64 (lower_bits w) * 1) (if w =? 0 then 0 else w - 1))
  = rep w (lanes_of w) (2 ^ (w - 1)).
Proof. intros H. each_lane_width H; vm_compute; reflexivity. Qed.

Lemma width_mask_ones (w : Z) : lane_width w -> width_mask w = Z.ones w.
Proof. intros H. each_lane_width H; vm_compute; reflexivity. Qed.

Lemma lane_unit_rep (w : Z) :
  lane_width w -> Z.ones 64 / no0 (width_mask w) = rep w (lanes_of w) 1.
Proof. intros H. each_lane_width H; vm_compute; reflexivity. Qed.

Lemma no0_width (w : Z) : lane_width w -> no0 w = w.
Proof. intros H. each_lane_width H; reflexivity. Qed.

Lemma supported_lane_width (w : Z) : supported_width w -> w <> 0 -> lane_width w.
Proof.
  unfold supported_width, supported_widths, lane_width. cbn [In]. intuition lia.
Qed.

Lemma lane_width_supported (w : Z) : lane_width w -> supported_width w.
Proof.
  unfold supported_width, supported_widths, lane_width. cbn [In]. intuition lia.
Qed.

(** ** Lanes of 64-bit words *)

Lemma lane_shiftr (w v a k : Z) :
  0 <= w -> 0 <= a -> 0 <= k -> lane w (Z.shiftr v (w * a)) k = lane w v (a + k).
Proof.
  intros Hw Ha Hk. unfold lane. rewrite Z.shiftr_shiftr by nia.
  do 2 f_equal. lia.
Qed.

Lemma lane_beyond (w v k : Z) :
  0 <= w -> 0 <= v < 2 ^ 64 -> 64 <= w * k -> lane w v k = 0.
Proof.
  intros Hw Hv Hk. unfold lane.
  rewrite Z.shiftr_div_pow2 by lia.
  rewrite Z.div_small; [apply Z.land_0_l |].
  assert (2 ^ 64 <= 2 ^ (w * k)) by (apply Z.pow_le_mono_r; lia). lia.
Qed.

Lemma lane_zero_word (w k : Z) : lane w 0 k = 0.
Proof. unfold lane. rewrite Z.shiftr_0_l. apply Z.land_0_l. Qed.

Lemma shiftr_u64 (v n : Z) : 0 <= v < 2 ^ 64 -> 0 <= n -> 0 <= Z.shiftr v n < 2 ^ 64.
Proof.
  intros Hv Hn. rewrite Z.shiftr_div_pow2 by assumption.
  assert (0 < 2 ^ n) by (apply Z.pow_pos_nonneg; lia).
  split; [apply Z.div_pos; lia |].
  apply Z.div_lt_upper_bound; nia.
Qed.

(** A word all of whose lanes are zero is zero. *)
Lemma all_lanes_zero (w v : Z) :
  0 < w -> 0 <= v -> (forall k, 0 <= k -> lane w v k = 0) -> v = 0.
Proof.
  intros Hw Hv Hall. apply Z.bits_inj'. intros i Hi. rewrite Z.bits_0.
  pose proof (Hall (i / w) ltac:(apply Z.div_pos; lia)) as Hl.
  apply (f_equal (fun x => Z.testbit x (i mod w))) in Hl.
  rewrite Z.bits_0 in Hl. unfold lane in Hl.
  pose proof (Z.mod_pos_bound i w Hw).
  rewrite Z.land_spec, Z.shiftr_spec in Hl by lia.
  rewrite Z.testbit_ones_nonneg in Hl by lia.
  replace (i mod w + w * (i / w)) with i in Hl by (pose proof (Z.div_mod i w); lia).
  destruct (Z.ltb_spec (i mod w) w); [| lia].
  rewrite andb_true_r in Hl. exact Hl.
Qed.

Lemma nonzero_has_lane (w v : Z) :
  lane_width w -> 0 < v < 2 ^ 64 -> exists k, 0 <= k < 64 / w /\ lane w v k <> 0.
Proof.
  intros Hlw Hv. pose proof (lane_width_pos w Hlw) as Hw.
  destruct (lane_width_lanes w Hlw) as (HL & HLp & _).
  assert (Hdec : forall n : nat,
             (exists k, 0 <= k < Z.of_nat n /\ lane w v k <> 0) \/
             (forall k, 0 <= k < Z.of_nat n -> lane w v k = 0)).
  { induction n as [| n [IH | IH]].
    - right. intros; lia.
    - left. destruct IH as (k & Hk & Hl). exists k. split; [lia | assumption].
    - destruct (Z.eq_dec (lane w v (Z.of_nat n)) 0) as [E | N].
      + right. intros k Hk. destruct (Z.eq_dec k (Z.of_nat n)) as [-> | ?];
          [assumption | apply IH; lia].
      + left. exists (Z.of_nat n). split; [lia | assumption]. }
  destruct (Hdec (Z.to_nat (64 / w))) as [(k & Hk & Hl) | Hnone].
  - exists k. split; [lia | assumption].
  - exfalso. assert (v = 0); [| lia].
    apply (all_lanes_zero w); try lia.
    intros k Hk. destruct (Z_lt_dec k (64 / w)).
    + apply Hnone. lia.
    + apply lane_beyond; try lia. nia.
Qed.

(** The least index below [n] that passes a test, when one does. *)
Lemma least_index (P : Z -> bool) (n : nat) :
  (exists k, 0 <= k < Z.of_nat n /\ P k = true) ->
  exists t, 0 <= t < Z.of_nat n /\ P t = true /\ forall k, 0 <= k < t -> P k = false.
Proof.
  induction n as [| n IH]; intros (k & Hk & HP); [lia |].
  destruct (Z.eq_dec k (Z.of_nat n)) as [-> | Hne].
  - assert (Hdec : (exists j, 0 <= j < Z.of_nat n /\ P j = true) \/
                   (forall j, 0 <= j < Z.of_nat n -> P j = false)).
    { clear IH HP Hk. induction n as [| m [IHm | IHm]].
      - right. intros; lia.
      - left. destruct IHm as (j & Hj & Hp). exists j. split; [lia | assumption].
      - destruct (P (Z.of_nat m)) eqn:E.
        + left. exists (Z.of_nat m). split; [lia | assumption].
        + right. intros j Hj. destruct (Z.eq_dec j (Z.of_nat m)) as [-> | ?];
            [assumption | apply IHm; lia]. }
    destruct Hdec as [Hex | Hnone].
    + destruct (IH Hex) as (t & Ht & HPt & Hmin). exists t. repeat split; try lia; assumption.
    + exists (Z.of_nat n). repeat split; try lia; try assumption.
  - destruct IH as (t & Ht & HPt & Hmin).
    + exists k. split; [lia | assumption].
    + exists t. repeat split; try lia; assumption.
Qed.

(** ** [test_zero] *)

Lemma test_zero_spec (w v : Z) :
  lane_width w -> 0 <= v < 2 ^ 64 ->
  (test_zero w v = true <-> exists k, 0 <= k < 64 / w /\ lane w v k = 0).
Proof.
  intros Hlw Hv. pose proof (lane_width_pos w Hlw) as Hw.
  destruct (lane_width_lanes w Hlw) as (HL & HLp & HLn).
  unfold test_zero.
  rewrite (upper_bits_rep w Hlw), (lower_bits_rep w Hlw).
  unfold to_u64. rewrite <- (lane_width_pow w Hlw).
  fold (zero_probe w (lanes_of w) v).
  rewrite <- HLn. rewrite <- (zero_probe_lanes w Hw (lanes_of w) v)
    by (rewrite (lane_width_pow w Hlw); assumption).
  rewrite negb_true_iff, Z.eqb_neq. reflexivity.
Qed.

(** ** [find_zero] *)

Lemma lane_hit_first (eq : bool) (x : Z) : Bool.eqb eq (x =? 0) = lane_hit eq x.
Proof. unfold lane_hit. destruct eq, (x =? 0); reflexivity. Qed.

Lemma lane_hit_loop (eq : bool) (x : Z) :
  Bool.eqb eq (negb (x =? 0)) = negb (lane_hit eq x).
Proof. unfold lane_hit. destruct eq, (x =? 0); reflexivity. Qed.

Lemma lor_u64 (a b : Z) : 0 <= a < 2 ^ 64 -> 0 <= b < 2 ^ 64 -> 0 <= Z.lor a b < 2 ^ 64.
Proof.
  intros Ha Hb.
  pose proof (lor_in_lane 64 ltac:(lia) a b Ha Hb). assumption.
Qed.

Lemma lane_lor_high (w v bits k : Z) :
  0 <= w -> 0 <= k -> 0 <= bits <= 64 -> w * k + w <= bits ->
  lane w (Z.lor v (Z.shiftl (Z.ones (64 - bits)) bits)) k = lane w v k.
Proof.
  intros Hw Hk Hbits Hin. unfold lane.
  assert (Hwk : 0 <= w * k) by nia.
  remember (w * k) as wk eqn:Ewk. clear Ewk.
  blast_bits.
Qed.

Lemma lane_land_low (w v bits k : Z) :
  0 <= w -> 0 <= k -> 0 <= bits -> w * k + w <= bits ->
  lane w (Z.land v (Z.ones bits)) k = lane w v k.
Proof.
  intros Hw Hk Hbits Hin. unfold lane.
  assert (Hwk : 0 <= w * k) by nia.
  remember (w * k) as wk eqn:Ewk. clear Ewk.
  blast_bits.
Qed.

(** The bisection tests of [find_zero] are sound: when one says that the
    low [bits] bits hold no hit, they hold none. *)
Lemma bisect_sound (eq : bool) (w v bits : Z) :
  lane_width w -> 0 <= bits <= 64 -> 0 <= v < 2 ^ 64 ->
  (if eq then negb (test_zero w (Z.lor v (Z.shiftl (Z.ones (64 - bits)) bits)))
   else Z.land v (Z.ones bits) =? 0) = true ->
  forall k, 0 <= k -> w * k + w <= bits -> lane_hit eq (lane w v k) = false.
Proof.
  intros Hlw Hbits Hv Htest k Hk Hin. pose proof (lane_width_pos w Hlw) as Hw.
  destruct (lane_width_lanes w Hlw) as (HL & HLp & _).
  destruct eq; unfold lane_hit.
  - apply negb_true_iff in Htest.
    assert (HM : 0 <= Z.shiftl (Z.ones (64 - bits)) bits < 2 ^ 64).
    { rewrite Z.shiftl_mul_pow2, Z.ones_equiv by lia.
      assert (0 < 2 ^ bits) by (apply Z.pow_pos_nonneg; lia).
      assert (0 < 2 ^ (64 - bits)) by (apply Z.pow_pos_nonneg; lia).
      assert (2 ^ (64 - bits) * 2 ^ bits = 2 ^ 64)
        by (rewrite <- Z.pow_add_r by lia; f_equal; lia).
      nia. }
    pose proof (lor_u64 _ _ Hv HM) as Hu.
    destruct (Z.eqb_spec (lane w v k) 0) as [E | ?]; [| reflexivity].
    exfalso.
    assert (test_zero w (Z.lor v (Z.shiftl (Z.ones (64 - bits)) bits)) = true) as Ht;
      [| congruence].
    apply test_zero_spec; try assumption.
    exists k. split; [nia |].
    rewrite lane_lor_high by lia. exact E.
  - apply Z.eqb_eq in Htest.
    rewrite <- (lane_land_low w v bits k) by lia.
    rewrite Htest, lane_zero_word. reflexivity.
Qed.

Section FindZero.
Variable shr_oversize : Z -> Z -> Z.

Lemma shr64_small (x n : Z) : n < 64 -> shr64 shr_oversize x n = Z.shiftr x n.
Proof. intros Hn. unfold shr64. destruct (Z.ltb_spec n 64); [reflexivity | lia]. Qed.

Lemma find_zero_loop_spec (eq : bool) (w v : Z) (d : nat) :
  forall (fuel : nat) (start t : Z),
    0 < w -> 0 <= start -> t = start + Z.of_nat d -> w * t < 64 ->
    lane_hit eq (lane w v t) = true ->
    (forall k, start <= k < t -> lane_hit eq (lane w v k) = false) ->
    (d < fuel)%nat ->
    find_zero_loop shr_oversize fuel eq w (Z.ones w) v start = Some t.
Proof.
  induction d as [| d IH]; intros fuel start t Hw Hs Ht Hlt Hhit Hmiss Hfuel;
    (destruct fuel as [| fuel]; [lia |]); cbn [find_zero_loop].
  - replace t with start in * by lia.
    rewrite shr64_small by lia. fold (lane w v start).
    rewrite lane_hit_loop, Hhit. reflexivity.
  - rewrite shr64_small by nia. fold (lane w v start).
    rewrite lane_hit_loop, Hmiss by lia. cbn [negb].
    destruct (Z.leb_spec start 64); [| nia].
    apply IH; try assumption; try lia.
    intros k Hk. apply Hmiss. lia.
Qed.

Lemma find_zero_spec (eq : bool) (w v : Z) :
  lane_width w -> 0 <= v < 2 ^ 64 ->
  (exists k, 0 <= k < 64 / w /\ lane_hit eq (lane w v k) = true) ->
  exists t, find_zero shr_oversize eq w v = Some t /\
            0 <= t < 64 / w /\
            lane_hit eq (lane w v t) = true /\
            forall k, 0 <= k < t -> lane_hit eq (lane w v k) = false.
Proof.
  intros Hlw Hv Hex. pose proof (lane_width_pos w Hlw) as Hw.
  destruct (lane_width_lanes w Hlw) as (HL & HLp & HLn).
  destruct (least_index (fun k => lane_hit eq (lane w v k)) (lanes_of w))
    as (t & Ht & Hhit & Hmin).
  { destruct Hex as (k & Hk & Hh). exists k. split; [lia | assumption]. }
  exists t. split; [| repeat split; try lia; assumption].
  unfold find_zero. rewrite (width_mask_ones w Hlw).
  rewrite Z.mul_0_r. rewrite shr64_small by lia.
  replace (Z.shiftr v 0) with (Z.shiftr v (w * 0)) by (f_equal; lia).
  fold (lane w v 0). rewrite lane_hit_first.
  destruct (lane_hit eq (lane w v 0)) eqn:H0.
  { f_equal. destruct (Z.eq_dec t 0) as [-> | Hne]; [reflexivity |].
    rewrite Hmin in H0 by lia. discriminate. }
  change 0xffffffff00000000 with (Z.shiftl (Z.ones (64 - 32)) 32).
  change 0xffff000000000000 with (Z.shiftl (Z.ones (64 - 48)) 48).
  change 0xffffffffffff0000 with (Z.shiftl (Z.ones (64 - 16)) 16).
  change 0x00000000ffffffff with (Z.ones 32).
  change 0x0000ffffffffffff with (Z.ones 48).
  change 0x000000000000ffff with (Z.ones 16).
  assert (Hbelow : forall bits, 0 <= bits <= 64 ->
             (if eq then negb (test_zero w (Z.lor v (Z.shiftl (Z.ones (64 - bits)) bits)))
              else Z.land v (Z.ones bits) =? 0) = true ->
             bits < w * t + w).
  { intros bits Hb Htest.
    destruct (Z_lt_dec bits (w * t + w)) as [? | Hge]; [assumption |].
    rewrite (bisect_sound eq w v bits Hlw Hb Hv Htest t) in Hhit by lia.
    discriminate. }
  pose proof (Hbelow 32 ltac:(lia)) as B32.
  pose proof (Hbelow 48 ltac:(lia)) as B48.
  pose proof (Hbelow 16 ltac:(lia)) as B16.
  clear Hbelow.
  assert (H8 : (w <=? 8) = true -> w * (64 / w / 2) = 32).
  { clear - Hlw. intros H. destruct (Z.leb_spec w 8); [| discriminate].
    each_lane_width Hlw; try lia; reflexivity. }
  assert (H4 : (w <=? 4) = true -> w * (64 / w / 4) = 16).
  { clear - Hlw. intros H. destruct (Z.leb_spec w 4); [| discriminate].
    each_lane_width Hlw; try lia; reflexivity. }
  assert (Hq : 0 <= 64 / w / 2 /\ 0 <= 64 / w / 4).
  { split; apply Z.div_pos; try lia; apply Z.div_pos; lia. }
  rewrite (no0_width w Hlw).
  set (c32 := if eq then negb (test_zero w (Z.lor v (Z.shiftl (Z.ones (64 - 32)) 32)))
              else Z.land v (Z.ones 32) =? 0) in *.
  set (c48 := if eq then negb (test_zero w (Z.lor v (Z.shiftl (Z.ones (64 - 48)) 48)))
              else Z.land v (Z.ones 48) =? 0) in *.
  set (c16 := if eq then negb (test_zero w (Z.lor v (Z.shiftl (Z.ones (64 - 16)) 16)))
              else Z.land v (Z.ones 16) =? 0) in *.
  match goal with
  | |- find_zero_loop _ _ _ _ _ _ ?st = _ =>
      assert (Hst : 0 <= st <= t); [| set (st0 := st) in *]
  end.
  { destruct (w <=? 8); [specialize (H8 eq_refl) | lia].
    destruct (w <=? 4); [specialize (H4 eq_refl) |];
      destruct c32; try specialize (B32 eq_refl);
      try (destruct c48; try specialize (B48 eq_refl));
      try (destruct c16; try specialize (B16 eq_refl)); nia. }
  apply (find_zero_loop_spec eq w v (Z.to_nat (t - st0))); try lia; try assumption.
  - nia.
  - intros k Hk. apply Hmin. lia.
  - assert (64 / w <= 64) by nia. lia.
Qed.

End FindZero.

(** ** [first_set_bit64] *)

Lemma first_set_from_spec (v : Z) (n : nat) :
  forall i, 0 <= i ->
    (exists j, i <= j < i + Z.of_nat n /\ Z.testbit v j = true) ->
    i <= first_set_from n i v < i + Z.of_nat n /\
    Z.testbit v (first_set_from n i v) = true /\
    forall j, i <= j < first_set_from n i v -> Z.testbit v j = false.
Proof.
  induction n as [| n IH]; intros i Hi (j & Hj & Hb); [lia |].
  cbn [first_set_from]. destruct (Z.testbit v i) eqn:E.
  - repeat split; try lia. assumption.
  - destruct (IH (i + 1) ltac:(lia)) as (Hr & Ht & Hmin).
    { exists j. split; [| assumption].
      destruct (Z.eq_dec j i) as [-> | ?]; [congruence | lia]. }
    repeat split; try lia; try assumption.
    intros k Hk. destruct (Z.eq_dec k i) as [-> | ?]; [assumption | apply Hmin; lia].
Qed.

(** The lowest set bit lies in the first non-zero lane. *)
Lemma first_lane (w m : Z) :
  0 < w -> 0 < m < 2 ^ 64 ->
  0 <= first_set_bit64 m / w /\
  w * (first_set_bit64 m / w) < 64 /\
  lane w m (first_set_bit64 m / w) <> 0 /\
  forall k, 0 <= k < first_set_bit64 m / w -> lane w m k = 0.
Proof.
  intros Hw Hm. unfold first_set_bit64. rewrite to_u64_small by lia.
  destruct (first_set_from_spec m 64 0 ltac:(lia)) as (Hr & Ht & Hmin).
  { exists (Z.log2 m). split.
    - pose proof (Z.log2_nonneg m). 
      assert (Z.log2 m < 64) by (apply Z.log2_lt_pow2; lia). lia.
    - apply Z.bit_log2. lia. }
  set (r := first_set_from 64 0 m) in *.
  assert (Hdm : r = w * (r / w) + r mod w) by (apply Z.div_mod; lia).
  pose proof (Z.mod_pos_bound r w Hw) as Hmod.
  assert (0 <= r / w) by (apply Z.div_pos; lia).
  repeat split; try lia.
  - intros Hl. apply (f_equal (fun x => Z.testbit x (r mod w))) in Hl.
    unfold lane in Hl. rewrite Z.bits_0 in Hl.
    rewrite Z.land_spec, Z.shiftr_spec, Z.testbit_ones_nonneg in Hl by lia.
    replace (r mod w + w * (r / w)) with r in Hl by lia.
    rewrite Ht in Hl. destruct (Z.ltb_spec (r mod w) w); [discriminate | lia].
  - intros k Hk. apply Z.bits_inj'. intros i Hi. rewrite Z.bits_0.
    unfold lane. rewrite Z.land_spec, Z.shiftr_spec by lia.
    destruct (Z_lt_dec i w) as [Hlt | Hge].
    + rewrite Hmin by nia. reflexivity.
    + rewrite Z.testbit_ones_nonneg by lia.
      destruct (Z.ltb_spec i w); [lia |]. apply andb_false_r.
Qed.

(** ** The inner loops over one chunk *)

Lemma shiftr_beyond (v n : Z) : 0 <= v < 2 ^ 64 -> 64 <= n -> Z.shiftr v n = 0.
Proof.
  intros Hv Hn. rewrite Z.shiftr_div_pow2 by lia. apply Z.div_small.
  assert (2 ^ 64 <= 2 ^ n) by (apply Z.pow_le_mono_r; lia). lia.
Qed.

(** The loop condition of the equality scan tells whether a lane is
    left that marks a match. *)
Lemma chunk_cond_spec (eq : bool) (w v2 : Z) :
  lane_width w -> 0 <= v2 < 2 ^ 64 ->
  ((if eq then test_zero w v2 else negb (v2 =? 0)) = true <->
   exists j, 0 <= j < 64 / w /\ lane_hit eq (lane w v2 j) = true).
Proof.
  intros Hlw Hv. unfold lane_hit. destruct eq.
  - rewrite (test_zero_spec w v2 Hlw Hv).
    split; intros (j & Hj & Hl); exists j; (split; [assumption |]).
    + apply Z.eqb_eq. assumption.
    + apply Z.eqb_eq. assumption.
  - rewrite negb_true_iff, Z.eqb_neq. split.
    + intros Hne. destruct (nonzero_has_lane w v2 Hlw ltac:(lia)) as (j & Hj & Hl).
      exists j. split; [assumption |]. apply negb_true_iff, Z.eqb_neq. assumption.
    + intros (j & Hj & Hl) ->. rewrite lane_zero_word in Hl. discriminate.
Qed.

Section ChunkLoops.
Context {St : Type} `{QueryStateBase St}.
Variable callback : option (Z -> St -> bool * St).
Variable shr_oversize : Z -> Z -> Z.
Hypothesis shr_oversize_range : forall x n, 0 <= shr_oversize x n < 2 ^ 64.

Local Abbreviation R := (report_to callback).

Lemma pattern_not_consumed {T : Type} (index pattern : Z) (k : bool -> M T) (s : St) :
  bind (pattern_consumed index pattern) k s = k false s.
Proof. reflexivity. Qed.

Section OneChunk.
Variable w : Z.
Variable arr : Array.
Variable start base : Z.
Variable test : Z -> bool.
Hypothesis Hlw : lane_width w.

Local Abbreviation L := (64 / w).

(** The rest of a chunk holds no match when no lane from [a] on
    marks one. *)
Lemma rest_of_chunk_empty (hit : Z -> bool) (a : Z) :
  0 <= a ->
  (forall k, 0 <= k < L -> hit k = test (get_w w arr (start + k))) ->
  (forall k, a <= k < L -> hit k = false) ->
  matches test (get_w w arr) base (zrange (start + a) (Z.to_nat (L - a))) = [].
Proof.
  intros Ha Hhit Hnone. apply matches_none. intros i Hi.
  apply zrange_in in Hi.
  replace i with (start + (i - start)) by lia.
  rewrite <- Hhit by lia. apply Hnone. lia.
Qed.

(** Up to the first match at lane [a + t], then the rest. *)
Lemma chunk_split_at (hit : Z -> bool) (a t : Z) :
  0 <= a -> 0 <= t -> a + t < L ->
  (forall k, 0 <= k < L -> hit k = test (get_w w arr (start + k))) ->
  (forall k, a <= k < a + t -> hit k = false) ->
  hit (a + t) = true ->
  matches test (get_w w arr) base (zrange (start + a) (Z.to_nat (L - a)))
  = [(a + t + start + base, get_w w arr (start + (a + t)))]
      ++ matches test (get_w w arr) base
           (zrange (start + (a + t + 1)) (Z.to_nat (L - (a + t + 1)))).
Proof.
  intros Ha Ht Hin Hhit Hmiss Hfirst.
  replace (Z.to_nat (L - a))
    with (Z.to_nat t + S (Z.to_nat (L - (a + t + 1))))%nat by lia.
  rewrite zrange_app, matches_app. cbn [zrange]. rewrite matches_cons.
  rewrite (matches_none test _ base (zrange (start + a) (Z.to_nat t))).
  - cbn [app]. replace (start + a + Z.of_nat (Z.to_nat t)) with (start + (a + t)) by lia.
    rewrite <- Hhit by lia. rewrite Hfirst.
    replace (start + (a + t) + base) with (a + t + start + base) by lia.
    replace (start + (a + t) + 1) with (start + (a + t + 1)) by lia.
    reflexivity.
  - intros i Hi. apply zrange_in in Hi.
    replace i with (start + (i - start)) by lia.
    rewrite <- Hhit by lia. apply Hmiss. lia.
Qed.

(** *** The equality scan of one chunk *)
Section Equality.
Variable eq : bool.
Variable V : Z.
Hypothesis HV : 0 <= V < 2 ^ 64.
Hypothesis Hlane :
  forall k, 0 <= k < L -> lane_hit eq (lane w V k) = test (get_w w arr (start + k)).

Lemma equality_chunk_matches (fuel : nat) :
  forall (a v2 : Z) (s : St),
    0 <= a <= L -> 0 <= v2 < 2 ^ 64 ->
    (a < L -> v2 = Z.shiftr V (w * a)) ->
    (Z.to_nat (L - a) < fuel)%nat ->
    equality_chunk callback shr_oversize fuel eq w arr start base v2 a s
    = Some (run_matches R
              (matches test (get_w w arr) base
                       (zrange (start + a) (Z.to_nat (L - a)))) s).
Proof.
  pose proof (lane_width_pos w Hlw) as Hw.
  destruct (lane_width_lanes w Hlw) as (HL & HLp & _).
  induction fuel as [| fuel IH]; intros a v2 s Ha Hv2 Hinv Hfuel; [lia |].
  cbn [equality_chunk].
  pose proof (chunk_cond_spec eq w v2 Hlw Hv2) as Hcond.
  assert (Hrel : forall k, a <= k < L ->
                           lane_hit eq (lane w V k) = lane_hit eq (lane w v2 (k - a))).
  { intros k Hk. rewrite Hinv by lia. rewrite lane_shiftr by lia.
    do 2 f_equal. lia. }
  destruct (if eq then test_zero w v2 else negb (v2 =? 0)) eqn:Ec.
  - destruct (proj1 Hcond eq_refl) as (j0 & Hj0 & Hh0).
    destruct (find_zero_spec shr_oversize eq w v2 Hlw Hv2)
      as (t & Hfz & Ht & Hhit & Hmin).
    { exists j0. split; assumption. }
    rewrite pattern_not_consumed. cbn beta iota. rewrite Hfz.
    rewrite (no0_width w Hlw).
    destruct (Z.geb_spec (a + t) L) as [Hge | Hlt].
    + rewrite (rest_of_chunk_empty (fun k => lane_hit eq (lane w V k)) a);
        try assumption; try lia; [reflexivity |].
      intros k Hk. rewrite Hrel by assumption. apply Hmin. lia.
    + rewrite (chunk_split_at (fun k => lane_hit eq (lane w V k)) a t);
        try assumption; try lia.
      * apply then_matches.
        -- apply find_action_single.
        -- reflexivity.
        -- intros s'. apply IH; try lia.
           ++ destruct (Z_lt_dec ((t + 1) * w) 64).
              ** rewrite shr64_small by assumption. apply shiftr_u64; [assumption | nia].
              ** unfold shr64. destruct (Z.ltb_spec ((t + 1) * w) 64); [lia |].
                 apply shr_oversize_range.
           ++ intros Hnext. rewrite shr64_small by nia.
              rewrite Hinv by lia. rewrite Z.shiftr_shiftr by nia.
              f_equal. lia.
      * intros k Hk. rewrite Hrel by lia. apply Hmin. lia.
      * rewrite Hrel by lia. replace (a + t - a) with t by lia. exact Hhit.
  - rewrite (rest_of_chunk_empty (fun k => lane_hit eq (lane w V k)) a);
      try assumption; try lia; [reflexivity |].
    intros k Hk. rewrite Hrel by assumption.
    destruct (lane_hit eq (lane w v2 (k - a))) eqn:E; [| reflexivity].
    assert (false = true); [| discriminate].
    apply Hcond. exists (k - a). split; [lia | assumption].
Qed.

End Equality.

(** *** The fast greater-than scan of one chunk *)
Section Fast.
Variable chunk mask : Z.
Hypothesis Hmask : 0 <= mask < 2 ^ 64.
Hypothesis Hlane :
  forall k, 0 <= k < L ->
            negb (lane w mask k =? 0) = test (get_w w arr (start + k)).
Hypothesis Hval :
  forall k, 0 <= k < L -> lane w mask k <> 0 ->
            lane w chunk k = get_w w arr (start + k).

Lemma find_gtlt_fast_loop_matches (fuel : nat) :
  forall (p m : Z) (s : St),
    0 <= p <= L -> m = Z.shiftr mask (w * p) ->
    (Z.to_nat (L - p) < fuel)%nat ->
    find_gtlt_fast_loop callback shr_oversize fuel w (Z.ones w) chunk
                        (start + base) m p s
    = Some (run_matches R
              (matches test (get_w w arr) base
                       (zrange (start + p) (Z.to_nat (L - p)))) s).
Proof.
  pose proof (lane_width_pos w Hlw) as Hw.
  destruct (lane_width_lanes w Hlw) as (HL & HLp & _).
  induction fuel as [| fuel IH]; intros p m s Hp Hm Hfuel; [lia |].
  cbn [find_gtlt_fast_loop].
  assert (Hm64 : 0 <= m < 2 ^ 64) by (subst m; apply shiftr_u64; [assumption | nia]).
  assert (Hrel : forall k, p <= k -> lane w mask k = lane w m (k - p)).
  { intros k Hk. subst m. rewrite lane_shiftr by lia. f_equal. lia. }
  destruct (Z.eqb_spec m 0) as [E0 | N0].
  - rewrite (rest_of_chunk_empty (fun k => negb (lane w mask k =? 0)) p);
      try assumption; try lia; [reflexivity |].
    intros k Hk. rewrite Hrel by lia. rewrite E0, lane_zero_word. reflexivity.
  - rewrite pattern_not_consumed. cbn beta iota.
    rewrite (no0_width w Hlw).
    destruct (first_lane w m Hw ltac:(lia)) as (Ht0 & Ht64 & Hnz & Hzero).
    set (t := first_set_bit64 m / w) in *.
    assert (Hin : p + t < L).
    { destruct (Z_lt_dec (p + t) L) as [? | Hge]; [assumption |].
      exfalso. apply Hnz. replace t with (p + t - p) by lia.
      rewrite <- Hrel by lia. apply lane_beyond; try lia. nia. }
    rewrite (chunk_split_at (fun k => negb (lane w mask k =? 0)) p t);
      try assumption; try lia.
    + apply then_matches.
      * rewrite shr64_small by nia.
        replace ((p + t) * w) with (w * (p + t)) by lia.
        fold (lane w chunk (p + t)).
        rewrite Hval; try lia.
        -- replace (p + t + (start + base)) with (p + t + start + base) by lia.
           apply find_action_single.
        -- rewrite Hrel by lia. replace (p + t - p) with t by lia. exact Hnz.
      * reflexivity.
      * intros s'. apply IH; try lia.
        destruct (Z.eqb_spec ((t + 1) * w) 64) as [E64 | N64].
        -- symmetry. apply shiftr_beyond; [assumption | nia].
        -- rewrite shr64_small by nia. subst m.
           rewrite Z.shiftr_shiftr by nia. f_equal. lia.
    + intros k Hk. rewrite Hrel by lia. rewrite Hzero by lia. reflexivity.
    + rewrite Hrel by lia. replace (p + t - p) with t by lia.
      apply negb_true_iff, Z.eqb_neq. exact Hnz.
Qed.

End Fast.

End OneChunk.

End ChunkLoops.

(** ** Chunks of the payload and the values searched for *)

Lemma round_up_spec (p a : Z) :
  0 < a -> 0 <= p ->
  exists q, 0 <= q /\ round_up p a = q * a /\ p <= q * a < p + a.
Proof.
  intros Ha Hp. unfold round_up.
  pose proof (Z.div_mod p a ltac:(lia)) as Hdm.
  pose proof (Z.mod_pos_bound p a Ha) as Hm.
  assert (0 <= p / a) by (apply Z.div_pos; lia).
  destruct (Z.eqb_spec (p mod a) 0) as [E | N].
  - exists (p / a). split; [lia |]. split; nia.
  - exists (p / a + 1). split; [lia |]. split; nia.
Qed.

Lemma load_le_u64 (data : list byte) (p : Z) :
  0 <= p -> 0 <= load_le data p 8 < 2 ^ 64.
Proof.
  intros Hp. rewrite load_le_bits by assumption.
  change (8 * Z.of_nat 8) with 64. apply land_ones_range. lia.
Qed.

Lemma lxor_u64 (a b : Z) : 0 <= a < 2 ^ 64 -> 0 <= b < 2 ^ 64 -> 0 <= Z.lxor a b < 2 ^ 64.
Proof.
  intros Ha Hb.
  assert (E : Z.lxor a b = Z.lxor a b mod 2 ^ 64).
  { rewrite <- Z.land_ones by lia.
    rewrite <- (Z.mod_small a (2 ^ 64)), <- (Z.mod_small b (2 ^ 64)) by assumption.
    rewrite <- !Z.land_ones by lia. blast_bits. }
  rewrite E. apply Z.mod_pos_bound. lia.
Qed.

Lemma lane_lxor (w a b k : Z) :
  lane w (Z.lxor a b) k = Z.lxor (lane w a k) (lane w b k).
Proof.
  unfold lane. rewrite Z.shiftr_lxor.
  apply Z.bits_inj'. intros i Hi.
  rewrite !Z.land_spec, !Z.lxor_spec, !Z.land_spec.
  destruct (Z.testbit (Z.ones w) i);
    rewrite ?andb_true_r, ?andb_false_r; reflexivity.
Qed.

Lemma lane_land (w a b k : Z) :
  lane w (Z.land a b) k = Z.land (lane w a k) (lane w b k).
Proof.
  unfold lane. rewrite Z.shiftr_land.
  apply Z.bits_inj'. intros i Hi.
  rewrite !Z.land_spec.
  destruct (Z.testbit (Z.ones w) i);
    rewrite ?andb_true_r, ?andb_false_r; reflexivity.
Qed.

Lemma rep_scale (w : Z) (n : nat) (c : Z) : rep w n 1 * c = rep w n c.
Proof.
  induction n as [| n IH]; cbn [rep]; [reflexivity |]. rewrite <- IH. ring.
Qed.

Lemma rep_u64 (w c : Z) :
  lane_width w -> 0 <= c < 2 ^ w -> 0 <= rep w (lanes_of w) c < 2 ^ 64.
Proof.
  intros Hlw Hc. rewrite <- (lane_width_pow w Hlw).
  apply rep_range; [apply lane_width_pos; assumption | assumption].
Qed.

Lemma decode_small (w x : Z) :
  lane_width w -> 0 <= x < 2 ^ (w - 1) -> decode w x = x.
Proof.
  intros Hlw Hx. unfold decode. destruct (w <? 8); [reflexivity |].
  apply sext_small; [apply lane_width_pos; assumption | lia].
Qed.

Lemma decode_low_widths (w x : Z) : w < 8 -> decode w x = x.
Proof. intros H. unfold decode. destruct (Z.ltb_spec w 8); [reflexivity | lia]. Qed.

(** A lane decodes to [value] exactly when it holds the low [w] bits of
    [value], for a value within the bounds of the width. *)
Lemma decode_eq (w x value : Z) :
  lane_width w -> fits w value = true -> 0 <= x < 2 ^ w ->
  (decode w x =? value) = (x =? value mod 2 ^ w).
Proof.
  intros Hlw Hfit Hx. pose proof (lane_width_pos w Hlw) as Hw.
  destruct (fits_bounds w value (lane_width_supported w Hlw) Hfit) as [Hlo Hhi].
  unfold decode. destruct (Z.ltb_spec w 8) as [Hlt | Hge].
  - rewrite Z.mod_small by (apply Hlo; assumption). reflexivity.
  - specialize (Hhi Hge).
    destruct (Z.eqb_spec (sext w x) value) as [E | N];
      destruct (Z.eqb_spec x (value mod 2 ^ w)) as [E' | N']; try reflexivity; exfalso.
    + apply N'. rewrite <- E. rewrite sext_mod by assumption.
      symmetry. apply Z.mod_small. assumption.
    + apply N. rewrite E'. unfold sext. rewrite Zplus_mod_idemp_l.
      assert (Hp : 2 ^ w = 2 * 2 ^ (w - 1)) by (apply B_half; assumption).
      rewrite Z.mod_small by lia. lia.
Qed.

(** The lanes of the word the equality scan tests: zero exactly where
    the element equals the value. *)
Lemma equality_lanes (eq : bool) (w : Z) (arr : Array) (value p q k : Z) :
  lane_width w -> fits w value = true ->
  0 <= q -> p = 8 * q -> 0 <= k < 64 / w ->
  lane_hit eq
    (lane w (Z.lxor (load_le (data_of arr) p 8)
                    (to_u64 (Z.ones 64 / no0 (width_mask w)
                             * Z.land (to_u64 value) (width_mask w)))) k)
  = (if eq then get_w w arr (q * (64 / w) + k) =? value
     else negb (get_w w arr (q * (64 / w) + k) =? value)).
Proof.
  intros Hlw Hfit Hq -> Hk. pose proof (lane_width_pos w Hlw) as Hw.
  destruct (lane_width_lanes w Hlw) as (HL & HLp & HLn).
  pose proof (B_pos w Hw) as HB.
  rewrite (lane_unit_rep w Hlw), (width_mask_ones w Hlw).
  assert (Ec : Z.land (to_u64 value) (Z.ones w) = value mod 2 ^ w).
  { rewrite Z.land_ones by lia. unfold to_u64.
    apply Z.mod_mod_divide. exists (2 ^ (64 - w)).
    rewrite <- Z.pow_add_r by (each_lane_width Hlw; lia). f_equal. lia. }
  rewrite Ec.
  assert (Hc : 0 <= value mod 2 ^ w < 2 ^ w) by (apply Z.mod_pos_bound; lia).
  rewrite rep_scale. rewrite to_u64_small by (apply rep_u64; assumption).
  rewrite lane_lxor. rewrite lane_rep by (try assumption; lia).
  rewrite (get_w_chunk_lane w arr (8 * q) (q * (64 / w)) k)
    by (try apply lane_width_supported; try assumption; nia).
  set (x := lane w (load_le (data_of arr) (8 * q) 8) k).
  assert (Hx : 0 <= x < 2 ^ w) by (apply lane_range; assumption).
  rewrite (decode_eq w x value Hlw Hfit Hx).
  unfold lane_hit.
  assert (E : (Z.lxor x (value mod 2 ^ w) =? 0) = (x =? value mod 2 ^ w)).
  { destruct (Z.eqb_spec (Z.lxor x (value mod 2 ^ w)) 0) as [E | N];
      destruct (Z.eqb_spec x (value mod 2 ^ w)) as [E' | N']; try reflexivity; exfalso.
    - apply N'. apply Z.lxor_eq. assumption.
    - apply N. rewrite E'. apply Z.lxor_nilpotent. }
  rewrite E. reflexivity.
Qed.

(** ** The loop over the chunks, and the scan of what is left *)

Section ChunkLoop.
Context {St : Type} `{QueryStateBase St}.
Variable callback : option (Z -> St -> bool * St).

Local Abbreviation R := (report_to callback).

Variable w : Z.
Variable arr : Array.
Variable base : Z.
Variable test : Z -> bool.
Variable body : Z -> @M St bool.
Variable e : Z.
Hypothesis Hlw : lane_width w.

Local Abbreviation L := (64 / w).

Hypothesis Hbody :
  forall q s, 0 <= q -> 8 * q < e ->
    body (8 * q) s
    = Some (run_matches R (matches test (get_w w arr) base
                                   (zrange (q * L) (lanes_of w))) s).

(** The number of chunks the loop visits from chunk [q] on. *)
Local Abbreviation rounds q := (Z.max 0 ((e - 8 * q + 7) / 8)).

Lemma rounds_done (q : Z) : e <= 8 * q -> rounds q = 0.
Proof.
  intros. assert ((e - 8 * q + 7) / 8 <= 0) by (Z.div_mod_to_equations; lia). lia.
Qed.

Lemma rounds_step (q : Z) : 8 * q < e -> rounds q = 1 + rounds (q + 1).
Proof.
  intros.
  assert ((e - 8 * q + 7) / 8 = 1 + (e - 8 * (q + 1) + 7) / 8)
    by (Z.div_mod_to_equations; lia).
  assert (0 <= (e - 8 * (q + 1) + 7) / 8) by (Z.div_mod_to_equations; lia).
  lia.
Qed.

Lemma rounds_last (q : Z) : rounds q <> 0 -> 8 * (q + rounds q) < e + 8.
Proof.
  intros Hne.
  assert (0 < (e - 8 * q + 7) / 8) by lia.
  rewrite Z.max_r by lia. Z.div_mod_to_equations. lia.
Qed.

Lemma chunk_loop_matches (fuel : nat) :
  forall (q : Z) (s : St),
    0 <= q -> e - 8 * q <= Z.of_nat fuel ->
    exists pf,
      chunk_loop fuel body (8 * q) e s
      = Some ((fst (run_matches R (matches test (get_w w arr) base
                                           (zrange (q * L) (Z.to_nat (rounds q * L)))) s),
               pf),
              snd (run_matches R (matches test (get_w w arr) base
                                          (zrange (q * L) (Z.to_nat (rounds q * L)))) s))
      /\ (fst (run_matches R (matches test (get_w w arr) base
                                      (zrange (q * L) (Z.to_nat (rounds q * L)))) s) = true ->
          pf = 8 * (q + rounds q)).
Proof.
  destruct (lane_width_lanes w Hlw) as (HL & HLp & HLn).
  induction fuel as [| fuel IH]; intros q s Hq Hfuel; cbn [chunk_loop].
  - destruct (Z.ltb_spec (8 * q) e); [lia |].
    rewrite rounds_done by lia. rewrite Z.mul_0_l.
    exists (8 * q). split; [reflexivity | intros _; lia].
  - destruct (Z.ltb_spec (8 * q) e) as [Hlt | Hge].
    + assert (Hr : rounds q = 1 + rounds (q + 1)) by (apply rounds_step; assumption).
      assert (Hr0 : 0 <= rounds (q + 1)) by lia.
      rewrite Hr.
      replace (Z.to_nat ((1 + rounds (q + 1)) * L))
        with (lanes_of w + Z.to_nat (rounds (q + 1) * L))%nat by nia.
      rewrite zrange_app, matches_app, run_matches_app.
      replace (q * L + Z.of_nat (lanes_of w)) with ((q + 1) * L) by lia.
      unfold bind. rewrite (Hbody q s Hq Hlt).
      destruct (run_matches R (matches test (get_w w arr) base
                                       (zrange (q * L) (lanes_of w))) s) as [c s1].
      destruct c; cbn [negb].
      * replace (8 * q + 8) with (8 * (q + 1)) by lia.
        destruct (IH (q + 1) s1 ltac:(lia) ltac:(lia)) as (pf & Hloop & Hpf).
        exists pf. split; [exact Hloop |].
        intros Ht. rewrite (Hpf Ht). lia.
      * exists (8 * q). cbn. split; [reflexivity | discriminate].
    + rewrite rounds_done by lia. rewrite Z.mul_0_l.
      exists (8 * q). split; [reflexivity | intros _; lia].
Qed.

(** The chunk loop from the aligned index [q0 * L], followed by the
    element loop up to [end_], visits the range from [q0 * L] to
    [end_]. *)
Lemma chunks_then_tail (q0 end_ : Z) (s : St) :
  0 <= q0 -> q0 * L <= end_ -> e = end_ * w / 8 - 8 ->
  bind (bind (chunk_loop (Z.to_nat (e - 8 * q0)) body (8 * q0) e)
             (fun r => ret (fst r, snd r / 8 * 8 * 8 / w)))
       (fun r => if negb (fst r) then ret false
                 else scan_elems callback test w arr base
                                 (Z.to_nat (end_ - snd r)) (snd r)) s
  = Some (run_matches R (matches test (get_w w arr) base
                                 (zrange (q0 * L) (Z.to_nat (end_ - q0 * L)))) s).
Proof.
  intros Hq0 Hle He.
  destruct (lane_width_lanes w Hlw) as (HL & HLp & HLn).
  pose proof (lane_width_pos w Hlw) as Hw.
  destruct (chunk_loop_matches (Z.to_nat (e - 8 * q0)) q0 s Hq0 ltac:(lia))
    as (pf & Hloop & Hpf).
  set (J := rounds q0) in *.
  assert (HJ0 : 0 <= J) by lia.
  assert (HJ : (q0 + J) * L <= end_).
  { destruct (Z.eq_dec J 0) as [-> | HJne]; [lia |].
    assert (8 * (q0 + J) < e + 8) by (apply rounds_last; assumption).
    assert (64 * (q0 + J) + 8 <= end_ * w) by (Z.div_mod_to_equations; lia).
    nia. }
  replace (Z.to_nat (end_ - q0 * L))
    with (Z.to_nat (J * L) + Z.to_nat (end_ - (q0 + J) * L))%nat by nia.
  rewrite zrange_app, matches_app, run_matches_app.
  replace (q0 * L + Z.of_nat (Z.to_nat (J * L))) with ((q0 + J) * L) by nia.
  unfold bind at 1 2. rewrite Hloop.
  destruct (run_matches R (matches test (get_w w arr) base
                                   (zrange (q0 * L) (Z.to_nat (J * L)))) s) as [c s1].
  cbn [fst snd] in *. unfold ret at 1. cbn [fst snd].
  destruct c; cbn [negb].
  - rewrite (Hpf eq_refl).
    replace (8 * (q0 + J) / 8 * 8 * 8 / w) with ((q0 + J) * L).
    + apply scan_elems_matches.
    + replace (8 * (q0 + J) / 8) with (q0 + J)
        by (symmetry; rewrite Z.mul_comm; apply Z.div_mul; lia).
      replace ((q0 + J) * 8 * 8) with ((q0 + J) * L * w) by nia.
      rewrite Z.div_mul by lia. reflexivity.
  - reflexivity.
Qed.

End ChunkLoop.

(** ** [compare_equality] is a linear scan *)

Section CompareEquality.
Context {St : Type} `{QueryStateBase St}.
Variable callback : option (Z -> St -> bool * St).
Variable shr_oversize : Z -> Z -> Z.
Hypothesis shr_oversize_range : forall x n, 0 <= shr_oversize x n < 2 ^ 64.

Local Abbreviation R := (report_to callback).

(** The head loop up to [ee], then whatever visits the rest. *)
Lemma head_then_rest (test : Z -> bool) (w : Z) (arr : Array)
      (base start end_ ee : Z) (k : bool -> M bool) (s : St) :
  start <= ee <= end_ ->
  (forall s', k false s' = Some (false, s')) ->
  (forall s', k true s'
              = Some (run_matches R (matches test (get_w w arr) base
                                             (zrange ee (Z.to_nat (end_ - ee)))) s')) ->
  bind (scan_elems callback test w arr base (Z.to_nat (ee - start)) start) k s
  = Some (run_matches R (matches test (get_w w arr) base (index_range start end_)) s).
Proof.
  intros Hee Hf Ht. unfold index_range.
  replace (Z.to_nat (end_ - start))
    with (Z.to_nat (ee - start) + Z.to_nat (end_ - ee))%nat by lia.
  rewrite zrange_app, matches_app.
  replace (start + Z.of_nat (Z.to_nat (ee - start))) with ee by lia.
  apply then_matches; [apply scan_elems_matches | exact Hf | exact Ht].
Qed.

Lemma aligned_byte_offset (w q : Z) :
  lane_width w -> q * (64 / w) * w / 8 = 8 * q.
Proof.
  intros Hlw. destruct (lane_width_lanes w Hlw) as (HL & _ & _).
  replace (q * (64 / w) * w) with (q * (w * (64 / w))) by ring.
  rewrite HL. replace (q * 64) with (8 * q * 8) by ring.
  apply Z.div_mul. lia.
Qed.

Lemma chunk_first_index (w q : Z) :
  lane_width w -> 8 * q / 8 * 8 * 8 / w = q * (64 / w).
Proof.
  intros Hlw. destruct (lane_width_lanes w Hlw) as (HL & _ & _).
  pose proof (lane_width_pos w Hlw).
  replace (8 * q / 8) with q by (symmetry; rewrite Z.mul_comm; apply Z.div_mul; lia).
  replace (q * 8 * 8) with (q * (64 / w) * w).
  - apply Z.div_mul. lia.
  - replace (q * (64 / w) * w) with (q * (w * (64 / w))) by ring.
    rewrite HL. ring.
Qed.

Lemma compare_equality_matches (eq : bool) (w : Z) (arr : Array)
      (value start end_ base : Z) (s : St) :
  lane_width w -> fits w value = true -> 0 <= start <= end_ ->
  compare_equality callback shr_oversize eq w arr value start end_ base s
  = Some (run_matches R
            (matches (fun x => if eq then x =? value else negb (x =? value))
                     (get_w w arr) base (index_range start end_)) s).
Proof.
  intros Hlw Hfit Hrange.
  pose proof (lane_width_pos w Hlw) as Hw.
  destruct (lane_width_lanes w Hlw) as (HL & HLp & HLn).
  unfold compare_equality. cbv zeta. rewrite (no0_width w Hlw).
  destruct (round_up_spec start (64 / w) HLp ltac:(lia)) as (q0 & Hq0 & Eru & Hru).
  rewrite Eru.
  set (ee := if q0 * (64 / w) >? end_ then end_ else q0 * (64 / w)).
  assert (Hee : start <= ee <= end_)
    by (unfold ee; destruct (Z.gtb_spec (q0 * (64 / w)) end_); lia).
  apply head_then_rest; [exact Hee | reflexivity |].
  intros s'. cbn [negb].
  replace (Z.max start ee) with ee by lia.
  destruct (Z.geb_spec ee end_) as [Hdone | Hmore].
  { replace (Z.to_nat (end_ - ee)) with 0%nat by lia. reflexivity. }
  assert (Eee : ee = q0 * (64 / w))
    by (unfold ee in *; destruct (Z.gtb_spec (q0 * (64 / w)) end_); lia).
  rewrite Eee in *. clear ee Eee Hee.
  destruct (negb (w =? 32) && negb (w =? 64)).
  - rewrite (aligned_byte_offset w q0 Hlw).
    apply (chunks_then_tail callback w arr base _ _ (end_ * w / 8 - 8) Hlw);
      try lia.
    intros q s0 Hq Hlt. rewrite (chunk_first_index w q Hlw).
    set (V := Z.lxor (load_le (data_of arr) (8 * q) 8)
                     (to_u64 (Z.ones 64 / no0 (width_mask w)
                              * Z.land (to_u64 value) (width_mask w)))).
    assert (HV : 0 <= V < 2 ^ 64)
      by (apply lxor_u64; [apply load_le_u64; lia | apply to_u64_range]).
    assert (Hlane : forall k, 0 <= k < 64 / w ->
              lane_hit eq (lane w V k)
              = (fun x => if eq then x =? value else negb (x =? value))
                  (get_w w arr (q * (64 / w) + k))).
    { intros k Hk. apply (equality_lanes eq w arr value (8 * q) q k); auto; lia. }
    rewrite (equality_chunk_matches callback shr_oversize shr_oversize_range
               w arr (q * (64 / w)) base _ Hlw eq V Hlane 66 0 V s0).
    + rewrite Z.add_0_r, Z.sub_0_r. unfold lanes_of. reflexivity.
    + lia.
    + exact HV.
    + intros _. rewrite Z.mul_0_r, Z.shiftr_0_r. reflexivity.
    + assert (64 / w <= 64) by nia. lia.
  - unfold bind at 1. unfold ret at 1. cbn [fst snd negb].
    apply scan_elems_matches.
Qed.

End CompareEquality.

(** ** [compare_relation] is a linear scan *)

Lemma lane_whole (v : Z) : 0 <= v < 2 ^ 64 -> lane 64 v 0 = v.
Proof.
  intros Hv. unfold lane. rewrite Z.mul_0_r, Z.shiftr_0_r, Z.land_ones by lia.
  apply Z.mod_small. assumption.
Qed.

Lemma ones_shiftr_1 (w : Z) : 0 < w -> Z.shiftr (Z.ones w) 1 = 2 ^ (w - 1) - 1.
Proof.
  intros Hw. rewrite Z.shiftr_div_pow2, Z.ones_equiv by lia.
  pose proof (B_half w Hw). change (2 ^ 1) with 2.
  assert (0 < 2 ^ (w - 1)) by (apply Z.pow_pos_nonneg; lia).
  Z.div_mod_to_equations. lia.
Qed.

Lemma high_bits_rep (w : Z) :
  lane_width w ->
  to_u64 (Z.shiftl (to_u64 (lower_bits w)) (no0 w - 1)) = rep w (lanes_of w) (2 ^ (w - 1)).
Proof. intros H. each_lane_width H; vm_compute; reflexivity. Qed.

Lemma lane_in_u64 (w : Z) : lane_width w -> 2 ^ w <= 2 ^ 64.
Proof. intros H. apply Z.pow_le_mono_r; [lia |]. each_lane_width H; lia. Qed.

Lemma half_in_lane (w : Z) : 0 < w -> 0 <= 2 ^ (w - 1) < 2 ^ w.
Proof.
  intros Hw. pose proof (B_half w Hw).
  assert (0 < 2 ^ (w - 1)) by (apply Z.pow_pos_nonneg; lia). lia.
Qed.

(** The chunks whose [upper] test is zero have every lane in the lower
    half of its range. *)
Lemma lanes_below_half (w chunk : Z) :
  lane_width w ->
  Z.land (rep w (lanes_of w) (2 ^ (w - 1))) chunk = 0 ->
  forall k, 0 <= k < 64 / w -> lane w chunk k < 2 ^ (w - 1).
Proof.
  intros Hlw Hz k Hk. pose proof (lane_width_pos w Hlw) as Hw.
  destruct (lane_width_lanes w Hlw) as (HL & HLp & HLn).
  pose proof (half_in_lane w Hw) as Hh.
  apply (f_equal (fun x => lane w x k)) in Hz.
  rewrite lane_land, lane_zero_word in Hz.
  rewrite lane_rep in Hz by (try assumption; lia).
  rewrite Z.land_comm in Hz.
  rewrite (land_top_bit w Hw) in Hz by (apply lane_range; assumption).
  destruct (Z.geb_spec (lane w chunk k) (2 ^ (w - 1))); lia.
Qed.

(** The magic constant, lane by lane. *)
Lemma magic_rep (gt : bool) (w value : Z) :
  lane_width w -> 0 <= value <= 2 ^ (w - 1) - 1 ->
  to_u64 (find_gtlt_magic gt w value)
  = rep w (lanes_of w) (if gt then 2 ^ (w - 1) - 1 - value else value).
Proof.
  intros Hlw Hv. pose proof (lane_width_pos w Hlw) as Hw.
  pose proof (half_in_lane w Hw) as Hh. pose proof (lane_in_u64 w Hlw) as H64.
  unfold find_gtlt_magic. rewrite to_u64_to_i64.
  rewrite (lane_unit_rep w Hlw), (width_mask_ones w Hlw), (ones_shiftr_1 w Hw).
  destruct gt.
  - rewrite (to_u64_small (2 ^ (w - 1) - 1 - value)) by lia.
    rewrite rep_scale. unfold to_u64. rewrite Z.mod_mod by lia.
    apply Z.mod_small. apply rep_u64; [assumption | lia].
  - rewrite (to_u64_small value) by lia.
    rewrite rep_scale. unfold to_u64. rewrite Z.mod_mod by lia.
    apply Z.mod_small. apply rep_u64; [assumption | lia].
Qed.

(** The fast path is taken only for greater-than, with a value that
    leaves room for the carry. *)
Lemma fast_path_condition (gt : bool) (w value : Z) :
  lane_width w -> w <= 16 ->
  negb (value =? to_i64 (Z.land (to_u64 (find_gtlt_magic gt w value)) (width_mask w)))
  && (value >=? 0) && (w >=? 2)
  && (value <=? to_i64 (Z.shiftr (width_mask w) 1 - (if gt then 1 else 0))) = true ->
  gt = true /\ 2 <= w /\ 0 <= value <= 2 ^ (w - 1) - 2.
Proof.
  intros Hlw H16 Hc. pose proof (lane_width_pos w Hlw) as Hw.
  destruct (lane_width_lanes w Hlw) as (HL & HLp & HLn).
  pose proof (half_in_lane w Hw) as Hh.
  rewrite (width_mask_ones w Hlw), (ones_shiftr_1 w Hw) in Hc.
  rewrite !andb_true_iff in Hc. destruct Hc as (((Hne & Hge) & H2) & Hle).
  apply Z.geb_le in Hge. apply Z.geb_le in H2. apply Z.leb_le in Hle.
  assert (Hsmall : 2 ^ (w - 1) <= 2 ^ 15) by (apply Z.pow_le_mono_r; lia).
  rewrite to_i64_small in Hle by (destruct gt; lia).
  destruct gt; [repeat split; lia |].
  exfalso. rewrite (magic_rep false w value Hlw) in Hne by lia.
  assert (E : Z.land (rep w (lanes_of w) value) (Z.ones w) = value).
  { pose proof (lane_rep w Hw (lanes_of w) value 0 ltac:(lia) ltac:(lia)) as Hl.
    unfold lane in Hl. rewrite Z.mul_0_r, Z.shiftr_0_r in Hl. exact Hl. }
  rewrite E, to_i64_small, Z.eqb_refl in Hne by lia. discriminate.
Qed.

Section CompareRelation.
Context {St : Type} `{QueryStateBase St}.
Variable callback : option (Z -> St -> bool * St).
Variable shr_oversize : Z -> Z -> Z.
Hypothesis shr_oversize_range : forall x n, 0 <= shr_oversize x n < 2 ^ 64.

Local Abbreviation R := (report_to callback).

Lemma find_gtlt_matches (gt : bool) (w v chunk base : Z) (s : St) :
  lane_width w -> 0 <= chunk < 2 ^ 64 ->
  find_gtlt callback gt w v chunk base s
  = Some (run_matches R
            (matches (fun x => if gt then x >? v else x <? v)
                     (fun k => decode w (lane w chunk k)) base
                     (zrange 0 (lanes_of w))) s).
Proof.
  intros Hlw Hc.
  assert (E0 : forall w', chunk = Z.shiftr chunk (w' * 0))
    by (intros; rewrite Z.mul_0_r, Z.shiftr_0_r; reflexivity).
  unfold find_gtlt. each_lane_width Hlw; cbn [Z.eqb Pos.eqb].
  - exact (find_gtlt_lanes_matches callback gt v 1 (fun x => x) chunk base 64 0 chunk s
             ltac:(lia) ltac:(lia) (E0 1)).
  - exact (find_gtlt_lanes_matches callback gt v 2 (fun x => x) chunk base 32 0 chunk s
             ltac:(lia) ltac:(lia) (E0 2)).
  - exact (find_gtlt_lanes_matches callback gt v 4 (fun x => x) chunk base 16 0 chunk s
             ltac:(lia) ltac:(lia) (E0 4)).
  - exact (find_gtlt_lanes_matches callback gt v 8 (sext 8) chunk base 8 0 chunk s
             ltac:(lia) ltac:(lia) (E0 8)).
  - exact (find_gtlt_lanes_matches callback gt v 16 (sext 16) chunk base 4 0 chunk s
             ltac:(lia) ltac:(lia) (E0 16)).
  - exact (find_gtlt_lanes_matches callback gt v 32 (sext 32) chunk base 2 0 chunk s
             ltac:(lia) ltac:(lia) (E0 32)).
  - change (lanes_of 64) with 1%nat. cbn [zrange]. rewrite matches_cons.
    rewrite (lane_whole chunk Hc).
    change (decode 64 chunk) with (to_i64 chunk).
    change (matches _ _ base []) with (@nil (Z * Z)).
    rewrite app_nil_r. rewrite Z.add_0_l.
    destruct (if gt then to_i64 chunk >? v else to_i64 chunk <? v);
      [apply find_action_single | reflexivity].
Qed.

(** The slow scan of the chunk at byte offset [8 * q]. *)
Lemma slow_chunk_matches (gt : bool) (w : Z) (arr : Array) (value q base : Z) (s : St) :
  lane_width w -> 0 <= q ->
  find_gtlt callback gt w value (to_u64 (to_i64 (load_le (data_of arr) (8 * q) 8)))
            (q * (64 / w) + base) s
  = Some (run_matches R
            (matches (fun x => if gt then x >? value else x <? value)
                     (get_w w arr) base (zrange (q * (64 / w)) (lanes_of w))) s).
Proof.
  intros Hlw Hq. pose proof (lane_width_pos w Hlw) as Hw.
  destruct (lane_width_lanes w Hlw) as (HL & HLp & HLn).
  pose proof (load_le_u64 (data_of arr) (8 * q) ltac:(lia)) as Hc.
  rewrite to_u64_to_i64, to_u64_small by assumption.
  rewrite find_gtlt_matches by assumption.
  rewrite (matches_shift _ _ (get_w w arr) (q * (64 / w)) base 0 (lanes_of w)).
  - rewrite Z.add_0_r. reflexivity.
  - intros k Hk. symmetry.
    apply get_w_chunk_lane; try lia; try nia.
    apply lane_width_supported. assumption.
Qed.

(** The fast scan of a chunk whose lanes are all in the lower half. *)
Lemma fast_chunk_matches (w : Z) (arr : Array) (value q base : Z) (s : St) :
  lane_width w -> 2 <= w -> 0 <= q -> 0 <= value <= 2 ^ (w - 1) - 2 ->
  (forall k, 0 <= k < 64 / w ->
             lane w (load_le (data_of arr) (8 * q) 8) k < 2 ^ (w - 1)) ->
  find_gtlt_fast callback shr_oversize true w
                 (to_u64 (to_i64 (load_le (data_of arr) (8 * q) 8)))
                 (to_u64 (find_gtlt_magic true w value))
                 (q * (64 / w) + base) s
  = Some (run_matches R
            (matches (fun x => x >? value)
                     (get_w w arr) base (zrange (q * (64 / w)) (lanes_of w))) s).
Proof.
  intros Hlw H2 Hq Hv Hlow. pose proof (lane_width_pos w Hlw) as Hw.
  destruct (lane_width_lanes w Hlw) as (HL & HLp & HLn).
  pose proof (half_in_lane w Hw) as Hh. pose proof (lane_in_u64 w Hlw) as H64.
  pose proof (load_le_u64 (data_of arr) (8 * q) ltac:(lia)) as Hc.
  set (chunk := load_le (data_of arr) (8 * q) 8) in *.
  rewrite to_u64_to_i64, (to_u64_small chunk) by assumption.
  rewrite (magic_rep true w value Hlw) by lia.
  unfold find_gtlt_fast.
  rewrite (lane_unit_rep w Hlw), (width_mask_ones w Hlw), (ones_shiftr_1 w Hw).
  replace (2 ^ (w - 1) - 1 + 1) with (2 ^ (w - 1)) by lia.
  rewrite (to_u64_small (2 ^ (w - 1))) by lia.
  rewrite rep_scale.
  rewrite (to_u64_small (rep w (lanes_of w) (2 ^ (w - 1))))
    by (apply rep_u64; [assumption | lia]).
  destruct (gt_mask_lanes w Hw value Hv (lanes_of w) chunk) as (Hsum & Hm & Hlanes).
  { rewrite (lane_width_pow w Hlw). assumption. }
  { intros k Hk. apply Hlow. lia. }
  rewrite (lane_width_pow w Hlw) in Hsum, Hm.
  assert (Hrep : 0 <= rep w (lanes_of w) (2 ^ (w - 1) - 1 - value))
    by (apply rep_u64; [assumption | lia]).
  rewrite (to_u64_small (chunk + _)) by lia.
  set (m := Z.land (Z.lor (chunk + rep w (lanes_of w) (2 ^ (w - 1) - 1 - value)) chunk)
                   (rep w (lanes_of w) (2 ^ (w - 1)))) in *.
  assert (Hdec : forall k, 0 <= k < 64 / w ->
                           get_w w arr (q * (64 / w) + k) = lane w chunk k).
  { intros k Hk.
    rewrite (get_w_chunk_lane w arr (8 * q) (q * (64 / w)) k)
      by (try apply lane_width_supported; try assumption; nia).
    apply decode_small; [assumption |].
    split; [apply lane_range; assumption | apply Hlow; assumption]. }
  pose proof (find_gtlt_fast_loop_matches callback shr_oversize w arr (q * (64 / w)) base
                (fun x => x >? value) Hlw chunk m Hm) as Hloop.
  rewrite (Hloop) with (fuel := 65%nat) (p := 0) (m := m).
  - rewrite Z.add_0_r, Z.sub_0_r. unfold lanes_of. reflexivity.
  - intros k Hk. rewrite Hlanes by lia. rewrite Hdec by assumption.
    destruct (lane w chunk k >? value); [| reflexivity].
    apply negb_true_iff, Z.eqb_neq. lia.
  - intros k Hk _. symmetry. apply Hdec. assumption.
  - lia.
  - rewrite Z.mul_0_r, Z.shiftr_0_r. reflexivity.
  - assert (64 / w <= 64) by nia. lia.
Qed.

End CompareRelation.

Section CompareRelationScan.
Context {St : Type} `{QueryStateBase St}.
Variable callback : option (Z -> St -> bool * St).
Variable shr_oversize : Z -> Z -> Z.
Hypothesis shr_oversize_range : forall x n, 0 <= shr_oversize x n < 2 ^ 64.

Local Abbreviation R := (report_to callback).

Lemma compare_relation_matches (gt : bool) (w : Z) (arr : Array)
      (value start end_ base : Z) (s : St) :
  lane_width w -> 0 <= start <= end_ -> end_ <= m_size arr ->
  compare_relation callback shr_oversize gt w arr value start end_ base s
  = Some (run_matches R
            (matches (fun x => if gt then x >? value else x <? value)
                     (get_w w arr) base (index_range start end_)) s).
Proof.
  intros Hlw Hrange Hsize.
  pose proof (lane_width_pos w Hlw) as Hw.
  destruct (lane_width_lanes w Hlw) as (HL & HLp & HLn).
  unfold compare_relation. cbv zeta.
  replace ((start <=? m_size arr) && ((end_ <=? m_size arr) || (end_ =? npos))
           && (start <=? end_)) with true.
  2:{ destruct (Z.leb_spec start (m_size arr)); [| lia].
      destruct (Z.leb_spec end_ (m_size arr)); [| lia].
      destruct (Z.leb_spec start end_); [| lia]. reflexivity. }
  cbn [negb]. rewrite (no0_width w Hlw).
  destruct (round_up_spec start (64 / w) HLp ltac:(lia)) as (q0 & Hq0 & Eru & Hru).
  rewrite Eru.
  set (ee := if q0 * (64 / w) >? end_ then end_ else q0 * (64 / w)).
  assert (Hee : start <= ee <= end_)
    by (unfold ee; destruct (Z.gtb_spec (q0 * (64 / w)) end_); lia).
  apply head_then_rest; [exact Hee | reflexivity |].
  intros s'. cbn [negb].
  replace (Z.max start ee) with ee by lia.
  destruct (Z.geb_spec ee end_) as [Hdone | Hmore].
  { replace (Z.to_nat (end_ - ee)) with 0%nat by lia. reflexivity. }
  assert (Eee : ee = q0 * (64 / w))
    by (unfold ee in *; destruct (Z.gtb_spec (q0 * (64 / w)) end_); lia).
  rewrite Eee in *. clear ee Eee Hee.
  destruct ((w =? 1) || (w =? 2) || (w =? 4) || (w =? 8) || (w =? 16)) eqn:Ewidth.
  - assert (H16 : w <= 16).
    { rewrite !orb_true_iff, !Z.eqb_eq in Ewidth. lia. }
    rewrite (aligned_byte_offset w q0 Hlw).
    match goal with
    | |- context [if ?c then chunk_loop _ _ _ _ else _] => destruct c eqn:Efast
    end.
    + destruct (fast_path_condition gt w value Hlw H16 Efast) as (-> & H2 & Hv).
      apply (chunks_then_tail callback w arr base _ _ (end_ * w / 8 - 8) Hlw);
        try lia.
      intros q s0 Hq Hlt. rewrite (chunk_first_index w q Hlw).
      pose proof (high_bits_rep w Hlw) as Hhb.
      rewrite (no0_width w Hlw) in Hhb. rewrite Hhb.
      rewrite to_u64_to_i64,
        (to_u64_small (load_le (data_of arr) (8 * q) 8)) by (apply load_le_u64; lia).
      destruct (Z.eqb_spec
                  (Z.land (rep w (lanes_of w) (2 ^ (w - 1)))
                          (load_le (data_of arr) (8 * q) 8)) 0) as [Ez | Nz].
      * rewrite <- (to_u64_small (load_le (data_of arr) (8 * q) 8)) at 1
          by (apply load_le_u64; lia).
        rewrite <- to_u64_to_i64.
        apply fast_chunk_matches; try assumption.
        apply lanes_below_half; assumption.
      * rewrite <- (to_u64_small (load_le (data_of arr) (8 * q) 8)) at 1
          by (apply load_le_u64; lia).
        rewrite <- to_u64_to_i64.
        apply (slow_chunk_matches callback true); assumption.
    + apply (chunks_then_tail callback w arr base _ _ (end_ * w / 8 - 8) Hlw);
        try lia.
      intros q s0 Hq Hlt. rewrite (chunk_first_index w q Hlw).
      apply slow_chunk_matches; assumption.
  - unfold bind at 1. unfold ret at 1. cbn [fst snd negb].
    apply scan_elems_matches.
Qed.

End CompareRelationScan.

(** ** [find_optimized] is the naive scan *)

(** Decide every integer comparison in sight and conclude by linear
    arithmetic. *)
Ltac decide_comparisons :=
  repeat match goal with
         | H : context [?a =? ?b] |- _ => destruct (Z.eqb_spec a b)
         | H : context [?a <? ?b] |- _ => destruct (Z.ltb_spec a b)
         | H : context [?a <=? ?b] |- _ => destruct (Z.leb_spec a b)
         | H : context [?a >? ?b] |- _ => destruct (Z.gtb_spec a b)
         | H : context [?a >=? ?b] |- _ => destruct (Z.geb_spec a b)
         | |- context [?a =? ?b] => destruct (Z.eqb_spec a b)
         | |- context [?a <? ?b] => destruct (Z.ltb_spec a b)
         | |- context [?a <=? ?b] => destruct (Z.leb_spec a b)
         | |- context [?a >? ?b] => destruct (Z.gtb_spec a b)
         | |- context [?a >=? ?b] => destruct (Z.geb_spec a b)
         end;
  cbn [andb orb negb] in *; try discriminate; try reflexivity; try lia.

Lemma can_match_sound (c : Cond) (value lb ub x : Z) :
  can_match c value lb ub = false -> lb <= x <= ub -> cond_holds c x value = false.
Proof.
  destruct c; cbn [can_match cond_holds]; intros Hc Hx; decide_comparisons.
Qed.

Lemma will_match_sound (c : Cond) (value lb ub x : Z) :
  will_match c value lb ub = true -> lb <= x <= ub -> cond_holds c x value = true.
Proof.
  destruct c; cbn [will_match cond_holds]; intros Hc Hx; decide_comparisons.
Qed.

(** At width 0 one of the two early exits always applies. *)
Lemma width_0_decided (c : Cond) (value : Z) :
  can_match c value 0 0 = true -> will_match c value 0 0 = true.
Proof.
  destruct c; cbn [can_match will_match]; intros Hc; decide_comparisons.
Qed.

(** Between the early exits the value searched for is representable,
    for the equality conditions. *)
Lemma equality_value_fits (eq : bool) (w value lb ub : Z) :
  lbound_for_width w = Some lb -> ubound_for_width w = Some ub ->
  can_match (if eq then Equal else NotEqual) value lb ub = true ->
  will_match (if eq then Equal else NotEqual) value lb ub = false ->
  fits w value = true.
Proof.
  intros El Eu Hc Hwm. rewrite (fits_of_bounds w lb ub value El Eu).
  destruct eq; cbn [can_match will_match] in *; decide_comparisons.
Qed.

Section Limit.
Context {St : Type} `{QueryStateBase St}.
Hypothesis contract : sink_contract St.

(** A sink that honours its limit stops the delivery of a list at
    least as long as the number of matches it still accepts. *)
Lemma limit_stops (l : list (Z * Z)) :
  forall s, sink_ready s -> limit s - match_count s <= Z.of_nat (length l) ->
            fst (run_matches (report_to None) l s) = false.
Proof.
  induction l as [| [i v] rest IH]; intros s Hready Hs; cbn [length] in Hs.
  - destruct Hready as [? ?]. lia.
  - cbn [run_matches]. unfold report_to at 1.
    destruct (contract i v s Hready) as (Hlim & Hcnt & Hgo).
    destruct Hready as [Hcount Hnpos].
    destruct (match_ i v s) as [go s'] eqn:E. cbn [fst snd] in *.
    destruct go; [| reflexivity].
    specialize (Hgo eq_refl). apply IH; [split; lia | lia].
Qed.

Lemma run_matches_stopped (l1 l2 : list (Z * Z)) (s : St) :
  fst (run_matches (report_to None) l1 s) = false ->
  run_matches (report_to None) (l1 ++ l2) s = run_matches (report_to None) l1 s.
Proof.
  intros Hstop. rewrite (run_matches_app None).
  destruct (run_matches (report_to None) l1 s) as [c s']. cbn [fst] in Hstop.
  subst c. reflexivity.
Qed.

End Limit.

Lemma matches_all_length (elem : Z -> Z) (base : Z) (l : list Z) :
  length (matches (fun _ => true) elem base l) = length l.
Proof.
  unfold matches. rewrite length_map. induction l; cbn; auto.
Qed.

Section FindOptimized.
Context {St : Type} `{QueryStateBase St}.
Variable callback : option (Z -> St -> bool * St).
Variable shr_oversize : Z -> Z -> Z.
Hypothesis shr_oversize_range : forall x n, 0 <= shr_oversize x n < 2 ^ 64.

Local Abbreviation R := (report_to callback).

Lemma find_all_will_match_run (c : Cond) (w : Z) (arr : Array)
      (value start end_ base : Z) (s : St) :
  0 <= start <= end_ -> end_ <= npos ->
  (forall i, cond_holds c (get_w w arr i) value = true) ->
  (callback = None -> sink_contract St /\ sink_ready s) ->
  find_all_will_match callback w arr start end_ base s
  = Some (run_matches R (matches (fun x => cond_holds c x value) (get_w w arr) base
                                 (index_range start end_)) s).
Proof.
  intros Hrange Hnpos Hall Hready.
  rewrite (matches_ext (fun x => cond_holds c x value) (fun _ => true)
                       (get_w w arr) (get_w w arr) base)
    by (intros; auto).
  unfold find_all_will_match, index_range.
  destruct callback as [cb |] eqn:Ecb.
  - apply scan_elems_matches.
  - destruct (Hready eq_refl) as (Hcontract & Hsink).
    pose proof Hsink as (Hcount & Hlimit).
    unfold npos in Hnpos, Hlimit.
    rewrite (to_u64_small (limit s - match_count s)) by lia.
    rewrite (to_u64_small (end_ - start)) by lia.
    destruct (Z.gtb_spec (end_ - start) (limit s - match_count s)) as [Hcut | Hall'].
    + rewrite to_u64_small by lia.
      rewrite scan_elems_matches.
      replace (start + (limit s - match_count s) - start)
        with (limit s - match_count s) by lia.
      replace (Z.to_nat (end_ - start))
        with (Z.to_nat (limit s - match_count s)
              + Z.to_nat (end_ - start - (limit s - match_count s)))%nat by lia.
      rewrite zrange_app, matches_app.
      rewrite (run_matches_stopped _ _ s); [reflexivity |].
      apply (limit_stops Hcontract); [exact Hsink |].
      rewrite matches_all_length, zrange_length. lia.
    + apply scan_elems_matches.
Qed.

(** The accelerated scan and the naive scan deliver the same matches
    in the same order, and stop at the same point. *)
Lemma find_optimized_naive (c : Cond) (arr : Array)
      (value start end_ base : Z) (s : St) :
  supported_width (m_width arr) ->
  0 <= start <= end_ -> end_ <= m_size arr -> m_size arr <= npos ->
  (callback = None -> sink_contract St /\ sink_ready s) ->
  find_optimized callback shr_oversize c (m_width arr) arr value start end_ base s
  = Some (naive_scan R c value (get_w (m_width arr) arr) base
                     (index_range start end_) s).
Proof.
  intros Hw Hrange Hsize Hnpos Hready.
  rewrite naive_scan_run. unfold find_optimized. cbv zeta.
  replace (if end_ =? npos then m_size arr else end_) with end_
    by (destruct (Z.eqb_spec end_ npos); lia).
  destruct ((m_size arr >? start) && (start <? end_)) eqn:Enonempty; cbn [negb].
  2:{ assert (start = end_) as -> by decide_comparisons.
      unfold index_range. rewrite Z.sub_diag. reflexivity. }
  destruct (get_universal_bounded (m_width arr) (data_of arr) 0 Hw)
    as (lb & ub & El & Eu & _ & Hlow).
  assert (Hin : forall i, lb <= get_w (m_width arr) arr i <= ub).
  { intros i.
    destruct (get_universal_bounded (m_width arr) (data_of arr) i Hw)
      as (lb' & ub' & El' & Eu' & Hb & _).
    rewrite El in El'. rewrite Eu in Eu'. injection El' as <-. injection Eu' as <-.
    exact Hb. }
  rewrite El, Eu.
  destruct (can_match c value lb ub) eqn:Ecan; cbn [negb].
  2:{ rewrite matches_none; [reflexivity |].
      intros i _. apply (can_match_sound c value lb ub); auto. }
  destruct (will_match c value lb ub) eqn:Ewill.
  { apply find_all_will_match_run; try assumption; try lia.
    intros i. apply (will_match_sound c value lb ub); auto. }
  destruct (Z.eqb_spec (m_width arr) 0) as [E0 | N0].
  { exfalso. rewrite E0 in El, Eu. cbn in El, Eu.
    injection El as <-. injection Eu as <-.
    rewrite (width_0_decided c value Ecan) in Ewill. discriminate. }
  pose proof (supported_lane_width (m_width arr) Hw N0) as Hlw.
  unfold compare. destruct c.
  - apply (compare_equality_matches callback shr_oversize shr_oversize_range true);
      try assumption.
    apply (equality_value_fits true _ value lb ub); assumption.
  - apply (compare_equality_matches callback shr_oversize shr_oversize_range false);
      try assumption.
    apply (equality_value_fits false _ value lb ub); assumption.
  - apply (compare_relation_matches callback shr_oversize true); assumption.
  - apply (compare_relation_matches callback shr_oversize false); assumption.
Qed.

End FindOptimized.

(** ** The sinks and the shift of the examples *)

Lemma shr_hardware_range (x n : Z) : 0 <= shr_hardware x n < 2 ^ 64.
Proof. unfold shr_hardware. apply to_u64_range. Qed.

Lemma FindFirst_contract : sink_contract QueryStateFindFirst.
Proof.
  intros i v s [Hcount Hlimit]. cbn in *. unfold npos in Hlimit.
  rewrite to_u64_small by lia. split; [reflexivity |]. split; [reflexivity |]. discriminate.
Qed.

Lemma FindFirst_init_ready : sink_ready QueryStateFindFirst_init.
Proof. unfold sink_ready, npos. cbn. lia. Qed.

Lemma Recorder_contract : sink_contract Recorder.
Proof.
  intros i v s [Hcount Hlimit]. cbn [match_ match_count limit Recorder_state fst snd] in *.
  rewrite length_app. cbn [length].
  split; [reflexivity |]. split; [lia |].
  intros Hgo. apply Z.ltb_lt in Hgo. lia.
Qed.

Lemma Recorder_empty_ready : sink_ready ([] : Recorder).
Proof. unfold sink_ready, npos. cbn. lia. Qed.

(** The recorder receives every match of a list that fits in its
    limit. *)
Lemma Recorder_run (ms : list (Z * Z)) :
  forall s : Recorder,
    Z.of_nat (length s) + Z.of_nat (length ms) <= npos ->
    snd (run_matches (report_to None) ms s) = s ++ ms.
Proof.
  induction ms as [| [i v] rest IH]; intros s Hlen; cbn [run_matches snd].
  - symmetry. apply app_nil_r.
  - unfold report_to at 1. cbn [match_ Recorder_state]. cbn [length] in Hlen.
    destruct (Z.ltb_spec (Z.of_nat (length s) + 1) npos) as [Hgo | Hstop].
    + rewrite IH.
      * rewrite <- app_assoc. reflexivity.
      * rewrite length_app. cbn [length]. lia.
    + destruct rest as [| m rest']; [reflexivity | cbn [length] in Hlen; lia].
Qed.

Lemma filter_length_le {T : Type} (f : T -> bool) (l : list T) :
  (length (filter f l) <= length l)%nat.
Proof. induction l as [| x l IH]; cbn; [lia |]. destruct (f x); cbn; lia. Qed.

(** ** The single-result sink under the naive scan *)

(** With the single-result sink the naive scan ends at the first index
    whose element passes, and leaves the state as it was when none
    does. *)
Lemma naive_scan_first (c : Cond) (value : Z) (elem : Z -> Z) (n : nat) :
  forall (start : Z) (s : QueryStateFindFirst),
    (m_state (snd (naive_scan (report_to None) c value elem 0 (zrange start n) s))
     = m_state s /\
     forall i, start <= i < start + Z.of_nat n -> cond_holds c (elem i) value = false)
    \/
    (exists r, start <= r < start + Z.of_nat n /\
               cond_holds c (elem r) value = true /\
               (forall i, start <= i < r -> cond_holds c (elem i) value = false) /\
               m_state (snd (naive_scan (report_to None) c value elem 0 (zrange start n) s))
               = r).
Proof.
  induction n as [| n IH]; intros start s; cbn [zrange naive_scan].
  - left. split; [reflexivity | intros; lia].
  - destruct (cond_holds c (elem start) value) eqn:Ehere.
    + right. exists start. unfold report_to. cbn.
      split; [lia |]. split; [exact Ehere |]. split; [intros; lia |]. lia.
    + destruct (IH (start + 1) s) as [[Hstate Hnone] | (r & Hr & Hyes & Hbefore & Hstate)].
      * left. split; [exact Hstate |].
        intros i Hi. destruct (Z.eq_dec i start) as [-> | Hne]; [exact Ehere |].
        apply Hnone. lia.
      * right. exists r. split; [lia |]. split; [exact Hyes |]. split; [| exact Hstate].
        intros i Hi. destruct (Z.eq_dec i start) as [-> | Hne]; [exact Ehere |].
        apply Hbefore. lia.
Qed.

(** ** Scan equivalence *)

(** C1.  For each of the four conditions, an array of any supported
    width, any value and any range [start <= end <= size], the
    accelerated scan [find_optimized] -- early exits and bit-trick paths
    included -- returns, and what it returns is the outcome of the naive
    element-by-element scan over the same receiver: the same reports in
    the same order, stopping at the same point.  Read off a recording
    receiver, the reports are the pairs (index, element) of the indices
    of the range whose element satisfies the condition, in increasing
    order. *)
Theorem find_optimized_scan_equivalence
        {St : Type} `{QueryStateBase St}
        (callback : option (Z -> St -> bool * St)) (shr_oversize : Z -> Z -> Z)
        (c : Cond) (arr : Array) (value start end_ baseindex : Z) (s : St) :
  (forall x n, 0 <= shr_oversize x n < 2 ^ 64) ->
  supported_width (m_width arr) ->
  0 <= start <= end_ -> end_ <= m_size arr -> m_size arr <= npos ->
  (callback = None -> sink_contract St /\ sink_ready s) ->
  find_optimized callback shr_oversize c (m_width arr) arr value start end_ baseindex s
  = Some (naive_scan (report_to callback) c value (get arr) baseindex
                     (index_range start end_) s)
  /\
  exists go_on : bool,
    find_optimized (St := Recorder) None shr_oversize c (m_width arr) arr value
                   start end_ baseindex []
    = Some (go_on,
            map (fun i => (i + baseindex, get arr i))
                (filter (fun i => cond_holds c (get arr i) value)
                        (index_range start end_))).
Proof.
  intros Hshr Hw Hrange Hsize Hnpos Hsink. split.
  - apply find_optimized_naive; assumption.
  - rewrite (find_optimized_naive (St := Recorder) None shr_oversize Hshr c arr value
                                  start end_ baseindex [] Hw Hrange Hsize Hnpos)
      by (intros _; split; [exact Recorder_contract | exact Recorder_empty_ready]).
    rewrite naive_scan_run.
    match goal with
    | |- exists b, Some ?r = _ => exists (fst r); rewrite (surjective_pairing r) at 1
    end.
    cbn [fst]. rewrite Recorder_run; [reflexivity |].
    unfold matches. rewrite length_map. cbn [length].
    pose proof (filter_length_le (fun i => cond_holds c (get_w (m_width arr) arr i) value)
                                 (index_range start end_)) as Hle.
    unfold index_range in Hle at 2. rewrite zrange_length in Hle. lia.
Qed.

Lemma find_optimized_scan_equivalence_witness :
  find_optimized None shr_hardware Equal (m_width sample_array) sample_array 7 0 8 0
                 QueryStateFindFirst_init
  = Some (naive_scan (report_to None) Equal 7 (get sample_array) 0 (index_range 0 8)
                     QueryStateFindFirst_init)
  /\
  exists go_on : bool,
    find_optimized (St := Recorder) None shr_hardware Equal (m_width sample_array)
                   sample_array 7 0 8 0 []
    = Some (go_on,
            map (fun i => (i + 0, get sample_array i))
                (filter (fun i => cond_holds Equal (get sample_array i) 7)
                        (index_range 0 8))).
Proof.
  apply (find_optimized_scan_equivalence None shr_hardware Equal sample_array 7 0 8 0
                                         QueryStateFindFirst_init).
  - exact shr_hardware_range.
  - vm_compute. tauto.
  - lia.
  - vm_compute. discriminate.
  - vm_compute. discriminate.
  - intros _. split; [exact FindFirst_contract | exact FindFirst_init_ready].
Defined.

(** ** [find_first] *)

(** C6.  The match callback of the single-result sink records the index
    and returns false.  On an array of a supported width and a range
    [start <= end <= size], [find_first] returns; the result is
    [not_found] when no element of the range satisfies the condition,
    and otherwise the least index of the range whose element does. *)
Theorem find_first_least_match
        (shr_oversize : Z -> Z -> Z) (c : Cond) (arr : Array) (value start end_ : Z) :
  (forall x n, 0 <= shr_oversize x n < 2 ^ 64) ->
  supported_width (m_width arr) ->
  0 <= start <= end_ -> end_ <= m_size arr -> m_size arr <= npos ->
  (forall index v s,
      fst (QueryStateFindFirst_match index v s) = false /\
      m_state (snd (QueryStateFindFirst_match index v s)) = index)
  /\
  exists r,
    find_first shr_oversize c arr value start end_ = Some r /\
    ((r = not_found /\
      forall i, start <= i < end_ -> cond_holds c (get arr i) value = false)
     \/
     (start <= r < end_ /\
      cond_holds c (get arr r) value = true /\
      forall i, start <= i < r -> cond_holds c (get arr i) value = false)).
Proof.
  intros Hshr Hw Hrange Hsize Hnpos. split; [intros; split; reflexivity |].
  unfold find_first.
  replace ((start <=? m_size arr) && ((end_ <=? m_size arr) || (end_ =? npos))
           && (start <=? end_)) with true
    by (symmetry; rewrite !andb_true_iff, orb_true_iff, !Z.leb_le; lia).
  cbn [negb]. unfold find_vtable.
  rewrite (find_optimized_naive None shr_oversize Hshr c arr value start end_ 0
                                QueryStateFindFirst_init Hw Hrange Hsize Hnpos)
    by (intros _; split; [exact FindFirst_contract | exact FindFirst_init_ready]).
  unfold index_range.
  destruct (naive_scan_first c value (get_w (m_width arr) arr) (Z.to_nat (end_ - start))
                             start QueryStateFindFirst_init)
    as [[Hstate Hnone] | (r & Hr & Hyes & Hbefore & Hstate)].
  - destruct (naive_scan _ _ _ _ _ _ _) as [go_on st]. cbn [snd] in Hstate.
    exists (m_state st). split; [reflexivity |]. left.
    split; [exact Hstate |]. intros i Hi. apply Hnone. lia.
  - destruct (naive_scan _ _ _ _ _ _ _) as [go_on st]. cbn [snd] in Hstate.
    exists (m_state st). split; [reflexivity |]. right. rewrite Hstate.
    split; [lia |]. split; [exact Hyes | exact Hbefore].
Qed.

Lemma find_first_least_match_witness :
  (forall index v s,
      fst (QueryStateFindFirst_match index v s) = false /\
      m_state (snd (QueryStateFindFirst_match index v s)) = index)
  /\
  exists r,
    find_first shr_hardware Greater sample_array 7 1 8 = Some r /\
    ((r = not_found /\
      forall i, 1 <= i < 8 -> cond_holds Greater (get sample_array i) 7 = false)
     \/
     (1 <= r < 8 /\
      cond_holds Greater (get sample_array r) 7 = true /\
      forall i, 1 <= i < r -> cond_holds Greater (get sample_array i) 7 = false)).
Proof.
  apply (find_first_least_match shr_hardware Greater sample_array 7 1 8).
  - exact shr_hardware_range.
  - vm_compute. tauto.
  - lia.
  - vm_compute. discriminate.
  - vm_compute. discriminate.
Defined.

(** ** The pattern callback *)

(** C9.  [find_action_pattern] is false for every index, pattern and
    query state, so a chunk offered as a pattern is never consumed; and
    the outcome of a scan is the naive scan's, each match reported on
    its own, whatever the pattern callback of the sink is: two sinks
    that differ in nothing but [match_pattern] give the same outcome. *)
Theorem find_action_pattern_declines
        {St : Type} (m : Z -> Z -> St -> bool * St)
        (pattern1 pattern2 : Z -> Z -> St -> bool * St)
        (count lim : St -> Z)
        (callback : option (Z -> St -> bool * St)) (shr_oversize : Z -> Z -> Z)
        (c : Cond) (arr : Array) (value start end_ baseindex : Z) (s : St) :
  (forall x n, 0 <= shr_oversize x n < 2 ^ 64) ->
  supported_width (m_width arr) ->
  0 <= start <= end_ -> end_ <= m_size arr -> m_size arr <= npos ->
  (callback = None ->
   @sink_contract St (Build_QueryStateBase St m pattern1 count lim) /\
   @sink_ready St (Build_QueryStateBase St m pattern1 count lim) s) ->
  (forall index pattern (st : St), find_action_pattern index pattern st = false) /\
  (forall index pattern (st : St),
      pattern_consumed index pattern st = Some (false, st)) /\
  @find_optimized St (Build_QueryStateBase St m pattern1 count lim)
                  callback shr_oversize c (m_width arr) arr value start end_ baseindex s
  = Some (naive_scan (fun index v st => match callback with
                                        | Some cb => cb index st
                                        | None => m index v st
                                        end)
                     c value (get arr) baseindex (index_range start end_) s) /\
  @find_optimized St (Build_QueryStateBase St m pattern1 count lim)
                  callback shr_oversize c (m_width arr) arr value start end_ baseindex s
  = @find_optimized St (Build_QueryStateBase St m pattern2 count lim)
                    callback shr_oversize c (m_width arr) arr value start end_ baseindex s.
Proof.
  intros Hshr Hw Hrange Hsize Hnpos Hsink.
  split; [reflexivity |]. split; [reflexivity |].
  pose proof (@find_optimized_naive St (Build_QueryStateBase St m pattern1 count lim)
                callback shr_oversize Hshr c arr value start end_ baseindex s
                Hw Hrange Hsize Hnpos Hsink) as H1.
  pose proof (@find_optimized_naive St (Build_QueryStateBase St m pattern2 count lim)
                callback shr_oversize Hshr c arr value start end_ baseindex s
                Hw Hrange Hsize Hnpos Hsink) as H2.
  split; [exact H1 |]. rewrite H1, H2. reflexivity.
Qed.

Lemma find_action_pattern_declines_witness :
  (forall index pattern (st : Recorder), find_action_pattern index pattern st = false) /\
  (forall index pattern (st : Recorder),
      pattern_consumed index pattern st = Some (false, st)) /\
  @find_optimized Recorder
                  (Build_QueryStateBase Recorder match_ (fun _ _ st => (false, st))
                                        match_count limit)
                  None shr_hardware Less (m_width sample_array) sample_array 7 0 8 0 []
  = Some (naive_scan (fun index v st => match_ index v st)
                     Less 7 (get sample_array) 0 (index_range 0 8) []) /\
  @find_optimized Recorder
                  (Build_QueryStateBase Recorder match_ (fun _ _ st => (false, st))
                                        match_count limit)
                  None shr_hardware Less (m_width sample_array) sample_array 7 0 8 0 []
  = @find_optimized Recorder
                    (Build_QueryStateBase Recorder match_ (fun _ _ st => (true, []))
                                          match_count limit)
                    None shr_hardware Less (m_width sample_array) sample_array 7 0 8 0 [].
Proof.
  apply (find_action_pattern_declines (St := Recorder) match_
           (fun _ _ st => (false, st)) (fun _ _ st => (true, []))
           match_count limit None shr_hardware Less sample_array 7 0 8 0 []).
  - exact shr_hardware_range.
  - vm_compute. tauto.
  - lia.
  - vm_compute. discriminate.
  - vm_compute. discriminate.
  - intros _. split; [exact Recorder_contract | exact Recorder_empty_ready].
Defined.

(** * Further properties of the header *)

(** ** The bounds of a width *)

(** The bounds in closed form: an unsigned range of [w] bits below 8
    bits, a two's complement range of [w] bits from 8 bits on.
    [ubound_for_width] is unreachable exactly for the unsupported
    widths, whereas [lbound_for_width] answers 0 for every width below
    8, supported or not. *)
Theorem width_bounds_closed_form (w : Z) :
  (supported_width w ->
   lbound_for_width w = Some (if w <? 8 then 0 else - 2 ^ (w - 1)) /\
   ubound_for_width w = Some (if w <? 8 then 2 ^ w - 1 else 2 ^ (w - 1) - 1)) /\
  (ubound_for_width w = None <-> ~ supported_width w) /\
  (w < 8 -> lbound_for_width w = Some 0).
Proof.
  split; [| split].
  - unfold supported_width, supported_widths. cbn [In].
    intros [E | [E | [E | [E | [E | [E | [E | [E | []]]]]]]]]; subst w;
      split; reflexivity.
  - unfold supported_width, supported_widths, ubound_for_width. cbn [In].
    repeat match goal with
           | |- context [?a =? ?b] => destruct (Z.eqb_spec a b)
           end; split; intros; try discriminate; try reflexivity; intuition lia.
  - intros Hw. unfold lbound_for_width.
    destruct (Z.eqb_spec w 32); [lia |]. destruct (Z.eqb_spec w 16); [lia |].
    destruct (Z.ltb_spec w 8); [reflexivity | lia].
Qed.

Lemma width_bounds_closed_form_witness :
  lbound_for_width 16 = Some (- 2 ^ 15) /\
  ubound_for_width 16 = Some (2 ^ 15 - 1) /\
  lbound_for_width 3 = Some 0 /\
  ubound_for_width 3 = None.
Proof.
  split; [| split; [| split]].
  - apply (proj1 (width_bounds_closed_form 16)). vm_compute. tauto.
  - apply (proj1 (width_bounds_closed_form 16)). vm_compute. tauto.
  - apply (proj2 (proj2 (width_bounds_closed_form 3))). lia.
  - apply (proj1 (proj2 (width_bounds_closed_form 3))).
    vm_compute. intuition discriminate.
Defined.

(** The ranges of the supported widths nest, and all of them hold zero:
    a value that fits a width fits every wider one. *)
Theorem width_bounds_nest (w w' : Z) :
  supported_width w -> supported_width w' -> w <= w' ->
  exists lb ub lb' ub',
    lbound_for_width w = Some lb /\ ubound_for_width w = Some ub /\
    lbound_for_width w' = Some lb' /\ ubound_for_width w' = Some ub' /\
    lb' <= lb /\ lb <= 0 /\ 0 <= ub /\ ub <= ub' /\
    (forall v, fits w v = true -> fits w' v = true).
Proof.
  intros Hw Hw' Hle.
  assert (Hfit : forall v, fits w v = true -> fits w' v = true)
    by (intros v; apply fits_mono; assumption).
  unfold supported_width, supported_widths in Hw, Hw'. cbn [In] in Hw, Hw'.
  destruct Hw as [E | [E | [E | [E | [E | [E | [E | [E | []]]]]]]]]; subst w;
    destruct Hw' as [E | [E | [E | [E | [E | [E | [E | [E | []]]]]]]]]; subst w';
    try lia;
    do 4 eexists;
    (split; [reflexivity |]); (split; [reflexivity |]);
    (split; [reflexivity |]); (split; [reflexivity |]);
    (split; [lia |]); (split; [lia |]); (split; [lia |]); (split; [lia |]);
    exact Hfit.
Qed.

Lemma width_bounds_nest_witness :
  exists lb ub lb' ub',
    lbound_for_width 4 = Some lb /\ ubound_for_width 4 = Some ub /\
    lbound_for_width 16 = Some lb' /\ ubound_for_width 16 = Some ub' /\
    lb' <= lb /\ lb <= 0 /\ 0 <= ub /\ ub <= ub' /\
    (forall v, fits 4 v = true -> fits 16 v = true).
Proof.
  apply (width_bounds_nest 4 16).
  - vm_compute. tauto.
  - vm_compute. tauto.
  - lia.
Defined.

(** ** The layout of the payload *)

(** An element that lies within the buffer is the field of [w] bits at
    bit [ndx * w] of the payload read as one little-endian number: the
    elements are packed least significant bit first, without padding;
    the field is taken as it is below 8 bits and as a two's complement
    number from 8 bits on. *)
Theorem get_universal_bit_field (w : Z) (data : list byte) (ndx : Z) :
  supported_width w -> 0 < w -> 0 <= ndx ->
  (ndx + 1) * w <= 8 * Z.of_nat (length data) ->
  get_universal w data ndx
  = decode w (Z.land (Z.shiftr (le_combine data) (ndx * w)) (Z.ones w)).
Proof.
  intros Hw Hpos Hndx _. apply get_universal_bits; assumption.
Qed.

Lemma get_universal_bit_field_witness :
  get_universal 4 [Byte.xa7; Byte.x3c] 3
  = decode 4 (Z.land (Z.shiftr (le_combine [Byte.xa7; Byte.x3c]) (3 * 4)) (Z.ones 4)).
Proof.
  apply (get_universal_bit_field 4 [Byte.xa7; Byte.x3c] 3).
  - vm_compute. tauto.
  - lia.
  - lia.
  - vm_compute. discriminate.
Defined.

(** ** The probes of a 64-bit chunk *)

(** [test_zero] tells whether one of the lanes of [width] bits of the
    chunk is zero. *)
Theorem test_zero_finds_zero_lane (w v : Z) :
  lane_width w -> 0 <= v < 2 ^ 64 ->
  (test_zero w v = true <-> exists k, 0 <= k < 64 / w /\ lane w v k = 0).
Proof. apply test_zero_spec. Qed.

Lemma test_zero_finds_zero_lane_witness :
  test_zero 8 0x0102030400060708 = true
  <-> exists k, 0 <= k < 64 / 8 /\ lane 8 0x0102030400060708 k = 0.
Proof.
  apply (test_zero_finds_zero_lane 8 0x0102030400060708).
  - unfold lane_width. tauto.
  - lia.
Defined.

(** When some lane of the chunk is zero (for [eq]) or non-zero (for
    [!eq]), [find_zero] returns the position of the first such lane,
    whatever the bisection steps take; the loop never reaches its
    assertion. *)
Theorem find_zero_first_hit (shr_oversize : Z -> Z -> Z) (eq : bool) (w v : Z) :
  lane_width w -> 0 <= v < 2 ^ 64 ->
  (exists k, 0 <= k < 64 / w /\ lane_hit eq (lane w v k) = true) ->
  exists t, find_zero shr_oversize eq w v = Some t /\
            0 <= t < 64 / w /\
            lane_hit eq (lane w v t) = true /\
            forall k, 0 <= k < t -> lane_hit eq (lane w v k) = false.
Proof. apply find_zero_spec. Qed.

Lemma find_zero_first_hit_witness :
  exists t, find_zero shr_hardware true 4 0x1230456709ab1def = Some t /\
            0 <= t < 64 / 4 /\
            lane_hit true (lane 4 0x1230456709ab1def t) = true /\
            forall k, 0 <= k < t -> lane_hit true (lane 4 0x1230456709ab1def k) = false.
Proof.
  apply (find_zero_first_hit shr_hardware true 4 0x1230456709ab1def).
  - unfold lane_width. tauto.
  - lia.
  - exists 7. split; [vm_compute; split; [discriminate | reflexivity] | reflexivity].
Defined.

(** ** The relational scans of a chunk *)

(** [find_gtlt] reports, lowest lane first, the lanes of the chunk that
    are greater (for [gt]) or less (for [!gt]) than [v], each read as
    the getter of the width reads it, until the receiver says stop. *)
Theorem find_gtlt_reports_lanes
        {St : Type} `{QueryStateBase St}
        (callback : option (Z -> St -> bool * St))
        (gt : bool) (w v chunk baseindex : Z) (s : St) :
  lane_width w -> 0 <= chunk < 2 ^ 64 ->
  find_gtlt callback gt w v chunk baseindex s
  = Some (run_matches (report_to callback)
            (map (fun k => (k + baseindex, decode w (lane w chunk k)))
                 (filter (fun k => if gt then decode w (lane w chunk k) >? v
                                   else decode w (lane w chunk k) <? v)
                         (zrange 0 (lanes_of w)))) s).
Proof. intros Hw Hc. apply find_gtlt_matches; assumption. Qed.

Lemma find_gtlt_reports_lanes_witness :
  find_gtlt (St := Recorder) None false 16 0 0x0003FFFE00070007 10 []
  = Some (run_matches (report_to None)
            (map (fun k => (k + 10, decode 16 (lane 16 0x0003FFFE00070007 k)))
                 (filter (fun k => decode 16 (lane 16 0x0003FFFE00070007 k) <? 0)
                         (zrange 0 (lanes_of 16)))) []).
Proof.
  apply (find_gtlt_reports_lanes (St := Recorder) None false 16 0 0x0003FFFE00070007 10 []).
  - unfold lane_width. tauto.
  - lia.
Defined.

Lemma decode_nonneg_lane (w x : Z) :
  lane_width w -> 0 <= x < 2 ^ w -> 0 <= decode w x < 2 ^ (w - 1) -> x < 2 ^ (w - 1).
Proof.
  intros Hlw Hx Hd. pose proof (lane_width_pos w Hlw) as Hw.
  unfold decode in Hd. destruct (w <? 8); [lia |].
  unfold sext in Hd. pose proof (B_half w Hw) as Hp.
  destruct (Z.lt_ge_cases x (2 ^ (w - 1))) as [? | Hge]; [assumption |].
  exfalso.
  replace (x + 2 ^ (w - 1)) with (x - 2 ^ (w - 1) + 1 * 2 ^ w) in Hd by lia.
  rewrite Z.mod_add in Hd by lia. rewrite Z.mod_small in Hd by lia. lia.
Qed.

(** On a chunk whose elements all lie in the lower half of the range of
    the width, [find_gtlt_fast] with the magic constant of a value
    between 0 and [2^(w-1) - 2] reports exactly the elements of the
    chunk that are greater than the value, in order; no shift in it
    reaches 64 bits. *)
Theorem find_gtlt_fast_reports_greater
        {St : Type} `{QueryStateBase St}
        (callback : option (Z -> St -> bool * St)) (shr_oversize : Z -> Z -> Z)
        (w : Z) (arr : Array) (value q baseindex : Z) (s : St) :
  lane_width w -> 2 <= w -> 0 <= q -> 0 <= value <= 2 ^ (w - 1) - 2 ->
  (forall k, 0 <= k < 64 / w -> 0 <= get_w w arr (q * (64 / w) + k) < 2 ^ (w - 1)) ->
  find_gtlt_fast callback shr_oversize true w
                 (load_le (data_of arr) (8 * q) 8)
                 (to_u64 (find_gtlt_magic true w value))
                 (q * (64 / w) + baseindex) s
  = Some (run_matches (report_to callback)
            (map (fun i => (i + baseindex, get_w w arr i))
                 (filter (fun i => get_w w arr i >? value)
                         (zrange (q * (64 / w)) (lanes_of w)))) s).
Proof.
  intros Hlw H2 Hq Hv Hlow.
  pose proof (lane_width_pos w Hlw) as Hw.
  pose proof (fast_chunk_matches callback shr_oversize w arr value q baseindex s
                                 Hlw H2 Hq Hv) as Hfast.
  rewrite to_u64_to_i64, to_u64_small in Hfast by (apply load_le_u64; lia).
  apply Hfast. intros k Hk.
  apply (decode_nonneg_lane w); [assumption | apply lane_range; assumption |].
  rewrite <- (get_w_chunk_lane w arr (8 * q) (q * (64 / w)) k).
  - apply Hlow. assumption.
  - apply lane_width_supported. assumption.
  - assumption.
  - lia.
  - nia.
  - destruct (lane_width_lanes w Hlw) as (HL & _).
    replace (q * (64 / w) * w) with (q * (w * (64 / w))) by ring. rewrite HL. ring.
  - lia.
  - destruct (lane_width_lanes w Hlw) as (HL & _). nia.
Qed.

Lemma find_gtlt_fast_reports_greater_witness :
  find_gtlt_fast (St := Recorder) None shr_hardware true 4
                 (load_le (data_of sample_nibbles) (8 * 0) 8)
                 (to_u64 (find_gtlt_magic true 4 3))
                 (0 * (64 / 4) + 100) []
  = Some (run_matches (report_to None)
            (map (fun i => (i + 100, get_w 4 sample_nibbles i))
                 (filter (fun i => get_w 4 sample_nibbles i >? 3)
                         (zrange (0 * (64 / 4)) (lanes_of 4)))) []).
Proof.
  apply (find_gtlt_fast_reports_greater (St := Recorder) None shr_hardware 4
                                        sample_nibbles 3 0 100 []).
  - unfold lane_width. tauto.
  - lia.
  - lia.
  - vm_compute. split; discriminate.
  - intros k Hk. change (64 / 4) with 16 in Hk.
    assert (Hcases : k = 0 \/ k = 1 \/ k = 2 \/ k = 3 \/ k = 4 \/ k = 5 \/ k = 6 \/ k = 7 \/
                     k = 8 \/ k = 9 \/ k = 10 \/ k = 11 \/ k = 12 \/ k = 13 \/ k = 14 \/
                     k = 15) by lia.
    repeat (destruct Hcases as [-> | Hcases]; [vm_compute; split; [discriminate | reflexivity] |]).
    subst k. vm_compute. split; [discriminate | reflexivity].
Defined.

(** The low lane of the magic constant is the value itself for
    less-than and [2^(w-1) - 1 - value] for greater-than; so the test
    [value != (magic & mask)] that guards the fast path of
    [compare_relation] holds exactly for greater-than: the fast path is
    never taken for less-than. *)
Theorem find_gtlt_magic_low_lane (gt : bool) (w value : Z) :
  lane_width w -> 2 <= w -> 0 <= value <= 2 ^ (w - 1) - 1 ->
  to_i64 (Z.land (to_u64 (find_gtlt_magic gt w value)) (width_mask w))
  = (if gt then 2 ^ (w - 1) - 1 - value else value) /\
  negb (value =? to_i64 (Z.land (to_u64 (find_gtlt_magic gt w value)) (width_mask w)))
  = gt.
Proof.
  intros Hlw H2 Hv. pose proof (lane_width_pos w Hlw) as Hw.
  destruct (lane_width_lanes w Hlw) as (HL & HLp & HLn).
  pose proof (B_half w Hw) as Hp. pose proof (lane_in_u64 w Hlw) as H64.
  assert (Hhalf : 0 < 2 ^ (w - 1)) by (apply Z.pow_pos_nonneg; lia).
  assert (Hlow : Z.land (to_u64 (find_gtlt_magic gt w value)) (width_mask w)
                 = if gt then 2 ^ (w - 1) - 1 - value else value).
  { rewrite (magic_rep gt w value Hlw Hv), (width_mask_ones w Hlw).
    rewrite <- (lane_rep w Hw (lanes_of w) (if gt then 2 ^ (w - 1) - 1 - value else value) 0)
      at 2 by (destruct gt; lia).
    unfold lane. rewrite Z.mul_0_r, Z.shiftr_0_r. reflexivity. }
  rewrite Hlow.
  assert (H63 : 2 ^ w <= 2 * 2 ^ 63) by (change (2 * 2 ^ 63) with (2 ^ 64); assumption).
  rewrite to_i64_small by (destruct gt; lia).
  split; [reflexivity |].
  destruct gt.
  - apply negb_true_iff, Z.eqb_neq.
    assert (Hq : 2 ^ (w - 1) = 2 * 2 ^ (w - 2)).
    { rewrite <- Z.pow_succ_r by lia. f_equal. lia. }
    lia.
  - apply negb_false_iff, Z.eqb_refl.
Qed.

Lemma find_gtlt_magic_low_lane_witness :
  to_i64 (Z.land (to_u64 (find_gtlt_magic false 8 42)) (width_mask 8)) = 42 /\
  negb (42 =? to_i64 (Z.land (to_u64 (find_gtlt_magic false 8 42)) (width_mask 8)))
  = false.
Proof.
  apply (find_gtlt_magic_low_lane false 8 42).
  - unfold lane_width. tauto.
  - lia.
  - vm_compute. split; discriminate.
Defined.

(** ** The scan when every element matches *)

Lemma matches_all (elem : Z -> Z) (base : Z) (l : list Z) :
  matches (fun _ => true) elem base l = map (fun i => (i + base, elem i)) l.
Proof.
  unfold matches. f_equal. induction l as [| i rest IH]; cbn [filter]; congruence.
Qed.

(** [find_all_will_match] reports the indices of the range in order,
    each with its element.  With a callback it goes through the whole
    range; with a sink it cuts the range short at what the sink can
    still take, [limit - match_count] indices, before it reports
    anything. *)
Theorem find_all_will_match_reports
        {St : Type} `{QueryStateBase St}
        (callback : option (Z -> St -> bool * St))
        (w : Z) (arr : Array) (start end_ baseindex : Z) (s : St) :
  0 <= start <= end_ -> end_ <= npos ->
  (callback = None -> sink_ready s) ->
  find_all_will_match callback w arr start end_ baseindex s
  = Some (run_matches (report_to callback)
            (map (fun i => (i + baseindex, get_w w arr i))
                 (index_range start
                              (match callback with
                               | Some _ => end_
                               | None => Z.min end_ (start + (limit s - match_count s))
                               end))) s).
Proof.
  intros Hrange Hnpos Hready. rewrite <- matches_all.
  unfold find_all_will_match, index_range.
  destruct callback as [cb |].
  - apply scan_elems_matches.
  - destruct (Hready eq_refl) as (Hcount & Hlimit). unfold npos in Hnpos, Hlimit.
    rewrite (to_u64_small (limit s - match_count s)) by lia.
    rewrite (to_u64_small (end_ - start)) by lia.
    destruct (Z.gtb_spec (end_ - start) (limit s - match_count s)) as [Hcut | Hall].
    + rewrite to_u64_small by lia. rewrite Z.min_r by lia. apply scan_elems_matches.
    + rewrite Z.min_l by lia. apply scan_elems_matches.
Qed.

Lemma find_all_will_match_reports_witness :
  find_all_will_match None 16 sample_array 2 8 0 (mkFindFirst not_found 0 3)
  = Some (run_matches (report_to None)
            (map (fun i => (i + 0, get_w 16 sample_array i))
                 (index_range 2 (Z.min 8 (2 + (limit (mkFindFirst not_found 0 3)
                                               - match_count (mkFindFirst not_found 0 3))))))
            (mkFindFirst not_found 0 3)).
Proof.
  apply (find_all_will_match_reports None 16 sample_array 2 8 0 (mkFindFirst not_found 0 3)).
  - lia.
  - vm_compute. discriminate.
  - intros _. unfold sink_ready, npos. cbn. lia.
Defined.

(** ** [compare] without the early exits *)

(** [Array::compare] by itself, for a width from 1 to 64 bits, returns,
    and what it returns is the outcome of the naive scan, provided that
    for [Equal] and [NotEqual] the value is representable at the width
    -- the bit tricks of [compare_equality] compare only the low bits of
    the value -- and that for [Greater] and [Less] the range ends within
    the array, as [compare_relation] asserts. *)
Theorem compare_is_naive_scan
        {St : Type} `{QueryStateBase St}
        (callback : option (Z -> St -> bool * St)) (shr_oversize : Z -> Z -> Z)
        (c : Cond) (w : Z) (arr : Array) (value start end_ baseindex : Z) (s : St) :
  (forall x n, 0 <= shr_oversize x n < 2 ^ 64) ->
  lane_width w -> 0 <= start <= end_ ->
  match c with
  | Equal | NotEqual => fits w value = true
  | Greater | Less => end_ <= m_size arr
  end ->
  compare callback shr_oversize c w arr value start end_ baseindex s
  = Some (naive_scan (report_to callback) c value (get_w w arr) baseindex
                     (index_range start end_) s).
Proof.
  intros Hshr Hlw Hrange Hpre. rewrite naive_scan_run.
  destruct c; cbn [compare cond_holds].
  - apply (compare_equality_matches callback shr_oversize Hshr true); assumption.
  - apply (compare_equality_matches callback shr_oversize Hshr false); assumption.
  - apply (compare_relation_matches callback shr_oversize true); assumption.
  - apply (compare_relation_matches callback shr_oversize false); assumption.
Qed.

Lemma compare_is_naive_scan_witness :
  compare (St := Recorder) None shr_hardware NotEqual 16 sample_array 7 1 8 0 []
  = Some (naive_scan (report_to None) NotEqual 7 (get_w 16 sample_array) 0
                     (index_range 1 8) []).
Proof.
  apply (compare_is_naive_scan (St := Recorder) None shr_hardware NotEqual 16
                               sample_array 7 1 8 0 []).
  - exact shr_hardware_range.
  - unfold lane_width. tauto.
  - lia.
  - reflexivity.
Defined.

(** ** The range of [find_first] *)

(** [find_first] aborts on its assertion exactly when the range is not
    a range of the array: it returns a result if and only if
    [start <= size], [end <= size] or [end] is [npos], and
    [start <= end].  The default [end = npos] stands for the size of
    the array. *)
Theorem find_first_range_check
        (shr_oversize : Z -> Z -> Z) (c : Cond) (arr : Array) (value start end_ : Z) :
  (forall x n, 0 <= shr_oversize x n < 2 ^ 64) ->
  supported_width (m_width arr) ->
  0 <= start -> 0 <= end_ <= npos -> m_size arr <= npos ->
  ((exists r, find_first shr_oversize c arr value start end_ = Some r)
   <-> start <= m_size arr /\ (end_ <= m_size arr \/ end_ = npos) /\ start <= end_) /\
  find_first shr_oversize c arr value start npos
  = find_first shr_oversize c arr value start (m_size arr).
Proof.
  intros Hshr Hw Hstart Hend Hsize.
  assert (Hdefault : find_first shr_oversize c arr value start npos
                     = find_first shr_oversize c arr value start (m_size arr)).
  { unfold find_first.
    replace ((start <=? m_size arr) && ((npos <=? m_size arr) || (npos =? npos))
             && (start <=? npos))
      with ((start <=? m_size arr) && ((m_size arr <=? m_size arr) || (m_size arr =? npos))
            && (start <=? m_size arr)).
    2:{ rewrite Z.eqb_refl, Z.leb_refl, orb_true_r. cbn [orb]. rewrite !andb_true_r.
        destruct (Z.leb_spec start (m_size arr)); [| reflexivity].
        symmetry. apply Z.leb_le. lia. }
    destruct (negb _); [reflexivity |].
    unfold find_vtable, find_optimized. rewrite Z.eqb_refl.
    destruct (m_size arr =? npos); reflexivity. }
  assert (Hin : forall e, start <= e -> e <= m_size arr ->
                          exists r, find_first shr_oversize c arr value start e = Some r).
  { intros e Hse Hes. unfold find_first.
    replace ((start <=? m_size arr) && ((e <=? m_size arr) || (e =? npos)) && (start <=? e))
      with true
      by (symmetry; rewrite !andb_true_iff, orb_true_iff, !Z.leb_le; lia).
    cbn [negb]. unfold find_vtable.
    rewrite (find_optimized_naive None shr_oversize Hshr c arr value start e 0
                                  QueryStateFindFirst_init Hw)
      by (first [lia | intros _; split; [exact FindFirst_contract | exact FindFirst_init_ready]]).
    destruct (naive_scan _ _ _ _ _ _ _) as [go_on st]. eexists. reflexivity. }
  split; [| exact Hdefault]. split.
  - intros [r Hr]. unfold find_first in Hr.
    destruct ((start <=? m_size arr) && ((end_ <=? m_size arr) || (end_ =? npos))
              && (start <=? end_)) eqn:E; [| discriminate].
    rewrite !andb_true_iff, orb_true_iff, !Z.leb_le, Z.eqb_eq in E. lia.
  - intros (Hs & [He | He] & Hse).
    + apply Hin; lia.
    + subst end_. rewrite Hdefault. apply Hin; lia.
Qed.

Lemma find_first_range_check_witness :
  ((exists r, find_first shr_hardware Equal sample_array 7 2 9 = Some r)
   <-> 2 <= m_size sample_array /\ (9 <= m_size sample_array \/ 9 = npos) /\ 2 <= 9) /\
  find_first shr_hardware Equal sample_array 7 2 npos
  = find_first shr_hardware Equal sample_array 7 2 (m_size sample_array).
Proof.
  apply (find_first_range_check shr_hardware Equal sample_array 7 2 9).
  - exact shr_hardware_range.
  - vm_compute. tauto.
  - lia.
  - vm_compute. split; discriminate.
  - vm_compute. discriminate.
Defined.

(** ** Erasing one element *)

(** [erase(ndx)] is the ranged [erase(ndx, ndx + 1)]: the same call of
    [move], the same new size, the same header update. *)
Theorem erase_ndx_is_ranged_erase
        {A : Type} `{Allocator A}
        (move : Z -> Z -> Z -> Array * A -> option (Array * A))
        (set_header_size : Z -> Array * A -> option (Array * A))
        (ndx : Z) (s : Array * A) :
  0 <= ndx < npos ->
  erase_ndx move set_header_size ndx s = erase move set_header_size ndx (ndx + 1) s.
Proof.
  intros Hndx. unfold erase_ndx, erase, npos in *.
  destruct (Z.eqb_spec ndx (ndx + 1)); [lia |]. cbn [negb].
  rewrite to_u64_small by lia.
  replace (ndx + 1 - ndx) with 1 by lia. reflexivity.
Qed.

Lemma erase_ndx_is_ranged_erase_witness :
  erase_ndx (fun _ _ _ s => Some s) (fun _ s => Some s) 3
            (sample_array, mkSampleAlloc 1024 8192 [])
  = erase (fun _ _ _ s => Some s) (fun _ s => Some s) 3 (3 + 1)
          (sample_array, mkSampleAlloc 1024 8192 []).
Proof.
  apply (erase_ndx_is_ranged_erase (fun _ _ _ s => Some s) (fun _ s => Some s) 3
                                   (sample_array, mkSampleAlloc 1024 8192 [])).
  vm_compute. split; [discriminate | reflexivity].
Defined.

(** ** The static entry points *)

(** The static [destroy_deep(mem, alloc)] leaves the allocator as
    [destroy_deep()] on an accessor attached to [mem] does: the node is
    freed once, after its children when the header says it has any --
    provided [init_from_mem] attaches the accessor to the reference of
    [mem] and caches the flag of the header. *)
Theorem destroy_deep_mem_frees_once
        {A : Type} `{Allocator A}
        (init_from_mem : MemRef -> Array) (destroy_children : Array -> A -> A)
        (mem : MemRef) (al : A) :
  is_attached (init_from_mem mem) = true ->
  m_ref (init_from_mem mem) = get_ref mem ->
  m_has_refs (init_from_mem mem) = hdr_has_refs (header (get_addr mem)) ->
  destroy_deep_mem init_from_mem destroy_children mem al
  = snd (destroy_deep destroy_children (init_from_mem mem, al)) /\
  destroy_deep_mem init_from_mem destroy_children mem al
  = free_ (get_ref mem)
          (if hdr_has_refs (header (get_addr mem))
           then destroy_children (init_from_mem mem) al else al).
Proof.
  intros Hatt Href Hrefs. unfold destroy_deep_mem, destroy_deep.
  rewrite Hatt, Href, Hrefs. cbn [negb snd].
  destruct (hdr_has_refs (header (get_addr mem))); cbn [negb]; split; reflexivity.
Qed.

Lemma destroy_deep_mem_frees_once_witness :
  destroy_deep_mem sample_init_from_mem (fun _ al => al)
                   (mkMemRef sample_node 4352) (mkSampleAlloc 1024 8192 [])
  = snd (destroy_deep (fun _ al => al)
                      (sample_init_from_mem (mkMemRef sample_node 4352),
                       mkSampleAlloc 1024 8192 [])) /\
  destroy_deep_mem sample_init_from_mem (fun _ al => al)
                   (mkMemRef sample_node 4352) (mkSampleAlloc 1024 8192 [])
  = free_ (get_ref (mkMemRef sample_node 4352))
          (if hdr_has_refs (header (get_addr (mkMemRef sample_node 4352)))
           then (fun _ al => al) (sample_init_from_mem (mkMemRef sample_node 4352))
                                 (mkSampleAlloc 1024 8192 [])
           else mkSampleAlloc 1024 8192 []).
Proof.
  apply (destroy_deep_mem_frees_once sample_init_from_mem (fun _ al => al)
                                     (mkMemRef sample_node 4352)
                                     (mkSampleAlloc 1024 8192 []));
    reflexivity.
Defined.

(** The static [write(ref, alloc, out, only_if_modified)] is the
    accessor's [write] with [deep] set, on an accessor that
    [init_from_ref] attaches to [ref]; and with [only_if_modified] set
    on a read-only reference it returns the reference and writes
    nothing, without attaching anything. *)
Theorem write_ref_is_deep_write
        {A : Type} `{Allocator A} {Writer : Type}
        (init_from_ref : Z -> A -> Array)
        (do_write_shallow : Array -> Writer -> Z * Writer)
        (do_write_deep : Array -> bool -> Writer -> Z * Writer)
        (ref : Z) (al : A) (out : Writer) (only_if_modified : bool) :
  is_attached (init_from_ref ref al) = true ->
  m_ref (init_from_ref ref al) = ref ->
  write do_write_shallow do_write_deep (init_from_ref ref al) al out true only_if_modified
  = Some (write_ref init_from_ref do_write_shallow do_write_deep ref al out
                    only_if_modified) /\
  (only_if_modified = true -> is_read_only al ref = true ->
   forall init_from_ref',
     write_ref init_from_ref' do_write_shallow do_write_deep ref al out only_if_modified
     = (ref, out)).
Proof.
  intros Hatt Href. split.
  - unfold write, write_ref. rewrite Hatt, Href. cbn [negb orb].
    destruct (only_if_modified && is_read_only al ref); [reflexivity |].
    destruct (m_has_refs (init_from_ref ref al)); reflexivity.
  - intros -> Hro init'. unfold write_ref. rewrite Hro. reflexivity.
Qed.

Lemma write_ref_is_deep_write_witness :
  write sample_write_shallow sample_write_deep
        (sample_init_from_ref 4352 (mkSampleAlloc 8192 8192 []))
        (mkSampleAlloc 8192 8192 []) [Byte.x01] true true
  = Some (write_ref sample_init_from_ref sample_write_shallow sample_write_deep
                    4352 (mkSampleAlloc 8192 8192 []) [Byte.x01] true) /\
  forall init_from_ref',
    write_ref init_from_ref' sample_write_shallow sample_write_deep
              4352 (mkSampleAlloc 8192 8192 []) [Byte.x01] true
    = (4352, [Byte.x01]).
Proof.
  split.
  - apply (proj1 (write_ref_is_deep_write sample_init_from_ref sample_write_shallow
                                          sample_write_deep 4352
                                          (mkSampleAlloc 8192 8192 []) [Byte.x01] true
                                          eq_refl eq_refl)).
  - apply (proj2 (write_ref_is_deep_write sample_init_from_ref sample_write_shallow
                                          sample_write_deep 4352
                                          (mkSampleAlloc 8192 8192 []) [Byte.x01] true
                                          eq_refl eq_refl));
      reflexivity.
Defined.

(** ** The flags *)

(** [set_has_refs] and [set_context_flag] with the value the flag
    already has return at once: nothing is asserted, copied or written,
    also on a read-only array.  Otherwise [set_has_refs] aborts on a
    read-only array.  After a call that returns, the flag has the value,
    so that a second call changes nothing. *)
Theorem flag_setters_settle
        {A : Type} `{Allocator A}
        (set_hasrefs_in_header set_context_flag_in_header : bool -> MemBlock -> MemBlock)
        (do_copy_on_write : Array * A -> option (Array * A))
        (value : bool) (s : Array * A) :
  (m_has_refs (fst s) = value -> set_has_refs set_hasrefs_in_header value s = Some s) /\
  (m_has_refs (fst s) <> value -> is_read_only (snd s) (m_ref (fst s)) = true ->
   set_has_refs set_hasrefs_in_header value s = None) /\
  (forall s', set_has_refs set_hasrefs_in_header value s = Some s' ->
              m_has_refs (fst s') = value /\
              set_has_refs set_hasrefs_in_header value s' = Some s') /\
  (m_context_flag (fst s) = value ->
   set_context_flag set_context_flag_in_header do_copy_on_write value s = Some s) /\
  (forall s', set_context_flag set_context_flag_in_header do_copy_on_write value s = Some s' ->
              m_context_flag (fst s') = value /\
              set_context_flag set_context_flag_in_header do_copy_on_write value s'
              = Some s').
Proof.
  destruct s as [a al]. cbn [fst snd].
  assert (Hsame : forall (f : bool -> MemBlock -> MemBlock) (x : Array * A),
             m_has_refs (fst x) = value -> set_has_refs f value x = Some x).
  { intros f [a0 al0] E. cbn [fst] in E. unfold set_has_refs.
    rewrite E, eqb_reflx. reflexivity. }
  assert (Hsame' : forall (x : Array * A),
             m_context_flag (fst x) = value ->
             set_context_flag set_context_flag_in_header do_copy_on_write value x = Some x).
  { intros x E. unfold set_context_flag. rewrite E, eqb_reflx. reflexivity. }
  split; [apply (Hsame _ (a, al)) |].
  split.
  { intros Hne Hro. unfold set_has_refs.
    destruct (Bool.eqb (m_has_refs a) value) eqn:E;
      [apply eqb_prop in E; contradiction |].
    cbn [negb]. rewrite Hro. reflexivity. }
  split.
  { intros s' Hs'. unfold set_has_refs in Hs'.
    destruct (Bool.eqb (m_has_refs a) value) eqn:E; cbn [negb] in Hs'.
    - injection Hs' as <-. apply eqb_prop in E. split; [exact E |].
      apply Hsame. exact E.
    - destruct (is_read_only al (m_ref a)); [discriminate |].
      destruct (m_data a); [| discriminate].
      injection Hs' as <-. split; [reflexivity |]. apply Hsame. reflexivity. }
  split; [apply (Hsame' (a, al)) |].
  intros s' Hs'. unfold set_context_flag in Hs'. cbn [fst] in Hs'.
  destruct (Bool.eqb (m_context_flag a) value) eqn:E; cbn [negb] in Hs'.
  - injection Hs' as <-. apply eqb_prop in E. split; [exact E |].
    apply Hsame'. exact E.
  - destruct (do_copy_on_write (a, al)) as [[a1 al1] |]; [| discriminate].
    destruct (m_data a1); [| discriminate].
    injection Hs' as <-. split; [reflexivity |]. apply Hsame'. reflexivity.
Qed.

Lemma flag_setters_settle_witness :
  set_has_refs sample_set_hasrefs_in_header false
               (sample_array, mkSampleAlloc 8192 8192 [])
  = Some (sample_array, mkSampleAlloc 8192 8192 []) /\
  set_has_refs sample_set_hasrefs_in_header true
               (sample_array, mkSampleAlloc 8192 8192 [])
  = None /\
  set_context_flag sample_set_context_flag_in_header (fun _ => None) false
                   (sample_array, mkSampleAlloc 8192 8192 [])
  = Some (sample_array, mkSampleAlloc 8192 8192 []).
Proof.
  split; [| split].
  - apply (proj1 (flag_setters_settle sample_set_hasrefs_in_header
                                      sample_set_context_flag_in_header (fun _ => None)
                                      false (sample_array, mkSampleAlloc 8192 8192 []))).
    reflexivity.
  - apply (proj1 (proj2 (flag_setters_settle sample_set_hasrefs_in_header
                                             sample_set_context_flag_in_header
                                             (fun _ => None)
                                             true (sample_array, mkSampleAlloc 8192 8192 [])))).
    + discriminate.
    + reflexivity.
  - apply (proj1 (proj2 (proj2 (proj2 (flag_setters_settle
                                         sample_set_hasrefs_in_header
                                         sample_set_context_flag_in_header (fun _ => None)
                                         false
                                         (sample_array, mkSampleAlloc 8192 8192 [])))))).
    reflexivity.
Defined.

(** ** Comparing two leaves *)

Section CompareLeafsFacts.
Context {St : Type} `{QueryStateBase St}.
Variable callback : option (Z -> St -> bool * St).
Variable c : Cond.

Local Abbreviation R := (report_to callback).

Local Abbreviation PM := (leaf_matches c).

Lemma naive_compare_leafs_run (elem felem : Z -> Z) (base : Z) (l : list Z) (s : St) :
  naive_compare_leafs R c elem felem base l s = run_matches R (PM elem felem base l) s.
Proof.
  revert s; induction l as [| i rest IH]; intros s; [reflexivity |].
  unfold leaf_matches in *. cbn [naive_compare_leafs filter].
  destruct (cond_holds c (elem i) (felem i)); cbn [map run_matches].
  - destruct (R (i + base) (elem i) s) as [go s']. destruct go; [apply IH | reflexivity].
  - apply IH.
Qed.

Lemma compare_leafs_elem_matches (elem felem : Z -> Z) (base i : Z) (s : St) :
  compare_leafs_elem callback c (elem i) (felem i) (i + base) s
  = Some (run_matches R (PM elem felem base [i]) s).
Proof.
  unfold compare_leafs_elem, leaf_matches. cbn [filter].
  destruct (cond_holds c (elem i) (felem i)); [apply find_action_single | reflexivity].
Qed.

Lemma PM_cons (elem felem : Z -> Z) (base i : Z) (l : list Z) :
  PM elem felem base (i :: l) = PM elem felem base [i] ++ PM elem felem base l.
Proof.
  unfold leaf_matches. cbn [filter].
  destruct (cond_holds c (elem i) (felem i)); reflexivity.
Qed.

(** One element, then the rest unless stopped. *)
Lemma elem_then (elem felem : Z -> Z) (base i : Z) (l : list Z)
      (rest : M bool) (s : St) :
  (forall s', rest s' = Some (run_matches R (PM elem felem base l) s')) ->
  bind (compare_leafs_elem callback c (elem i) (felem i) (i + base))
       (fun r => if negb r then ret false else rest) s
  = Some (run_matches R (PM elem felem base (i :: l)) s).
Proof.
  intros Hrest. rewrite PM_cons. apply then_matches.
  - apply compare_leafs_elem_matches.
  - reflexivity.
  - exact Hrest.
Qed.

Lemma compare_leafs_loop_matches (w fw : Z) (a foreign : Array) (base : Z) (n : nat) :
  forall (start : Z) (s : St),
    compare_leafs_loop callback c w fw a foreign base n start s
    = Some (run_matches R (PM (get_w w a) (get_w fw foreign) base (zrange start n)) s).
Proof.
  induction n as [| n IH]; intros start s; [reflexivity |].
  cbn [compare_leafs_loop zrange].
  apply (elem_then (get_w w a) (get_w fw foreign)). intros s'. apply IH.
Qed.

Lemma compare_leafs_zeros_matches (base : Z) (n : nat) :
  forall (start : Z) (s : St),
    compare_leafs_zeros callback base n start s
    = Some (run_matches R (map (fun i => (i + base, 0)) (zrange start n)) s).
Proof.
  induction n as [| n IH]; intros start s; [reflexivity |].
  cbn [compare_leafs_zeros zrange map].
  change ((start + base, 0) :: map (fun i => (i + base, 0)) (zrange (start + 1) n))
    with ([(start + base, 0)] ++ map (fun i => (i + base, 0)) (zrange (start + 1) n)).
  apply then_matches.
  - apply find_action_single.
  - reflexivity.
  - intros s'. apply IH.
Qed.

Lemma PM_width_0 (a foreign : Array) (base : Z) (l : list Z) :
  PM (get_w 0 a) (get_w 0 foreign) base l
  = if cond_holds c 0 0 then map (fun i => (i + base, 0)) l else [].
Proof.
  unfold leaf_matches.
  change (get_w 0 a) with (fun _ : Z => 0).
  change (get_w 0 foreign) with (fun _ : Z => 0).
  induction l as [| i rest IH]; cbn [filter map].
  - destruct (cond_holds c 0 0); reflexivity.
  - destruct (cond_holds c 0 0); cbn [map]; congruence.
Qed.

Lemma compare_leafs_4_matches (w fw : Z) (a foreign : Array)
      (start end_ base : Z) (s : St) :
  compare_leafs_4 callback c w fw a foreign start end_ base s
  = Some (run_matches R (PM (get_w w a) (get_w fw foreign) base
                            (index_range start end_)) s).
Proof.
  unfold compare_leafs_4, index_range.
  destruct (Z.eqb_spec w 0) as [-> | Hw]; cbn [andb];
    [destruct (Z.eqb_spec fw 0) as [-> | Hfw] |]; try apply compare_leafs_loop_matches.
  rewrite PM_width_0. destruct (cond_holds c 0 0); [| reflexivity].
  rewrite <- (app_nil_r (map _ _)). apply then_matches.
  - apply compare_leafs_zeros_matches.
  - reflexivity.
  - intros s'. cbv beta zeta. cbn [negb]. rewrite compare_leafs_loop_matches.
    replace (Z.to_nat (end_ - Z.max start end_)) with 0%nat by lia. reflexivity.
Qed.

Lemma supported_width_dispatch (w : Z) :
  supported_width w -> existsb (Z.eqb w) supported_widths = true.
Proof.
  intros Hw. apply existsb_exists. exists w. split; [exact Hw | apply Z.eqb_refl].
Qed.

Lemma compare_leafs_width_matches (w : Z) (a foreign : Array)
      (start end_ base : Z) (s : St) :
  supported_width (m_width foreign) ->
  compare_leafs_width callback c w a foreign start end_ base s
  = Some (run_matches R (PM (get_w w a) (get foreign) base (index_range start end_)) s).
Proof.
  intros Hfw. unfold compare_leafs_width. cbv zeta.
  rewrite (supported_width_dispatch _ Hfw). apply compare_leafs_4_matches.
Qed.

Lemma compare_leafs_matches (a foreign : Array) (start end_ base : Z) (s : St) :
  supported_width (m_width a) -> supported_width (m_width foreign) ->
  0 <= start <= end_ -> end_ + 3 <= npos ->
  compare_leafs callback c a foreign start end_ base s
  = Some (run_matches R (PM (get a) (get foreign) base (index_range start end_)) s).
Proof.
  intros Hw Hfw Hrange Hnpos. unfold npos in Hnpos. unfold compare_leafs.
  destruct (Z.leb_spec start end_); [| lia]. cbn [negb].
  destruct (Z.eqb_spec start end_) as [-> | Hne].
  { unfold index_range. rewrite Z.sub_diag. reflexivity. }
  cbv zeta. rewrite (supported_width_dispatch _ Hw).
  rewrite !(to_u64_small (start + 1)) by lia.
  rewrite !(to_u64_small (start + 1 + 1)) by lia.
  rewrite !(to_u64_small (start + 1 + 2)) by lia.
  rewrite !(to_u64_small (start + 1 + 3)) by lia.
  unfold index_range.
  destruct (Z.ltb_spec (start + 1 + 3) end_) as [Hlong | Hshort].
  - replace (Z.to_nat (end_ - start))
      with (S (S (S (S (Z.to_nat (end_ - (start + 1 + 3))))))) by lia.
    cbn [zrange].
    apply (elem_then (get a) (get foreign)). intros s1.
    apply (elem_then (get a) (get foreign)). intros s2.
    replace (start + 1 + 1 + base) with (start + 1 + 1 + base) by reflexivity.
    apply (elem_then (get a) (get foreign)). intros s3.
    replace (start + 1 + 2 + base) with (start + 1 + 1 + 1 + base) by lia.
    replace (start + 1 + 2) with (start + 1 + 1 + 1) by lia.
    apply (elem_then (get a) (get foreign)). intros s4.
    replace (start + 1 + 3) with (start + 1 + 1 + 1 + 1) by lia.
    apply (compare_leafs_width_matches (m_width a) a foreign); assumption.
  - destruct (Z.eqb_spec (start + 1) end_) as [<- | Hmore].
    + replace (Z.to_nat (start + 1 - start)) with 1%nat by lia. cbn [zrange].
      apply (elem_then (get a) (get foreign)). reflexivity.
    + replace (Z.to_nat (end_ - start)) with (S (Z.to_nat (end_ - (start + 1)))) by lia.
      cbn [zrange].
      apply (elem_then (get a) (get foreign)). intros s1.
      apply (compare_leafs_width_matches (m_width a) a foreign); assumption.
Qed.

End CompareLeafsFacts.

(** [compare_leafs] aborts on a range with [start > end]; on a range
    [start <= end] of two arrays of supported widths it returns, and
    what it returns is the outcome of the naive comparison element by
    element: the indices at which the element of this array stands in
    the relation to the element of the foreign array are reported in
    increasing order, each with the element of this array, until the
    receiver says stop -- whichever of the unrolled steps and loops of
    the two helpers an index goes through. *)
Theorem compare_leafs_is_naive
        {St : Type} `{QueryStateBase St}
        (callback : option (Z -> St -> bool * St))
        (c : Cond) (a foreign : Array) (start end_ baseindex : Z) (s : St) :
  supported_width (m_width a) -> supported_width (m_width foreign) ->
  0 <= start -> end_ + 3 <= npos ->
  (start <= end_ ->
   compare_leafs callback c a foreign start end_ baseindex s
   = Some (naive_compare_leafs (report_to callback) c (get a) (get foreign) baseindex
                               (index_range start end_) s)) /\
  (end_ < start -> compare_leafs callback c a foreign start end_ baseindex s = None).
Proof.
  intros Hw Hfw Hstart Hnpos. split.
  - intros Hle. rewrite naive_compare_leafs_run.
    apply compare_leafs_matches; try assumption. lia.
  - intros Hlt. unfold compare_leafs.
    destruct (Z.leb_spec start end_); [lia | reflexivity].
Qed.

Lemma compare_leafs_is_naive_witness :
  compare_leafs (St := Recorder) None Greater sample_array sample_bytes 0 8 0 []
  = Some (naive_compare_leafs (report_to None) Greater (get sample_array)
                              (get sample_bytes) 0 (index_range 0 8) []) /\
  compare_leafs (St := Recorder) None Greater sample_array sample_bytes 5 2 0 [] = None.
Proof.
  split.
  - apply (proj1 (compare_leafs_is_naive (St := Recorder) None Greater sample_array
                                         sample_bytes 0 8 0 []
                                         ltac:(vm_compute; tauto) ltac:(vm_compute; tauto)
                                         ltac:(lia) ltac:(vm_compute; discriminate))).
    lia.
  - apply (proj2 (compare_leafs_is_naive (St := Recorder) None Greater sample_array
                                         sample_bytes 5 2 0 []
                                         ltac:(vm_compute; tauto) ltac:(vm_compute; tauto)
                                         ltac:(lia) ltac:(vm_compute; discriminate))).
    lia.
Defined.

(** ** [cascade] *)

Lemma lane_lor (w a b k : Z) :
  lane w (Z.lor a b) k = Z.lor (lane w a k) (lane w b k).
Proof.
  unfold lane. rewrite Z.shiftr_lor.
  apply Z.bits_inj'. intros i Hi.
  rewrite !Z.land_spec, !Z.lor_spec, !Z.land_spec.
  destruct (Z.testbit (Z.ones w) i);
    rewrite ?andb_true_r, ?andb_false_r; reflexivity.
Qed.

(** A shift inside the lanes: the mask keeps the bits of the next lane
    out. *)
Lemma lane_shift_masked (w s a k : Z) :
  0 <= s <= w -> 0 <= k ->
  Z.land (lane w (Z.shiftr a s) k) (Z.ones (w - s)) = Z.shiftr (lane w a k) s.
Proof.
  intros Hs Hk. unfold lane.
  assert (Hwk : 0 <= w * k) by nia.
  remember (w * k) as wk eqn:Ewk. clear Ewk.
  blast_bits.
Qed.

(** One step of the cascade, lane by lane. *)
Lemma lane_cascade_step (w s a k : Z) (n : nat) :
  0 < w -> 0 <= s <= w -> 0 <= k < Z.of_nat n ->
  lane w (Z.lor a (Z.land (Z.shiftr a s) (rep w n (Z.ones (w - s))))) k
  = Z.lor (lane w a k) (Z.shiftr (lane w a k) s).
Proof.
  intros Hw Hs Hk. rewrite lane_lor, lane_land.
  rewrite (lane_rep w Hw).
  - rewrite lane_shift_masked by lia. reflexivity.
  - rewrite Z.ones_equiv. split.
    + assert (0 < 2 ^ (w - s)) by (apply Z.pow_pos_nonneg; lia). lia.
    + assert (2 ^ (w - s) <= 2 ^ w) by (apply Z.pow_le_mono_r; lia). lia.
  - assumption.
Qed.

(** The window of bits gathered at each position doubles with a step. *)
Lemma smear_step (x y m : Z) :
  0 <= m ->
  (forall j i, 0 <= j <= i -> i < j + m -> Z.testbit x i = true -> Z.testbit y j = true) ->
  forall j i, 0 <= j <= i -> i < j + 2 * m -> Z.testbit x i = true ->
              Z.testbit (Z.lor y (Z.shiftr y m)) j = true.
Proof.
  intros Hm Hwin j i Hji Hi Hbit.
  rewrite Z.lor_spec, Z.shiftr_spec by lia. apply orb_true_iff.
  destruct (Z.lt_ge_cases i (j + m)).
  - left. apply (Hwin j i); assumption || lia.
  - right. apply (Hwin (j + m) i); assumption || lia.
Qed.

Lemma nonzero_has_bit (w x : Z) :
  0 < w -> 0 < x < 2 ^ w -> exists i, 0 <= i < w /\ Z.testbit x i = true.
Proof.
  intros Hw Hx. exists (Z.log2 x). split.
  - split; [apply Z.log2_nonneg | apply Z.log2_lt_pow2; lia].
  - apply Z.bit_log2. lia.
Qed.

Lemma low_bit_set (y : Z) : Z.testbit y 0 = true -> Z.land y 1 = 1.
Proof.
  intros Hy. rewrite land_1_mod, <- Z.bit0_mod, Hy. reflexivity.
Qed.

(** After the steps of the cascade the low bit of a lane tells whether
    the lane was non-zero. *)
Lemma smear_2 (x : Z) :
  0 <= x < 2 ^ 2 ->
  Z.land (Z.lor x (Z.shiftr x 1)) 1 = if x =? 0 then 0 else 1.
Proof.
  intros Hx.
  destruct (Z.eqb_spec x 0) as [-> | Hne]; [reflexivity |].
  destruct (nonzero_has_bit 2 x ltac:(lia) ltac:(lia)) as (i & Hi & Hbit).
  apply low_bit_set.
  apply (smear_step x x 1 ltac:(lia)) with (i := i); try lia; try assumption.
  intros j' i' Hj' Hi' Hb'. replace j' with i' by lia. exact Hb'.
Qed.

Lemma smear_4 (x : Z) :
  0 <= x < 2 ^ 4 ->
  Z.land (Z.lor (Z.lor x (Z.shiftr x 1)) (Z.shiftr (Z.lor x (Z.shiftr x 1)) 2)) 1
  = if x =? 0 then 0 else 1.
Proof.
  intros Hx.
  destruct (Z.eqb_spec x 0) as [-> | Hne]; [reflexivity |].
  destruct (nonzero_has_bit 4 x ltac:(lia) ltac:(lia)) as (i & Hi & Hbit).
  apply low_bit_set.
  apply (smear_step x _ 2 ltac:(lia)) with (i := i); try lia; try assumption.
  apply (smear_step x x 1 ltac:(lia)).
  intros j' i' Hj' Hi' Hb'. replace j' with i' by lia. exact Hb'.
Qed.

Lemma smear_8 (x : Z) :
  0 <= x < 2 ^ 8 ->
  let y1 := Z.lor x (Z.shiftr x 1) in
  let y2 := Z.lor y1 (Z.shiftr y1 2) in
  Z.land (Z.lor y2 (Z.shiftr y2 4)) 1 = if x =? 0 then 0 else 1.
Proof.
  intros Hx y1 y2.
  destruct (Z.eqb_spec x 0) as [-> | Hne]; [reflexivity |].
  destruct (nonzero_has_bit 8 x ltac:(lia) ltac:(lia)) as (i & Hi & Hbit).
  apply low_bit_set.
  apply (smear_step x _ 4 ltac:(lia)) with (i := i); try lia; try assumption.
  apply (smear_step x _ 2 ltac:(lia)).
  apply (smear_step x x 1 ltac:(lia)).
  intros j' i' Hj' Hi' Hb'. replace j' with i' by lia. exact Hb'.
Qed.

Lemma smear_16 (x : Z) :
  0 <= x < 2 ^ 16 ->
  let y1 := Z.lor x (Z.shiftr x 1) in
  let y2 := Z.lor y1 (Z.shiftr y1 2) in
  let y3 := Z.lor y2 (Z.shiftr y2 4) in
  Z.land (Z.lor y3 (Z.shiftr y3 8)) 1 = if x =? 0 then 0 else 1.
Proof.
  intros Hx y1 y2 y3.
  destruct (Z.eqb_spec x 0) as [-> | Hne]; [reflexivity |].
  destruct (nonzero_has_bit 16 x ltac:(lia) ltac:(lia)) as (i & Hi & Hbit).
  apply low_bit_set.
  apply (smear_step x _ 8 ltac:(lia)) with (i := i); try lia; try assumption.
  apply (smear_step x _ 4 ltac:(lia)).
  apply (smear_step x _ 2 ltac:(lia)).
  apply (smear_step x x 1 ltac:(lia)).
  intros j' i' Hj' Hi' Hb'. replace j' with i' by lia. exact Hb'.
Qed.

Lemma smear_32 (x : Z) :
  0 <= x < 2 ^ 32 ->
  let y1 := Z.lor x (Z.shiftr x 1) in
  let y2 := Z.lor y1 (Z.shiftr y1 2) in
  let y3 := Z.lor y2 (Z.shiftr y2 4) in
  let y4 := Z.lor y3 (Z.shiftr y3 8) in
  Z.land (Z.lor y4 (Z.shiftr y4 16)) 1 = if x =? 0 then 0 else 1.
Proof.
  intros Hx y1 y2 y3 y4.
  destruct (Z.eqb_spec x 0) as [-> | Hne]; [reflexivity |].
  destruct (nonzero_has_bit 32 x ltac:(lia) ltac:(lia)) as (i & Hi & Hbit).
  apply low_bit_set.
  apply (smear_step x _ 16 ltac:(lia)) with (i := i); try lia; try assumption.
  apply (smear_step x _ 8 ltac:(lia)).
  apply (smear_step x _ 4 ltac:(lia)).
  apply (smear_step x _ 2 ltac:(lia)).
  apply (smear_step x x 1 ltac:(lia)).
  intros j' i' Hj' Hi' Hb'. replace j' with i' by lia. exact Hb'.
Qed.

(** The closing of the cascade on one lane: keep the low bit, and flip
    it when zero lanes are looked for. *)
Lemma cascade_close (zero : bool) (x b : Z) :
  b = (if x =? 0 then 0 else 1) ->
  (if zero then Z.lxor b 1 else b) = if Bool.eqb (x =? 0) zero then 1 else 0.
Proof. intros ->. destruct (x =? 0), zero; reflexivity. Qed.

Lemma lane_1_bit (v k : Z) : 0 <= k -> lane 1 v k = Z.b2z (Z.testbit v k).
Proof.
  intros Hk. unfold lane. change (Z.ones 1) with 1.
  rewrite land_1_mod, <- Z.bit0_mod, Z.shiftr_spec by lia.
  do 2 f_equal. lia.
Qed.

Lemma cascade_lane_2 (zero : bool) (a k : Z) :
  0 <= k < 32 ->
  lane 2 (cascade 2 zero a) k = if Bool.eqb (lane 2 a k =? 0) zero then 1 else 0.
Proof.
  intros Hk.
  change (cascade 2 zero a)
    with (let y := Z.land (Z.lor a (Z.land (Z.shiftr a 1) (rep 2 32 (Z.ones (2 - 1)))))
                          (rep 2 32 1) in
          if zero then Z.lxor y (rep 2 32 1) else y).
  cbv zeta.
  assert (E : lane 2 (Z.land (Z.lor a (Z.land (Z.shiftr a 1) (rep 2 32 (Z.ones (2 - 1)))))
                             (rep 2 32 1)) k
              = if lane 2 a k =? 0 then 0 else 1).
  { rewrite lane_land, (lane_rep 2 ltac:(lia) 32 1 k) by lia.
    rewrite (lane_cascade_step 2 1 a k 32) by lia.
    apply smear_2. apply lane_range. lia. }
  rewrite <- (cascade_close zero (lane 2 a k) _ E).
  destruct zero; [| reflexivity].
  rewrite lane_lxor, (lane_rep 2 ltac:(lia) 32 1 k) by lia. reflexivity.
Qed.

Lemma cascade_lane_4 (zero : bool) (a k : Z) :
  0 <= k < 16 ->
  lane 4 (cascade 4 zero a) k = if Bool.eqb (lane 4 a k =? 0) zero then 1 else 0.
Proof.
  intros Hk.
  change (cascade 4 zero a)
    with (let y1 := Z.lor a (Z.land (Z.shiftr a 1) (rep 4 16 (Z.ones (4 - 1)))) in
          let y2 := Z.lor y1 (Z.land (Z.shiftr y1 2) (rep 4 16 (Z.ones (4 - 2)))) in
          let y := Z.land y2 (rep 4 16 1) in
          if zero then Z.lxor y (rep 4 16 1) else y).
  cbv zeta.
  match goal with
  | |- lane 4 (if zero then Z.lxor ?y _ else _) k = _ =>
      assert (E : lane 4 y k = if lane 4 a k =? 0 then 0 else 1)
  end.
  { rewrite lane_land, (lane_rep 4 ltac:(lia) 16 1 k) by lia.
    rewrite !(lane_cascade_step 4 _ _ k 16) by lia.
    apply smear_4. apply lane_range. lia. }
  rewrite <- (cascade_close zero (lane 4 a k) _ E).
  destruct zero; [| reflexivity].
  rewrite lane_lxor, (lane_rep 4 ltac:(lia) 16 1 k) by lia. reflexivity.
Qed.

Lemma cascade_lane_8 (zero : bool) (a k : Z) :
  0 <= k < 8 ->
  lane 8 (cascade 8 zero a) k = if Bool.eqb (lane 8 a k =? 0) zero then 1 else 0.
Proof.
  intros Hk.
  change (cascade 8 zero a)
    with (let y1 := Z.lor a (Z.land (Z.shiftr a 1) (rep 8 8 (Z.ones (8 - 1)))) in
          let y2 := Z.lor y1 (Z.land (Z.shiftr y1 2) (rep 8 8 (Z.ones (8 - 2)))) in
          let y3 := Z.lor y2 (Z.land (Z.shiftr y2 4) (rep 8 8 (Z.ones (8 - 4)))) in
          let y := Z.land y3 (rep 8 8 1) in
          if zero then Z.lxor y (rep 8 8 1) else y).
  cbv zeta.
  match goal with
  | |- lane 8 (if zero then Z.lxor ?y _ else _) k = _ =>
      assert (E : lane 8 y k = if lane 8 a k =? 0 then 0 else 1)
  end.
  { rewrite lane_land, (lane_rep 8 ltac:(lia) 8 1 k) by lia.
    rewrite !(lane_cascade_step 8 _ _ k 8) by lia.
    apply smear_8. apply lane_range. lia. }
  rewrite <- (cascade_close zero (lane 8 a k) _ E).
  destruct zero; [| reflexivity].
  rewrite lane_lxor, (lane_rep 8 ltac:(lia) 8 1 k) by lia. reflexivity.
Qed.

Lemma cascade_lane_16 (zero : bool) (a k : Z) :
  0 <= k < 4 ->
  lane 16 (cascade 16 zero a) k = if Bool.eqb (lane 16 a k =? 0) zero then 1 else 0.
Proof.
  intros Hk.
  change (cascade 16 zero a)
    with (let y1 := Z.lor a (Z.land (Z.shiftr a 1) (rep 16 4 (Z.ones (16 - 1)))) in
          let y2 := Z.lor y1 (Z.land (Z.shiftr y1 2) (rep 16 4 (Z.ones (16 - 2)))) in
          let y3 := Z.lor y2 (Z.land (Z.shiftr y2 4) (rep 16 4 (Z.ones (16 - 4)))) in
          let y4 := Z.lor y3 (Z.land (Z.shiftr y3 8) (rep 16 4 (Z.ones (16 - 8)))) in
          let y := Z.land y4 (rep 16 4 1) in
          if zero then Z.lxor y (rep 16 4 1) else y).
  cbv zeta.
  match goal with
  | |- lane 16 (if zero then Z.lxor ?y _ else _) k = _ =>
      assert (E : lane 16 y k = if lane 16 a k =? 0 then 0 else 1)
  end.
  { rewrite lane_land, (lane_rep 16 ltac:(lia) 4 1 k) by lia.
    rewrite !(lane_cascade_step 16 _ _ k 4) by lia.
    apply smear_16. apply lane_range. lia. }
  rewrite <- (cascade_close zero (lane 16 a k) _ E).
  destruct zero; [| reflexivity].
  rewrite lane_lxor, (lane_rep 16 ltac:(lia) 4 1 k) by lia. reflexivity.
Qed.

Lemma cascade_lane_32 (zero : bool) (a k : Z) :
  0 <= k < 2 ->
  lane 32 (cascade 32 zero a) k = if Bool.eqb (lane 32 a k =? 0) zero then 1 else 0.
Proof.
  intros Hk.
  change (cascade 32 zero a)
    with (let y1 := Z.lor a (Z.land (Z.shiftr a 1) (rep 32 2 (Z.ones (32 - 1)))) in
          let y2 := Z.lor y1 (Z.land (Z.shiftr y1 2) (rep 32 2 (Z.ones (32 - 2)))) in
          let y3 := Z.lor y2 (Z.land (Z.shiftr y2 4) (rep 32 2 (Z.ones (32 - 4)))) in
          let y4 := Z.lor y3 (Z.land (Z.shiftr y3 8) (rep 32 2 (Z.ones (32 - 8)))) in
          let y5 := Z.lor y4 (Z.land (Z.shiftr y4 16) (rep 32 2 (Z.ones (32 - 16)))) in
          let y := Z.land y5 (rep 32 2 1) in
          if zero then Z.lxor y (rep 32 2 1) else y).
  cbv zeta.
  match goal with
  | |- lane 32 (if zero then Z.lxor ?y _ else _) k = _ =>
      assert (E : lane 32 y k = if lane 32 a k =? 0 then 0 else 1)
  end.
  { rewrite lane_land, (lane_rep 32 ltac:(lia) 2 1 k) by lia.
    rewrite !(lane_cascade_step 32 _ _ k 2) by lia.
    apply smear_32. apply lane_range. lia. }
  rewrite <- (cascade_close zero (lane 32 a k) _ E).
  destruct zero; [| reflexivity].
  rewrite lane_lxor, (lane_rep 32 ltac:(lia) 2 1 k) by lia. reflexivity.
Qed.

Lemma cascade_lane_1 (zero : bool) (a k : Z) :
  0 <= k < 64 ->
  lane 1 (cascade 1 zero a) k = if Bool.eqb (lane 1 a k =? 0) zero then 1 else 0.
Proof.
  intros Hk.
  change (cascade 1 zero a) with (if zero then to_u64 (Z.lnot a) else a).
  rewrite (lane_1_bit a) by lia.
  destruct zero.
  - rewrite lane_1_bit by lia. unfold to_u64.
    rewrite <- Z.land_ones, Z.land_spec, Z.lnot_spec, Z.ones_spec_low by lia.
    destruct (Z.testbit a k); reflexivity.
  - rewrite lane_1_bit by lia. destruct (Z.testbit a k); reflexivity.
Qed.

Lemma cascade_range (w : Z) (zero : bool) (a : Z) :
  lane_width w -> 0 <= a < 2 ^ 64 -> 0 <= cascade w zero a < 2 ^ 64.
Proof.
  assert (Hfin : forall y m, 0 <= m < 2 ^ 64 ->
                             0 <= (if zero then Z.lxor (Z.land y m) m else Z.land y m)
                             < 2 ^ 64).
  { intros y m Hm.
    assert (Hland : 0 <= Z.land y m < 2 ^ 64).
    { rewrite <- (Z.mod_small m (2 ^ 64)) by assumption.
      rewrite <- Z.land_ones, Z.land_assoc, Z.land_ones by lia.
      apply Z.mod_pos_bound. lia. }
    destruct zero; [apply lxor_u64 |]; assumption. }
  intros Hlw Ha. each_lane_width Hlw.
  - change (cascade 1 zero a) with (if zero then to_u64 (Z.lnot a) else a).
    destruct zero; [apply to_u64_range | assumption].
  - apply (Hfin _ (rep 2 32 1)). vm_compute. split; [discriminate | reflexivity].
  - apply (Hfin _ (rep 4 16 1)). vm_compute. split; [discriminate | reflexivity].
  - apply (Hfin _ (rep 8 8 1)). vm_compute. split; [discriminate | reflexivity].
  - apply (Hfin _ (rep 16 4 1)). vm_compute. split; [discriminate | reflexivity].
  - apply (Hfin _ (rep 32 2 1)). vm_compute. split; [discriminate | reflexivity].
  - change (cascade 64 zero a) with (if Bool.eqb (a =? 0) zero then 1 else 0).
    destruct (Bool.eqb (a =? 0) zero); lia.
Qed.

(** [cascade] marks the lanes of a chunk: the result has, in each lane
    of [width] bits, the value 1 when the lane of the chunk is zero
    (for [zero]) or non-zero (for [!zero]) and the value 0 otherwise; no
    bit spills from a lane into its neighbour. *)
Theorem cascade_marks_lanes (w : Z) (zero : bool) (a : Z) :
  lane_width w -> 0 <= a < 2 ^ 64 ->
  0 <= cascade w zero a < 2 ^ 64 /\
  forall k, 0 <= k < 64 / w ->
            lane w (cascade w zero a) k
            = if Bool.eqb (lane w a k =? 0) zero then 1 else 0.
Proof.
  intros Hlw Ha. split; [apply cascade_range; assumption |].
  intros k Hk. each_lane_width Hlw.
  - apply cascade_lane_1. exact Hk.
  - apply cascade_lane_2. exact Hk.
  - apply cascade_lane_4. exact Hk.
  - apply cascade_lane_8. exact Hk.
  - apply cascade_lane_16. exact Hk.
  - apply cascade_lane_32. exact Hk.
  - change (64 / 64) with 1 in Hk. assert (k = 0) as -> by lia.
    change (cascade 64 zero a) with (if Bool.eqb (a =? 0) zero then 1 else 0).
    rewrite (lane_whole a Ha).
    destruct (Bool.eqb (a =? 0) zero); reflexivity.
Qed.

Lemma cascade_marks_lanes_witness :
  0 <= cascade 4 true 0x5fd07a107610f610 < 2 ^ 64 /\
  forall k, 0 <= k < 64 / 4 ->
            lane 4 (cascade 4 true 0x5fd07a107610f610) k
            = if Bool.eqb (lane 4 0x5fd07a107610f610 k =? 0) true then 1 else 0.
Proof.
  apply (cascade_marks_lanes 4 true 0x5fd07a107610f610).
  - unfold lane_width. tauto.
  - lia.
Defined.

(** ** [adjust] *)

Section AdjustFacts.
Context {A : Type} `{Allocator A}.
Variable set_ : Z -> Z -> Array * A -> option (Array * A).
Variable Inv : Array * A -> Prop.

(** What [adjust] needs of [set]: on a state that satisfies [Inv], at a
    valid index, it stores the value and leaves the size and the other
    elements as they are. *)
Hypothesis set_stores :
  forall i v s0,
    Inv s0 -> 0 <= i < m_size (fst s0) -> - 2 ^ 63 <= v < 2 ^ 63 ->
    exists s1, set_ i v s0 = Some s1 /\ Inv s1 /\
               m_size (fst s1) = m_size (fst s0) /\
               get (fst s1) i = v /\
               forall j, 0 <= j < m_size (fst s0) -> j <> i ->
                         get (fst s1) j = get (fst s0) j.

Lemma adjust_loop_adds (diff : Z) (n : nat) :
  diff <> 0 ->
  forall (i : Z) (s : Array * A),
    Inv s -> 0 <= i -> i + Z.of_nat n <= m_size (fst s) -> m_size (fst s) <= npos ->
    (forall j, i <= j < i + Z.of_nat n -> - 2 ^ 63 <= get (fst s) j + diff < 2 ^ 63) ->
    exists s', adjust_loop set_ n i diff s = Some s' /\ Inv s' /\
               m_size (fst s') = m_size (fst s) /\
               forall j, 0 <= j < m_size (fst s) ->
                         get (fst s') j
                         = if (i <=? j) && (j <? i + Z.of_nat n)
                           then get (fst s) j + diff else get (fst s) j.
Proof.
  intros Hdiff. induction n as [| n IH]; intros i s Hinv Hi Hend Hsize Hsum.
  - exists s. split; [reflexivity |]. split; [exact Hinv |]. split; [reflexivity |].
    intros j Hj. destruct (Z.leb_spec i j), (Z.ltb_spec j (i + Z.of_nat 0));
      cbn [andb]; try reflexivity; lia.
  - cbn [adjust_loop]. unfold adjust.
    destruct (Z.leb_spec i (m_size (fst s))); [| lia]. cbn [negb].
    destruct (Z.eqb_spec diff 0); [contradiction |]. cbn [negb].
    rewrite to_i64_small by (apply Hsum; lia).
    destruct (set_stores i (get (fst s) i + diff) s Hinv ltac:(lia) ltac:(apply Hsum; lia))
      as (s1 & -> & Hinv1 & Hsize1 & Hsame & Hother).
    unfold npos in Hsize. rewrite to_u64_small by lia.
    destruct (IH (i + 1) s1 Hinv1 ltac:(lia) ltac:(lia) ltac:(unfold npos; lia))
      as (s' & Hloop & Hinv' & Hsize' & Hget).
    { intros j Hj. rewrite Hother by lia. apply Hsum. lia. }
    exists s'. split; [exact Hloop |]. split; [exact Hinv' |].
    split; [congruence |].
    intros j Hj. rewrite Hget by lia.
    destruct (Z.eq_dec j i) as [-> | Hne].
    + rewrite Hsame.
      destruct (Z.leb_spec (i + 1) i), (Z.leb_spec i i),
               (Z.ltb_spec i (i + 1 + Z.of_nat n)), (Z.ltb_spec i (i + Z.of_nat (S n)));
        cbn [andb]; try reflexivity; lia.
    + rewrite Hother by lia.
      destruct (Z.leb_spec (i + 1) j), (Z.leb_spec i j),
               (Z.ltb_spec j (i + 1 + Z.of_nat n)), (Z.ltb_spec j (i + Z.of_nat (S n)));
        cbn [andb]; try reflexivity; lia.
Qed.

End AdjustFacts.

(** Over a [set] that stores a value and leaves the size and the other
    elements alone, the ranged [adjust(begin, end, diff)] on a range
    [begin <= end <= size] returns, adds [diff] to every element of the
    range and changes no other element and not the size -- as long as
    no sum leaves the range of [int64_t] (where the addition is
    undefined in the source). *)
Theorem adjust_range_adds
        {A : Type} `{Allocator A}
        (set_ : Z -> Z -> Array * A -> option (Array * A))
        (Inv : Array * A -> Prop) (begin end_ diff : Z) (s : Array * A) :
  (forall i v s0,
      Inv s0 -> 0 <= i < m_size (fst s0) -> - 2 ^ 63 <= v < 2 ^ 63 ->
      exists s1, set_ i v s0 = Some s1 /\ Inv s1 /\
                 m_size (fst s1) = m_size (fst s0) /\
                 get (fst s1) i = v /\
                 forall j, 0 <= j < m_size (fst s0) -> j <> i ->
                           get (fst s1) j = get (fst s0) j) ->
  Inv s -> 0 <= begin <= end_ -> end_ <= m_size (fst s) -> m_size (fst s) <= npos ->
  (forall j, begin <= j < end_ -> - 2 ^ 63 <= get (fst s) j + diff < 2 ^ 63) ->
  exists s', adjust_range set_ begin end_ diff s = Some s' /\ Inv s' /\
             m_size (fst s') = m_size (fst s) /\
             forall j, 0 <= j < m_size (fst s) ->
                       get (fst s') j
                       = if (begin <=? j) && (j <? end_)
                         then get (fst s) j + diff else get (fst s) j.
Proof.
  intros Hset Hinv Hrange Hend Hsize Hsum. unfold adjust_range.
  destruct (Z.eqb_spec diff 0) as [-> | Hdiff]; cbn [negb].
  - exists s. split; [reflexivity |]. split; [exact Hinv |]. split; [reflexivity |].
    intros j Hj. rewrite Z.add_0_r. destruct ((begin <=? j) && (j <? end_)); reflexivity.
  - unfold npos in Hsize. rewrite to_u64_small by lia.
    destruct (adjust_loop_adds set_ Inv Hset diff (Z.to_nat (end_ - begin)) Hdiff begin s
                               Hinv ltac:(lia) ltac:(lia) ltac:(unfold npos; lia))
      as (s' & Hloop & Hinv' & Hsize' & Hget).
    { intros j Hj. apply Hsum. lia. }
    exists s'. split; [exact Hloop |]. split; [exact Hinv' |]. split; [exact Hsize' |].
    intros j Hj. rewrite Hget by assumption.
    replace (begin + Z.of_nat (Z.to_nat (end_ - begin))) with end_ by lia. reflexivity.
Qed.

(** The setter of the examples on a writable array of 64-bit elements. *)
Lemma set_stores_wide (i v : Z) (s0 : Array * SampleAlloc) :
  (coherent (fst s0) /\ m_width (fst s0) = 64 /\
   is_read_only (snd s0) (m_ref (fst s0)) = false) ->
  0 <= i < m_size (fst s0) -> - 2 ^ 63 <= v < 2 ^ 63 ->
  exists s1, set i v s0 = Some s1 /\
             (coherent (fst s1) /\ m_width (fst s1) = 64 /\
              is_read_only (snd s1) (m_ref (fst s1)) = false) /\
             m_size (fst s1) = m_size (fst s0) /\
             get (fst s1) i = v /\
             forall j, 0 <= j < m_size (fst s0) -> j <> i ->
                       get (fst s1) j = get (fst s0) j.
Proof.
  destruct s0 as [a al]. cbn [fst snd].
  intros ((Hatt & Hw & Hlb & Hub & Hsz & Hlen) & H64 & Hro) Hi Hv.
  rewrite H64 in Hlb, Hub, Hlen. injection Hlb as Hlb. injection Hub as Hub.
  unfold set. cbn [fst]. rewrite Hatt. cbn [negb].
  destruct (Z.leb_spec 0 i); [| lia]. destruct (Z.ltb_spec i (m_size a)); [| lia].
  cbn [andb negb]. unfold copy_on_write. rewrite Hro.
  unfold ensure_minimum_width.
  destruct (Z.geb_spec v (m_lbound a)); [| lia].
  destruct (Z.leb_spec v (m_ubound a)); [| lia]. cbn [andb].
  unfold is_attached in Hatt. unfold data_of in Hlen.
  destruct (m_data a) as [blk |] eqn:Hd; [| discriminate].
  eexists. split; [reflexivity |]. cbn [fst snd].
  unfold coherent, is_attached, get, get_w, data_of, set_block;
    cbn [m_width m_data m_size m_ref m_lbound m_ubound payload].
  rewrite H64, set_direct_length.
  split; [| split; [reflexivity | split]].
  - split; [| split; [reflexivity | exact Hro]].
    split; [reflexivity |]. split; [vm_compute; tauto |].
    split; [rewrite <- Hlb; reflexivity |]. split; [rewrite <- Hub; reflexivity |].
    split; assumption.
  - apply get_universal_set_direct_same; try lia.
    + vm_compute. tauto.
    + unfold fits. cbn. apply andb_true_iff. rewrite !Z.leb_le. lia.
  - intros j Hj Hne. rewrite Hd. cbn [payload].
    apply get_universal_set_direct_other; try lia.
    vm_compute. tauto.
Qed.

Lemma sample_wide_coherent : coherent sample_wide.
Proof.
  unfold coherent.
  split; [reflexivity |]. split; [vm_compute; tauto |].
  split; [reflexivity |]. split; [reflexivity |].
  split; vm_compute; discriminate.
Qed.

Lemma adjust_range_adds_witness :
  exists s', adjust_range set 1 3 5 (sample_wide, mkSampleAlloc 1024 8192 []) = Some s' /\
             (coherent (fst s') /\ m_width (fst s') = 64 /\
              is_read_only (snd s') (m_ref (fst s')) = false) /\
             m_size (fst s') = m_size (fst (sample_wide, mkSampleAlloc 1024 8192 [])) /\
             forall j, 0 <= j < m_size (fst (sample_wide, mkSampleAlloc 1024 8192 [])) ->
                       get (fst s') j
                       = if (1 <=? j) && (j <? 3)
                         then get (fst (sample_wide, mkSampleAlloc 1024 8192 [])) j + 5
                         else get (fst (sample_wide, mkSampleAlloc 1024 8192 [])) j.
Proof.
  apply (adjust_range_adds
           set
           (fun s => coherent (fst s) /\ m_width (fst s) = 64 /\
                     is_read_only (snd s) (m_ref (fst s)) = false)
           1 3 5 (sample_wide, mkSampleAlloc 1024 8192 [])).
  - exact set_stores_wide.
  - split; [exact sample_wide_coherent | split; reflexivity].
  - lia.
  - vm_compute. discriminate.
  - vm_compute. discriminate.
  - intros j Hj. assert (Hcases : j = 1 \/ j = 2) by lia.
    destruct Hcases as [-> | ->]; vm_compute; split; [discriminate | reflexivity |
                                                      discriminate | reflexivity].
Defined.

(** ** The scan and the limit of the sink *)

Section Counting.
Context {St : Type} `{QueryStateBase St}.
Hypothesis contract : sink_contract St.

(** What a sink that honours its limit looks like after the delivery
    of a list of matches. *)
Lemma run_matches_count (l : list (Z * Z)) :
  forall s,
    sink_ready s ->
    limit (snd (run_matches (report_to None) l s)) = limit s /\
    match_count s <= match_count (snd (run_matches (report_to None) l s)) <= limit s /\
    match_count (snd (run_matches (report_to None) l s))
    <= match_count s + Z.of_nat (length l) /\
    (fst (run_matches (report_to None) l s) = true ->
     match_count (snd (run_matches (report_to None) l s))
     = match_count s + Z.of_nat (length l) /\
     sink_ready (snd (run_matches (report_to None) l s))).
Proof.
  induction l as [| [i v] rest IH]; intros s Hready.
  - cbn [run_matches fst snd length]. destruct Hready as [Hc Hl].
    repeat split; try lia; assumption.
  - cbn [run_matches length]. unfold report_to at 1 3 5 7 9 11 13.
    destruct (contract i v s Hready) as (Hlim & Hcnt & Hgo).
    pose proof Hready as [Hcount Hnpos].
    destruct (match_ i v s) as [go s'] eqn:E. cbn [fst snd] in *.
    destruct go.
    + specialize (Hgo eq_refl).
      assert (Hready' : sink_ready s') by (split; lia).
      destruct (IH s' Hready') as (IHl & IHc & IHn & IHt).
      split; [congruence |]. split; [lia |]. split; [lia |].
      intros Hrun. destruct (IHt Hrun) as [IHe IHr]. split; [lia | exact IHr].
    + cbn [fst snd]. split; [exact Hlim |]. split; [lia |]. split; [lia |].
      discriminate.
Qed.

End Counting.

(** With a sink that honours its limit, a scan returns with the limit
    unchanged and the match count raised by at most the number of
    matching indices and never beyond the limit; when the scan runs to
    its end, the count is raised by exactly the number of indices of the
    range whose element satisfies the condition. *)
Theorem find_optimized_respects_limit
        {St : Type} `{QueryStateBase St} (shr_oversize : Z -> Z -> Z)
        (c : Cond) (arr : Array) (value start end_ baseindex : Z) (s : St) :
  (forall x n, 0 <= shr_oversize x n < 2 ^ 64) ->
  supported_width (m_width arr) ->
  0 <= start <= end_ -> end_ <= m_size arr -> m_size arr <= npos ->
  sink_contract St -> sink_ready s ->
  exists go_on s',
    find_optimized None shr_oversize c (m_width arr) arr value start end_ baseindex s
    = Some (go_on, s') /\
    limit s' = limit s /\
    match_count s <= match_count s' <= limit s /\
    match_count s' - match_count s
    <= Z.of_nat (length (filter (fun i => cond_holds c (get arr i) value)
                                (index_range start end_))) /\
    (go_on = true ->
     match_count s' - match_count s
     = Z.of_nat (length (filter (fun i => cond_holds c (get arr i) value)
                                (index_range start end_)))).
Proof.
  intros Hshr Hw Hrange Hsize Hnpos Hcontract Hready.
  rewrite (find_optimized_naive None shr_oversize Hshr c arr value start end_ baseindex s
                                Hw Hrange Hsize Hnpos)
    by (intros _; split; assumption).
  rewrite naive_scan_run.
  pose proof (run_matches_count Hcontract
                (matches (fun x => cond_holds c x value) (get_w (m_width arr) arr)
                         baseindex (index_range start end_)) s Hready)
    as (Hlim & Hcnt & Hnum & Hall).
  unfold matches in Hnum, Hall. rewrite length_map in Hnum, Hall.
  destruct (run_matches _ _ s) as [go_on s'] eqn:E. cbn [fst snd] in *.
  exists go_on, s'. split; [reflexivity |]. split; [exact Hlim |].
  split; [exact Hcnt |]. split; [unfold get; lia |].
  intros Hgo. destruct (Hall Hgo) as [Hexact _]. unfold get. lia.
Qed.

Lemma find_optimized_respects_limit_witness :
  exists go_on s',
    find_optimized None shr_hardware NotEqual (m_width sample_array) sample_array 7 0 8 0
                   (mkFindFirst not_found 0 1)
    = Some (go_on, s') /\
    limit s' = limit (mkFindFirst not_found 0 1) /\
    match_count (mkFindFirst not_found 0 1) <= match_count s'
    <= limit (mkFindFirst not_found 0 1) /\
    match_count s' - match_count (mkFindFirst not_found 0 1)
    <= Z.of_nat (length (filter (fun i => cond_holds NotEqual (get sample_array i) 7)
                                (index_range 0 8))) /\
    (go_on = true ->
     match_count s' - match_count (mkFindFirst not_found 0 1)
     = Z.of_nat (length (filter (fun i => cond_holds NotEqual (get sample_array i) 7)
                                (index_range 0 8)))).
Proof.
  apply (find_optimized_respects_limit shr_hardware NotEqual sample_array 7 0 8 0
                                       (mkFindFirst not_found 0 1)).
  - exact shr_hardware_range.
  - vm_compute. tauto.
  - lia.
  - vm_compute. discriminate.
  - vm_compute. discriminate.
  - exact FindFirst_contract.
  - exact FindFirst_init_ready.
Defined.

(** ** Scanning a range in two pieces *)

(** A scan of [start, end) is the scan of [start, mid) followed, unless
    that one was stopped or aborted, by the scan of [mid, end) from the
    state the first one left: leaves can be scanned piece by piece. *)
Theorem find_optimized_splits
        {St : Type} `{QueryStateBase St}
        (callback : option (Z -> St -> bool * St)) (shr_oversize : Z -> Z -> Z)
        (c : Cond) (arr : Array) (value start mid end_ baseindex : Z) (s : St) :
  (forall x n, 0 <= shr_oversize x n < 2 ^ 64) ->
  supported_width (m_width arr) ->
  0 <= start <= mid -> mid <= end_ -> end_ <= m_size arr -> m_size arr <= npos ->
  (callback = None -> sink_contract St /\ sink_ready s) ->
  find_optimized callback shr_oversize c (m_width arr) arr value start end_ baseindex s
  = match find_optimized callback shr_oversize c (m_width arr) arr value start mid
                         baseindex s with
    | Some (true, s1) =>
        find_optimized callback shr_oversize c (m_width arr) arr value mid end_ baseindex s1
    | stopped => stopped
    end.
Proof.
  intros Hshr Hw Hsm Hme Hsize Hnpos Hsink.
  rewrite (find_optimized_naive callback shr_oversize Hshr c arr value start end_ baseindex s
                                Hw ltac:(lia) Hsize Hnpos Hsink).
  rewrite (find_optimized_naive callback shr_oversize Hshr c arr value start mid baseindex s
                                Hw ltac:(lia) ltac:(lia) Hnpos Hsink).
  rewrite !naive_scan_run.
  assert (Hsplit : index_range start end_ = index_range start mid ++ index_range mid end_).
  { unfold index_range.
    replace (Z.to_nat (end_ - start))
      with (Z.to_nat (mid - start) + Z.to_nat (end_ - mid))%nat by lia.
    rewrite zrange_app. do 2 f_equal. lia. }
  rewrite Hsplit, matches_app, (run_matches_app callback).
  set (first := matches (fun x => cond_holds c x value) (get_w (m_width arr) arr) baseindex
                        (index_range start mid)).
  assert (Hnext : callback = None ->
                  fst (run_matches (report_to callback) first s) = true ->
                  sink_ready (snd (run_matches (report_to callback) first s))).
  { intros Hnone. destruct (Hsink Hnone) as [Hcontract Hready]. subst callback.
    intros Hgo. apply (run_matches_count Hcontract first s Hready). exact Hgo. }
  destruct (run_matches (report_to callback) first s) as [go_on s1]. cbn [fst snd] in Hnext.
  destruct go_on; [| reflexivity].
  rewrite (find_optimized_naive callback shr_oversize Hshr c arr value mid end_ baseindex s1
                                Hw ltac:(lia) Hsize Hnpos).
  - rewrite naive_scan_run. reflexivity.
  - intros Hnone. split; [apply (Hsink Hnone) | apply Hnext; [exact Hnone | reflexivity]].
Qed.

Lemma find_optimized_splits_witness :
  find_optimized (St := Recorder) None shr_hardware Less (m_width sample_array)
                 sample_array 7 0 8 0 []
  = match find_optimized (St := Recorder) None shr_hardware Less (m_width sample_array)
                         sample_array 7 0 5 0 [] with
    | Some (true, s1) =>
        find_optimized (St := Recorder) None shr_hardware Less (m_width sample_array)
                       sample_array 7 5 8 0 s1
    | stopped => stopped
    end.
Proof.
  apply (find_optimized_splits (St := Recorder) None shr_hardware Less sample_array
                               7 0 5 8 0 []).
  - exact shr_hardware_range.
  - vm_compute. tauto.
  - lia.
  - lia.
  - vm_compute. discriminate.
  - vm_compute. discriminate.
  - intros _. split; [exact Recorder_contract | exact Recorder_empty_ready].
Defined.
